(** * tg_parse: the member-enumeration client and the credential pool

    A shallow embedding of the TypeScript front end of the Telegram group
    parser ([TelegramParser.tsx], [TokenPoolStatus.tsx]) together with a
    model of the credential pool that the back end keeps.

    - [Js]      the JavaScript primitives the component relies on: IEEE-754
                doubles for [/] and [*], [Math.round], [Math.min], [||] on
                optional strings, [String.includes], [Array.slice] and
                [Array.length].
    - [Api]     the wire shapes exchanged with the back end.
    - the component itself: React state, the [async] functions
      [handleSubmit], [fetchAllMembers], [attemptFetch] and the pure helper
      [getCurrentPageMembers], written in a small monad that threads the
      component state, the request log and JavaScript exceptions.
    - [Pool]    the credential pool and its status report.
    - [Legacy]  the job of the first revision of the component.
    - [Utf16], [Csv]  the export helpers [sanitizeFilename] and
                [downloadCSV].
    - [TokenPoolStatus], [App], [Auth]  the status page, the theme and
                the session.  *)

From Stdlib Require Import ZArith List String Ascii Bool Arith Lia.
From Stdlib Require Import DecimalString.
From Stdlib Require Import Floats.SpecFloat.
Import ListNotations.

Local Open Scope Z_scope.

(* ================================================================== *)
(** ** JavaScript primitives *)
(* ================================================================== *)

Module Js.

(** JavaScript numbers are IEEE-754 binary64 values.  Division and
    multiplication are the correctly rounded operations of [SpecFloat]. *)
Definition prec : Z := 53.
Definition emax : Z := 1024.

(** The double nearest to an integer literal or an array length. *)
Definition num (z : Z) : spec_float := binary_normalize prec emax z 0 false.

Definition div (x y : spec_float) : spec_float := SFdiv prec emax x y.
Definition mul (x y : spec_float) : spec_float := SFmul prec emax x y.

(** [x || 0] on a number: [0] and [NaN] are falsy. *)
Definition or_zero (x : spec_float) : spec_float :=
  match x with
  | S754_zero _ | S754_nan => S754_zero false
  | _ => x
  end.

(** The values [Math.round] can return: an integer, an infinity or [NaN]
    (the sign of a zero result is not kept). *)
Inductive jsint : Type :=
| JInt (z : Z)
| JInfinity (negative : bool)
| JNaN.

(** [Math.round x] is the integer closest to [x], ties going towards
    +infinity, that is [floor (x + 1/2)] computed exactly.  For a finite
    [x = sm * 2^e] with [e < 0] this is
    [floor ((2 * sm + 2^(-e)) / 2^(1 - e))]. *)
Definition Math_round (x : spec_float) : jsint :=
  match x with
  | S754_nan => JNaN
  | S754_infinity s => JInfinity s
  | S754_zero _ => JInt 0
  | S754_finite s m e =>
      let sm := cond_Zopp s (Zpos m) in
      if 0 <=? e then JInt (sm * 2 ^ e)
      else JInt ((2 * sm + 2 ^ (- e)) / 2 ^ (1 - e))
  end.

(** [Math.min a b] on such values. *)
Definition Math_min (a b : jsint) : jsint :=
  match a, b with
  | JNaN, _ | _, JNaN => JNaN
  | JInfinity true, _ | _, JInfinity true => JInfinity true
  | JInfinity false, x | x, JInfinity false => x
  | JInt x, JInt y => JInt (Z.min x y)
  end.

(** [a || b] where [a] is an optional string: [undefined] and the empty
    string are falsy. *)
Definition or_str (a : option string) (b : string) : string :=
  match a with
  | Some s => if (s =? "")%string then b else s
  | None => b
  end.

(** [s.includes(sub)]. *)
Definition includes (s sub : string) : bool :=
  match index 0 sub s with
  | Some _ => true
  | None => false
  end.

(** [`${n}`] for a non-negative integer. *)
Definition toString (n : nat) : string := NilZero.string_of_uint (Nat.to_uint n).

(** [s.trim()], for the ASCII white space characters. *)
Definition is_space (c : ascii) : bool :=
  let n := nat_of_ascii c in
  ((n =? 32) || ((9 <=? n) && (n <=? 13)))%nat.

Fixpoint trim_start (l : list ascii) : list ascii :=
  match l with
  | c :: l' => if is_space c then trim_start l' else l
  | [] => []
  end.

Definition trim (s : string) : string :=
  string_of_list_ascii
    (rev (trim_start (rev (trim_start (list_ascii_of_string s))))).

(** [a.length].  The length of an array never exceeds [2^32 - 1]; lists
    are left unbounded here and the value read is capped. *)
Definition max_array_length : Z := 2 ^ 32 - 1.

Definition length {A : Type} (a : list A) : Z :=
  Z.min (Z.of_nat (List.length a)) max_array_length.

(** [a.slice(start, end)] for integer arguments: negative indices count
    from the end, both bounds are clamped to the array. *)
Definition slice {A : Type} (a : list A) (start end_ : Z) : list A :=
  let len := Z.of_nat (List.length a) in
  let clamp i := if i <? 0 then Z.max (len + i) 0 else Z.min i len in
  let k := clamp start in
  let final := clamp end_ in
  firstn (Z.to_nat (final - k)) (skipn (Z.to_nat k) a).

End Js.

(* ================================================================== *)
(** ** Wire shapes *)
(* ================================================================== *)

Module Api.

Record GroupInfo : Type := {
  group_id : string;
  name : string;
  member_count : option Z;
  description : option string
}.

Record MemberInfo : Type := {
  user_id : Z;
  username : option string;
  first_name : option string;
  last_name : option string;
  is_premium : option bool;
  can_message : bool;
  is_admin : bool;
  admin_title : option string
}.

(** [total_count] is a JSON integer. *)
Record MembersResponse : Type := {
  success : bool;
  data : list MemberInfo;
  error : option string;
  total_count : option Z;
  has_more : bool
}.

(** The body of the answer to [POST /api/parse-group]:
    [{success: true, data}] or [{success: false, error?}]. *)
Inductive ParseResponse : Type :=
| ParseOk (data : GroupInfo)
| ParseFailed (error : option string).

(** A thrown value as the [catch] blocks inspect it: [err.response] with
    its [data?.error], [err.request] and [err.message].  An [Error] made
    with [new Error(msg)] has neither response nor request. *)
Record Exn : Type := {
  response : option (option string);
  request : bool;
  message : string
}.

Definition new_Error (msg : string) : Exn :=
  {| response := None; request := false; message := msg |}.

(** [err.response?.data?.error] *)
Definition response_error (err : Exn) : option string :=
  match response err with
  | Some e => e
  | None => None
  end.

(** What [axios] does with a request: resolve with a body or reject. *)
Inductive Reply (A : Type) : Type :=
| Resolved (body : A)
| Rejected (err : Exn).
Arguments Resolved {A} body.
Arguments Rejected {A} err.

(** The back end as the component sees it.  The first argument is the
    number of requests the component has issued before this one, so that
    a server can answer the same request differently over time. *)
Record Server : Type := {
  parse_group : nat -> string -> Reply ParseResponse;
  group_members : nat -> string -> Z -> Z -> Reply MembersResponse
}.

End Api.

Import Api.


(* ================================================================== *)
(** ** The component: state, effects and control flow *)
(* ================================================================== *)

(** The [useState] cells of [TelegramParser] that the enumeration code
    reads or writes. *)
Record State : Type := {
  groupLink : string;
  loading : bool;
  error : option string;
  groupInfo : option GroupInfo;
  allMembers : list MemberInfo;
  currentPage : Z;
  loadingMembers : bool;
  fetchProgress : Js.jsint
}.

(** What the component does to the outside, in the order it happens. *)
Inductive Event : Type :=
| EvPost (group_link : string)                 (* axios.post parse-group *)
| EvGet (groupId : string) (offset limit : Z)  (* axios.get group-members *)
| EvSleep (ms : Z)                             (* setTimeout *)
| EvProgress (p : Js.jsint).                   (* setFetchProgress *)

Record World : Type := {
  ui : State;
  sent : nat;            (* requests issued so far *)
  trace : list Event     (* oldest event first *)
}.

(** How a computation ends: it returns, it throws, or the model's fuel
    for loops runs out before it does either. *)
Inductive Outcome (A : Type) : Type :=
| Ret (a : A)
| Throw (err : Exn)
| OutOfFuel.
Arguments Ret {A} a.
Arguments Throw {A} err.
Arguments OutOfFuel {A}.

Definition M (A : Type) : Type := World -> Outcome A * World.

Definition ret {A} (a : A) : M A := fun w => (Ret a, w).
Definition throw {A} (err : Exn) : M A := fun w => (Throw err, w).
Definition out_of_fuel {A} : M A := fun w => (OutOfFuel, w).

Definition bind {A B} (m : M A) (k : A -> M B) : M B :=
  fun w =>
    match m w with
    | (Ret a, w') => k a w'
    | (Throw err, w') => (Throw err, w')
    | (OutOfFuel, w') => (OutOfFuel, w')
    end.

(** [try { m } catch (err) { handler err }] *)
Definition try_catch {A} (m : M A) (handler : Exn -> M A) : M A :=
  fun w =>
    match m w with
    | (Throw err, w') => handler err w'
    | r => r
    end.

(** [try { m } finally { cleanup }]; the cleanup itself never throws here. *)
Definition try_finally {A} (m : M A) (cleanup : World -> World) : M A :=
  fun w =>
    match m w with
    | (OutOfFuel, w') => (OutOfFuel, w')
    | (r, w') => (r, cleanup w')
    end.

Declare Scope js_scope.
Delimit Scope js_scope with js.
Notation "x <- m ;; k" := (bind m (fun x => k))
  (at level 100, m at next level, right associativity) : js_scope.
Notation "m ;; k" := (bind m (fun _ => k))
  (at level 100, right associativity) : js_scope.

Definition emit (e : Event) (w : World) : World :=
  {| ui := ui w; sent := sent w; trace := trace w ++ [e] |}.

Definition with_ui (f : State -> State) (w : World) : World :=
  {| ui := f (ui w); sent := sent w; trace := trace w |}.

(** The state setters. *)
Definition set_loading (v : bool) (s : State) : State :=
  {| groupLink := groupLink s; loading := v; error := error s;
     groupInfo := groupInfo s; allMembers := allMembers s;
     currentPage := currentPage s; loadingMembers := loadingMembers s;
     fetchProgress := fetchProgress s |}.

Definition set_error (v : option string) (s : State) : State :=
  {| groupLink := groupLink s; loading := loading s; error := v;
     groupInfo := groupInfo s; allMembers := allMembers s;
     currentPage := currentPage s; loadingMembers := loadingMembers s;
     fetchProgress := fetchProgress s |}.

Definition set_groupInfo (v : option GroupInfo) (s : State) : State :=
  {| groupLink := groupLink s; loading := loading s; error := error s;
     groupInfo := v; allMembers := allMembers s;
     currentPage := currentPage s; loadingMembers := loadingMembers s;
     fetchProgress := fetchProgress s |}.

Definition set_allMembers (v : list MemberInfo) (s : State) : State :=
  {| groupLink := groupLink s; loading := loading s; error := error s;
     groupInfo := groupInfo s; allMembers := v;
     currentPage := currentPage s; loadingMembers := loadingMembers s;
     fetchProgress := fetchProgress s |}.

Definition set_currentPage (v : Z) (s : State) : State :=
  {| groupLink := groupLink s; loading := loading s; error := error s;
     groupInfo := groupInfo s; allMembers := allMembers s;
     currentPage := v; loadingMembers := loadingMembers s;
     fetchProgress := fetchProgress s |}.

Definition set_loadingMembers (v : bool) (s : State) : State :=
  {| groupLink := groupLink s; loading := loading s; error := error s;
     groupInfo := groupInfo s; allMembers := allMembers s;
     currentPage := currentPage s; loadingMembers := v;
     fetchProgress := fetchProgress s |}.

Definition set_fetchProgress (v : Js.jsint) (s : State) : State :=
  {| groupLink := groupLink s; loading := loading s; error := error s;
     groupInfo := groupInfo s; allMembers := allMembers s;
     currentPage := currentPage s; loadingMembers := loadingMembers s;
     fetchProgress := v |}.

Definition setLoading (v : bool) : M unit :=
  fun w => (Ret tt, with_ui (set_loading v) w).
Definition setError (v : option string) : M unit :=
  fun w => (Ret tt, with_ui (set_error v) w).
Definition setGroupInfo (v : option GroupInfo) : M unit :=
  fun w => (Ret tt, with_ui (set_groupInfo v) w).
Definition setAllMembers (v : list MemberInfo) : M unit :=
  fun w => (Ret tt, with_ui (set_allMembers v) w).
Definition setCurrentPage (v : Z) : M unit :=
  fun w => (Ret tt, with_ui (set_currentPage v) w).
Definition setLoadingMembers (v : bool) : M unit :=
  fun w => (Ret tt, with_ui (set_loadingMembers v) w).
Definition setFetchProgress (v : Js.jsint) : M unit :=
  fun w => (Ret tt, emit (EvProgress v) (with_ui (set_fetchProgress v) w)).

(** [await new Promise(resolve => setTimeout(resolve, ms))] *)
Definition sleep (ms : Z) : M unit :=
  fun w => (Ret tt, emit (EvSleep ms) w).

(** One request: it is logged, counted, and the server's reply decides
    whether the [await] returns or throws. *)
Definition issue (e : Event) (w : World) : World :=
  {| ui := ui w; sent := S (sent w); trace := trace w ++ [e] |}.

Definition await {A} (r : Reply A) : Outcome A :=
  match r with
  | Resolved body => Ret body
  | Rejected err => Throw err
  end.

Definition axios_post (srv : Server) (group_link : string) : M ParseResponse :=
  fun w => (await (parse_group srv (sent w) group_link),
            issue (EvPost group_link) w).

Definition axios_get (srv : Server) (groupId : string) (offset limit : Z)
  : M MembersResponse :=
  fun w => (await (group_members srv (sent w) groupId offset limit),
            issue (EvGet groupId offset limit) w).

(* ================================================================== *)
(** ** The component: the functions of [TelegramParser] *)
(* ================================================================== *)

Local Open Scope js_scope.

Definition MEMBERS_PER_PAGE : Z := 50.

(** [getCurrentPageMembers] *)
Definition getCurrentPageMembers (s : State) : list MemberInfo :=
  let startIndex := (currentPage s - 1) * MEMBERS_PER_PAGE in
  Js.slice (allMembers s) startIndex (startIndex + MEMBERS_PER_PAGE).

(** The number of display pages, [ceil (n / 50)] for [n] members. *)
Definition page_count (n : nat) : nat := Z.to_nat ((Z.of_nat n + 49) / 50).

(** [handlePageChange], as far as the state goes. *)
Definition handlePageChange (page : Z) (s : State) : State :=
  set_currentPage page s.

(** The constants and the [let] variables of [attemptFetch]. *)
Definition maxRetries : nat := 3.
Definition batchSize : Z := 50.

Record LoopVars : Type := {
  allFetchedMembers : list MemberInfo;
  currentOffset : Z;
  hasMore : bool
}.

(** [initialResponse.data.total_count || 0] *)
Definition totalMembers_of (initialResponse : MembersResponse) : spec_float :=
  match total_count initialResponse with
  | Some n => Js.or_zero (Js.num n)
  | None => S754_zero false
  end.

(** [Math.min(Math.round((allFetchedMembers.length / totalMembers) * 100), 100)] *)
Definition progress_of (length : Z) (totalMembers : spec_float) : Js.jsint :=
  Js.Math_min
    (Js.Math_round
       (Js.mul (Js.div (Js.num length) totalMembers) (Js.num 100)))
    (Js.JInt 100).

(** The body of [while (hasMore)]. *)
Definition page_iteration (srv : Server) (groupId : string)
    (totalMembers : spec_float) (v : LoopVars) : M LoopVars :=
  response <- axios_get srv groupId (currentOffset v) batchSize ;;
  if negb (success response) then
    throw (new_Error (Js.or_str (Api.error response) "Failed to fetch members"))
  else if 0 <? Js.length (data response) then
    let members := allFetchedMembers v ++ data response in
    let progress := progress_of (Js.length members) totalMembers in
    setFetchProgress progress ;;
    ret {| allFetchedMembers := members;
           currentOffset := currentOffset v + batchSize;
           hasMore := has_more response |}
  else
    setFetchProgress (Js.JInt 100) ;;
    ret {| allFetchedMembers := allFetchedMembers v;
           currentOffset := currentOffset v;
           hasMore := false |}.

(** [while (hasMore) { ... }]; [fuel] bounds the number of iterations. *)
Fixpoint while_hasMore (fuel : nat) (srv : Server) (groupId : string)
    (totalMembers : spec_float) (v : LoopVars) : M LoopVars :=
  if hasMore v then
    match fuel with
    | O => out_of_fuel
    | S fuel' =>
        v' <- page_iteration srv groupId totalMembers v ;;
        while_hasMore fuel' srv groupId totalMembers v'
    end
  else ret v.

(** The [try] block of [attemptFetch]. *)
Definition attempt_try (fuel : nat) (srv : Server) (groupId : string) : M bool :=
  initialResponse <- axios_get srv groupId 0 1 ;;
  if negb (success initialResponse) then
    throw (new_Error
             (Js.or_str (Api.error initialResponse) "Failed to get member count"))
  else
    let totalMembers := totalMembers_of initialResponse in
    v <- while_hasMore fuel srv groupId totalMembers
           {| allFetchedMembers := []; currentOffset := 0; hasMore := true |} ;;
    setAllMembers (allFetchedMembers v) ;;
    ret true.

Definition admin_rights_message : string :=
  "Unable to access the group. Please make sure the bot is a member of the group and has admin rights.".

(** The end of the [catch] block, once the retries are used up. *)
Definition report_failure (err : Exn) : M bool :=
  let errorMessage :=
    Js.or_str (response_error err)
      (Js.or_str (Some (message err)) "Failed to fetch members") in
  (if Js.includes errorMessage "Could not find the input entity" then
     setError (Some admin_rights_message)
   else
     setError (Some (errorMessage ++ ". Please try again later.")%string)) ;;
  ret false.

(** [attemptFetch].  [retryCount] is the variable of the enclosing
    [fetchAllMembers]; it only changes just before the recursive call, so
    it is passed along.  Each call takes one unit of [fuel] and hands the
    rest to its loop and to the retry. *)
Fixpoint attemptFetch (fuel : nat) (srv : Server) (groupId : string)
    (retryCount : nat) : M bool :=
  match fuel with
  | O => out_of_fuel
  | S fuel' =>
      try_catch (attempt_try fuel' srv groupId)
        (fun err =>
           if (retryCount <? maxRetries)%nat then
             let retryCount := S retryCount in
             setError (Some ("Retrying... Attempt " ++ Js.toString retryCount
                             ++ " of " ++ Js.toString maxRetries)%string) ;;
             sleep 2000 ;;
             attemptFetch fuel' srv groupId retryCount
           else report_failure err)
  end.

(** [fetchAllMembers] *)
Definition fetchAllMembers (fuel : nat) (srv : Server) (groupId : string)
  : M unit :=
  setLoadingMembers true ;;
  setFetchProgress (Js.JInt 0) ;;
  try_finally
    (success <- attemptFetch fuel srv groupId 0 ;;
     if negb success then setAllMembers [] else ret tt)
    (with_ui (set_loadingMembers false)).

(** The [catch] block of [handleSubmit]. *)
Definition report_submit_error (err : Exn) : M unit :=
  match response err with
  | Some data_error =>
      setError (Some (Js.or_str data_error "Server error occurred"))
  | None =>
      if request err then
        setError (Some "Network error. Please check if the server is running."%string)
      else
        setError (Some (Js.or_str (Some (message err))
                          "An unexpected error occurred"))
  end.

(** [handleSubmit] *)
Definition handleSubmit (fuel : nat) (srv : Server) : M unit :=
  setLoading true ;;
  setError None ;;
  setAllMembers [] ;;
  setCurrentPage 1 ;;
  try_finally
    (try_catch
       (fun w =>
          (let cleanLink := Js.trim (groupLink (ui w)) in
           response <- axios_post srv cleanLink ;;
           match response with
           | ParseOk data =>
               setGroupInfo (Some data) ;;
               fetchAllMembers fuel srv (group_id data)
           | ParseFailed err =>
               setError (Some (Js.or_str err "Failed to parse group"))
           end) w)
       report_submit_error)
    (with_ui (set_loading false)).

(** The component as mounted, with [group_link] typed into the form. *)
Definition mounted (group_link : string) : World :=
  {| ui := {| groupLink := group_link; loading := false; error := None;
              groupInfo := None; allMembers := []; currentPage := 1;
              loadingMembers := false; fetchProgress := Js.JInt 0 |};
     sent := 0;
     trace := [] |}.

(** Readings of the trace. *)
Definition is_get (e : Event) : bool :=
  match e with EvGet _ _ _ => true | _ => false end.

Definition is_sleep (e : Event) : bool :=
  match e with EvSleep _ => true | _ => false end.

(** An attempt begins with the request for the member count
    ([offset = 0, limit = 1]). *)
Definition is_attempt_start (e : Event) : bool :=
  match e with EvGet _ 0 1 => true | _ => false end.

Definition attempts (tr : list Event) : nat :=
  List.length (filter is_attempt_start tr).

Fixpoint progress_values (tr : list Event) : list Js.jsint :=
  match tr with
  | EvProgress p :: tr' => p :: progress_values tr'
  | _ :: tr' => progress_values tr'
  | [] => []
  end.

(** The offsets of the page requests ([limit = batchSize]). *)
Fixpoint page_offsets (tr : list Event) : list Z :=
  match tr with
  | EvGet _ offset 50 :: tr' => offset :: page_offsets tr'
  | _ :: tr' => page_offsets tr'
  | [] => []
  end.

(* ================================================================== *)
(** ** Reading a run *)
(* ================================================================== *)

(** The variables of [attemptFetch] when its loop is entered. *)
Definition loop_entry : LoopVars :=
  {| allFetchedMembers := []; currentOffset := 0; hasMore := true |}.

(** The states of the loop of one attempt: [paging srv groupId total w0 v w]
    says that, the loop being entered in world [w0], some number of
    iterations that did not throw lead to the variables [v] in world [w]. *)
Inductive paging (srv : Server) (groupId : string) (totalMembers : spec_float)
    (w0 : World) : LoopVars -> World -> Prop :=
| paging_entry : paging srv groupId totalMembers w0 loop_entry w0
| paging_next v w v' w' :
    paging srv groupId totalMembers w0 v w ->
    hasMore v = true ->
    page_iteration srv groupId totalMembers v w = (Ret v', w') ->
    paging srv groupId totalMembers w0 v' w'.

(** The page the server gives to the [k]-th page request of an attempt
    whose first page request is request number [n]: it asks for
    [batchSize] members at offset [k * batchSize]. *)
Definition page (srv : Server) (groupId : string) (n k : nat)
  : list MemberInfo :=
  match group_members srv (n + k) groupId (Z.of_nat k * batchSize) batchSize with
  | Resolved response => data response
  | Rejected _ => []
  end.

(** The first [k] pages of that attempt, one after the other. *)
Definition pages (srv : Server) (groupId : string) (n k : nat)
  : list MemberInfo :=
  List.concat (map (page srv groupId n) (seq 0 k)).

(** The world in which a retry starts: the notice is shown and two
    seconds have passed. *)
Definition retrying (retryCount : nat) (w : World) : World :=
  emit (EvSleep 2000)
    (with_ui (set_error
                (Some ("Retrying... Attempt " ++ Js.toString retryCount
                       ++ " of " ++ Js.toString maxRetries)%string)) w).

(** The events of a loop that is at [offset]: page requests at offsets
    going up by [batchSize], each followed by a progress report unless it
    threw. *)
Inductive page_events (groupId : string) : Z -> list Event -> Prop :=
| page_events_nil offset : page_events groupId offset []
| page_events_thrown offset :
    page_events groupId offset [EvGet groupId offset batchSize]
| page_events_page offset p tr :
    page_events groupId (offset + batchSize) tr ->
    page_events groupId offset
      (EvGet groupId offset batchSize :: EvProgress p :: tr).

(** The events of one attempt: the request for the member count, then a
    loop that starts at offset [0]. *)
Inductive attempt_events (groupId : string) : list Event -> Prop :=
| attempt_events_none : attempt_events groupId []
| attempt_events_start tr :
    page_events groupId 0 tr ->
    attempt_events groupId (EvGet groupId 0 1 :: tr).

(** The events of a job that may still retry [n] times: attempts
    separated by sleeps of two seconds. *)
Inductive job_events (groupId : string) : nat -> list Event -> Prop :=
| job_events_last n a :
    attempt_events groupId a -> job_events groupId n a
| job_events_retry n a tr :
    attempt_events groupId a ->
    job_events groupId n tr ->
    job_events groupId (S n) (a ++ EvSleep 2000 :: tr).

Definition sleeps (tr : list Event) : nat := List.length (filter is_sleep tr).

(** A reply that ends the loop of an attempt. *)
Definition stops (r : Reply MembersResponse) : bool :=
  match r with
  | Rejected _ => true
  | Resolved response =>
      negb (success response)
      || (Js.length (data response) =? 0)
      || negb (has_more response)
  end.

(** The listing the server gives is finite: from some offset on, every
    reply ends the loop, whatever the request. *)
Definition finite_listing (srv : Server) : Prop :=
  exists bound, forall n groupId offset limit,
    bound <= offset ->
    stops (group_members srv n groupId offset limit) = true.

(** A run that ended, by returning or by throwing, before the fuel did. *)
Definition finished {A : Type} (r : Outcome A * World) : Prop :=
  match r with
  | (OutOfFuel, _) => False
  | _ => True
  end.

(** The world in which [fetchAllMembers] calls [attemptFetch]. *)
Definition fetch_entry (w : World) : World :=
  emit (EvProgress (Js.JInt 0))
    (with_ui (set_fetchProgress (Js.JInt 0))
       (with_ui (set_loadingMembers true) w)).

(** A reply after which the loop asks for the next page: the request was
    answered with [success], members came and [has_more] was set. *)
Definition goes_on (r : Reply MembersResponse) : bool :=
  match r with
  | Resolved response =>
      success response && (0 <? Js.length (data response))
      && has_more response
  | Rejected _ => false
  end.

(** A reply by which the server ends the listing: the request was
    answered with [success], and the page is empty or [has_more] is off. *)
Definition ends_listing (r : Reply MembersResponse) : bool :=
  match r with
  | Resolved response =>
      success response
      && ((Js.length (data response) =? 0) || negb (has_more response))
  | Rejected _ => false
  end.

(** The member list shown is a complete enumeration: it is made of the
    pages of the last [j + 1] requests, which one attempt asked for at
    offsets [0], [batchSize], ... after its count request (request number
    [n]).  None of these requests failed: the count request and every
    page request were answered with [success]; after each page but the
    last the server said that there was more, and with the last page it
    ended the listing. *)
Definition delivered (srv : Server) (groupId : string) (w : World) : Prop :=
  exists n j,
    allMembers (ui w) = pages srv groupId (S n) (S j) /\
    sent w = (S n + S j)%nat /\
    (exists initialResponse,
        group_members srv n groupId 0 1 = Resolved initialResponse /\
        success initialResponse = true) /\
    (forall k, (k < j)%nat ->
       goes_on (group_members srv (S n + k) groupId
                  (Z.of_nat k * batchSize) batchSize) = true) /\
    ends_listing (group_members srv (S n + j) groupId
                    (Z.of_nat j * batchSize) batchSize) = true.

(** The job has failed: no member is shown and an error message is. *)
Definition failed (w : World) : Prop :=
  allMembers (ui w) = [] /\
  exists msg, error (ui w) = Some msg /\ msg <> ""%string.

(** The offsets [0], [batchSize], ..., of [k] page requests. *)
Definition offsets_upto (k : nat) : list Z :=
  map (fun i => Z.of_nat i * batchSize) (seq 0 k).

(** A progress value between 0 and 100. *)
Definition percentage (p : Js.jsint) : Prop :=
  exists n, p = Js.JInt n /\ 0 <= n <= 100.

(** From [w] to [w'] only percentages were reported, and the progress
    shown is the one of [w] or a percentage. *)
Definition progress_kept (w w' : World) : Prop :=
  (exists tr, trace w' = trace w ++ tr /\
              Forall percentage (progress_values tr))
  /\ (fetchProgress (ui w') = fetchProgress (ui w)
      \/ percentage (fetchProgress (ui w'))).

(** The counts the server reports are not negative. *)
Definition counts_nonnegative (srv : Server) : Prop :=
  forall n groupId offset limit response,
    group_members srv n groupId offset limit = Resolved response ->
    match total_count response with
    | Some total => 0 <= total
    | None => True
    end.

(** A double that is neither negative nor [NaN]. *)
Definition nonneg_float (x : spec_float) : Prop :=
  match x with
  | S754_zero false | S754_infinity false | S754_finite false _ _ => True
  | _ => False
  end.

(* ================================================================== *)
(** ** Servers for the scenarios *)
(* ================================================================== *)

Definition member (i : nat) : MemberInfo :=
  {| user_id := Z.of_nat i; username := None; first_name := None;
     last_name := None; is_premium := None; can_message := false;
     is_admin := false; admin_title := None |}.

(** A group whose members are numbered from [1]. *)
Definition group_of (n : nat) : list MemberInfo := map member (seq 1 n).

Definition demo_group : GroupInfo :=
  {| group_id := "-1001"; name := "demo"; member_count := None;
     description := None |}.

(** Modelled from the spec: the page that [list_members] of the back end
    (not part of the sources) serves, with
    [has_more = (page length == batch_size) AND (offset < total_count)]
    taken at the advanced offset. *)
Definition list_members (members : list MemberInfo) (offset limit : Z)
  : MembersResponse :=
  let page := Js.slice members offset (offset + limit) in
  let total := Z.of_nat (List.length members) in
  {| success := true;
     data := page;
     Api.error := None;
     total_count := Some total;
     has_more := (Z.of_nat (List.length page) =? limit)
                 && (offset + limit <? total) |}.

(** A server that resolves every group and pages through [members]. *)
Definition backend (members : list MemberInfo) : Server :=
  {| parse_group := fun _ _ => Resolved (ParseOk demo_group);
     group_members := fun _ _ offset limit =>
                        Resolved (list_members members offset limit) |}.

Definition network_error : Exn :=
  {| response := None; request := true; message := "Network Error" |}.

(** [srv], except that the member requests numbered in [ns] are lost. *)
Definition failing_at (ns : list nat) (srv : Server) : Server :=
  {| parse_group := parse_group srv;
     group_members := fun n groupId offset limit =>
                        if existsb (Nat.eqb n) ns then Rejected network_error
                        else group_members srv n groupId offset limit |}.

(** A server whose member requests are all lost. *)
Definition unreachable : Server :=
  {| parse_group := fun _ _ => Resolved (ParseOk demo_group);
     group_members := fun _ _ _ _ => Rejected network_error |}.

(** A server that always has one more member to give. *)
Definition endless : Server :=
  {| parse_group := fun _ _ => Resolved (ParseOk demo_group);
     group_members := fun n _ _ _ =>
                        Resolved {| success := true; data := [member n];
                                    Api.error := None; total_count := None;
                                    has_more := true |} |}.

(** The scenario of two failed attempts: the third page request of the
    first attempt and the second page request of the second are lost. *)
Definition flaky : Server := failing_at [3; 6]%nat (backend (group_of 120)).

(** A server that hands out ten members at a time and says there are
    more, out of a group of 120. *)
Definition short_pages : Server :=
  {| parse_group := fun _ _ => Resolved (ParseOk demo_group);
     group_members := fun _ _ offset _ =>
                        Resolved {| success := true;
                                    data := Js.slice (group_of 120) offset
                                              (offset + 10);
                                    Api.error := None;
                                    total_count := Some 120;
                                    has_more := true |} |}.

(** A server that cannot resolve the group and says so in the words of
    the platform. *)
Definition entity_not_found : string :=
  "Could not find the input entity for PeerChannel(channel_id=1)".

Definition no_such_group : Server :=
  {| parse_group := fun _ _ => Resolved (ParseFailed (Some entity_not_found));
     group_members := fun _ _ _ _ => Rejected network_error |}.

(* ================================================================== *)
(** ** The credential pool *)
(* ================================================================== *)

(** The pool lives in the back end.  The sources hold only the shape of
    its status report ([TokenStatus] and [PoolStatus] in
    [TokenPoolStatus.tsx]); the pool itself is modelled from the
    specification (sections 3, 4.1, 4.4 and 5). *)

Module Pool.

Inductive Status : Type := Available | Cooldown.

(** [interface TokenStatus] and [interface PoolStatus]; a timestamp is an
    integer. *)
Module View.
Record TokenStatus : Type := {
  id : string;
  status : Status;
  error_count : nat;
  cooldown_until : option Z
}.
Record PoolStatus : Type := {
  total_tokens : nat;
  active_tokens : nat;
  tokens : list TokenStatus
}.
End View.

(** Modelled from the spec: the [Credential] record of the pool (absent
    from the sources), [{id, secret, status, error_count, cooldown_until}],
    with the mark that section 5 calls for: [in_use] says that the
    credential is handed out to a job and not yet released, so that no
    two jobs hold it at the same time. *)
Record Credential : Type := {
  id : string;
  secret : string;
  status : Status;
  error_count : nat;
  cooldown_until : option Z;
  in_use : bool
}.

(** Modelled from the spec: the outcome handed to [release] (absent from
    the sources); a rate limit carries the platform's hint when there is
    one. *)
Inductive ReleaseOutcome : Type :=
| Success
| RateLimited (hint : option Z)
| Error.

(** Modelled from the spec: what the spec leaves to the implementation of
    the pool (absent from the sources): the error threshold, the default
    backoff scaled by [error_count], the backoff computed after repeated
    errors, and the tie-break among the available credentials. *)
Record Policy : Type := {
  threshold : nat;
  default_backoff : nat -> Z;
  error_backoff : nat -> Z;
  tie_break : list Credential -> option Credential
}.

(** Modelled from the spec: the pool at process start (absent from the
    sources), one [Available] credential per configured [(id, secret)],
    none of them handed out. *)
Definition configure (config : list (string * string)) : list Credential :=
  map (fun entry =>
         {| id := fst entry; secret := snd entry; status := Available;
            error_count := 0; cooldown_until := None; in_use := false |})
      config.

Definition is_available (c : Credential) : bool :=
  match status c with Available => true | Cooldown => false end.

(** Modelled from the spec: lazy cooldown expiry (absent from the
    sources): a credential whose [cooldown_until] has passed is treated as
    [Available]. *)
Definition expire (now : Z) (c : Credential) : Credential :=
  match status c, cooldown_until c with
  | Cooldown, Some t =>
      if t <=? now then
        {| id := id c; secret := secret c; status := Available;
           error_count := error_count c; cooldown_until := cooldown_until c;
           in_use := in_use c |}
      else c
  | _, _ => c
  end.

(** A credential that [acquire] may select: [Available] and not handed
    out. *)
Definition selectable (c : Credential) : bool :=
  is_available c && negb (in_use c).

Definition hand_out (c : Credential) : Credential :=
  {| id := id c; secret := secret c; status := status c;
     error_count := error_count c; cooldown_until := cooldown_until c;
     in_use := true |}.

(** Modelled from the spec: [acquire] (absent from the sources): expiry
    first, then one of the [Available] credentials that no job holds,
    which is marked as handed out, or none ([NoCredentialAvailable]). *)
Definition acquire (p : Policy) (now : Z) (pool : list Credential)
  : option Credential * list Credential :=
  let pool' := map (expire now) pool in
  match tie_break p (filter selectable pool') with
  | Some c =>
      (Some c,
       map (fun c' => if (id c' =? id c)%string then hand_out c' else c') pool')
  | None => (None, pool')
  end.

(** Modelled from the spec: [release] on one credential (absent from the
    sources); the credential is no longer handed out. *)
Definition release_one (p : Policy) (now : Z) (outcome : ReleaseOutcome)
    (c : Credential) : Credential :=
  match outcome with
  | Success =>
      {| id := id c; secret := secret c; status := Available;
         error_count := 0; cooldown_until := cooldown_until c;
         in_use := false |}
  | RateLimited hint =>
      let retry_after :=
        match hint with
        | Some r => r
        | None => default_backoff p (error_count c)
        end in
      {| id := id c; secret := secret c; status := Cooldown;
         error_count := S (error_count c);
         cooldown_until := Some (now + retry_after);
         in_use := false |}
  | Error =>
      let n := S (error_count c) in
      if (threshold p <? n)%nat then
        {| id := id c; secret := secret c; status := Cooldown;
           error_count := n;
           cooldown_until := Some (now + error_backoff p n);
           in_use := false |}
      else
        {| id := id c; secret := secret c; status := status c;
           error_count := n; cooldown_until := cooldown_until c;
           in_use := false |}
  end.

(** Modelled from the spec: [release(credential, outcome)] (absent from
    the sources), the credential being named by its id. *)
Definition release (p : Policy) (now : Z) (cid : string)
    (outcome : ReleaseOutcome) (pool : list Credential) : list Credential :=
  map (fun c => if (id c =? cid)%string then release_one p now outcome c else c)
      pool.

Definition view (c : Credential) : View.TokenStatus :=
  {| View.id := id c; View.status := status c;
     View.error_count := error_count c;
     View.cooldown_until := cooldown_until c |}.

(** Modelled from the spec: [snapshot] (absent from the sources), a read
    of every credential with cooldown expiry already applied. *)
Definition snapshot (now : Z) (pool : list Credential) : list View.TokenStatus :=
  map (fun c => view (expire now c)) pool.

Definition view_available (v : View.TokenStatus) : bool :=
  match View.status v with Available => true | Cooldown => false end.

(** Modelled from the spec: [GetPoolStatus] (absent from the sources). *)
Definition GetPoolStatus (now : Z) (pool : list Credential) : View.PoolStatus :=
  {| View.total_tokens := List.length pool;
     View.active_tokens := List.length (filter view_available (snapshot now pool));
     View.tokens := snapshot now pool |}.

(** The operations on the pool, each stamped with the time it happens.
    They come from any number of jobs, in the order in which the pool
    serves them. *)
Inductive Op : Type :=
| OpAcquire (now : Z)
| OpRelease (now : Z) (cid : string) (outcome : ReleaseOutcome)
| OpSnapshot (now : Z).

Definition time_of (op : Op) : Z :=
  match op with
  | OpAcquire now | OpRelease now _ _ | OpSnapshot now => now
  end.

Definition exec (p : Policy) (pool : list Credential) (op : Op)
  : list Credential :=
  match op with
  | OpAcquire now => snd (acquire p now pool)
  | OpRelease now cid outcome => release p now cid outcome pool
  | OpSnapshot _ => pool
  end.

Definition run (p : Policy) (ops : list Op) (pool : list Credential)
  : list Credential :=
  fold_left (exec p) ops pool.

(** The credential named [cid] is handed out. *)
Definition handed_out (pool : list Credential) (cid : string) : bool :=
  existsb (fun c => (id c =? cid)%string && in_use c) pool.

(** Modelled from the spec: what the jobs owe the pool (sections 4.3 and
    5, absent from the sources): a job releases a credential that it
    holds, once per acquisition, so every release names a credential that
    is handed out at that time; and time does not run backwards.  Nothing
    is asked of [acquire]: any number of jobs may acquire one after the
    other. *)
Fixpoint follows_protocol (p : Policy) (clock : Z) (pool : list Credential)
    (ops : list Op) : bool :=
  match ops with
  | [] => true
  | op :: ops' =>
      (clock <=? time_of op) &&
      match op with
      | OpRelease _ cid _ => handed_out pool cid
      | OpAcquire _ | OpSnapshot _ => true
      end &&
      follows_protocol p (time_of op) (exec p pool op) ops'
  end.

(** The time of the last operation. *)
Definition end_time (clock : Z) (ops : list Op) : Z :=
  fold_left (fun _ op => time_of op) ops clock.

(** The invariant of section 8 on one observed credential. *)
Definition consistent (now : Z) (v : View.TokenStatus) : Prop :=
  View.status v = Available <->
  (View.cooldown_until v = None \/
   exists t, View.cooldown_until v = Some t /\ t <= now).

(** What the stored record of a credential satisfies at time [clock]:
    an [Available] one has no cooldown ahead, a [Cooldown] one has a
    deadline. *)
Definition settled (clock : Z) (c : Credential) : Prop :=
  (status c = Available ->
   cooldown_until c = None \/
   exists t, cooldown_until c = Some t /\ t <= clock) /\
  (status c = Cooldown -> cooldown_until c <> None).

(** A credential that reads as [Available] at time [clock]. *)
Definition usable (clock : Z) (c : Credential) : Prop :=
  status (expire clock c) = Available.

(** The invariant of the pool: distinct ids, settled records, and every
    credential handed out still reads as [Available]. *)
Definition pool_ok (clock : Z) (pool : list Credential) : Prop :=
  NoDup (map id pool) /\
  forall c, In c pool ->
    settled clock c /\ (in_use c = true -> usable clock c).

(** A policy for the scenarios: the first available credential, a
    threshold of three errors, backoffs of 30 and 60 seconds per error. *)
Definition demo_policy : Policy :=
  {| threshold := 3;
     default_backoff := fun n => 30 * Z.of_nat (S n);
     error_backoff := fun n => 60 * Z.of_nat n;
     tie_break := fun l => hd_error l |}.

(** A pool of two bots and a day in its life.  Two jobs acquire at the
    same time and get one bot each; the first bot is rate limited, the
    second fails once; later the first bot comes back. *)
Definition demo_config : list (string * string) :=
  [("bot1", "secret1"); ("bot2", "secret2")]%string.

Definition demo_ops : list Op :=
  [OpAcquire 0; OpAcquire 0;
   OpRelease 1 "bot1" (RateLimited (Some 30));
   OpRelease 3 "bot2" Error;
   OpSnapshot 10;
   OpAcquire 40; OpRelease 41 "bot1" Success].

(** Two credentials whose cooldown ended at times 5 and 7. *)
Definition cooled (name : string) (t : Z) : Credential :=
  {| id := name; secret := ""; status := Cooldown; error_count := 1;
     cooldown_until := Some t; in_use := false |}.

End Pool.

(* ================================================================== *)
(** ** More readings of a run *)
(* ================================================================== *)

Definition is_post (e : Event) : bool :=
  match e with EvPost _ => true | _ => false end.

(** The notice [attemptFetch] shows before retry number [retryCount]. *)
Definition retry_notice (retryCount : nat) : string :=
  ("Retrying... Attempt " ++ Js.toString retryCount
   ++ " of " ++ Js.toString maxRetries)%string.

(** The text the [catch] block of [attemptFetch] reports from:
    [err.response?.data?.error || err.message || 'Failed to fetch members']. *)
Definition errorMessage (err : Exn) : string :=
  Js.or_str (response_error err)
    (Js.or_str (Some (message err)) "Failed to fetch members").

(** The server rejects every request for the member count of the group
    with an error that names the entity it could not find. *)
Definition refuses_listing (srv : Server) (groupId : string) : Prop :=
  forall n, exists err,
    group_members srv n groupId 0 1 = Rejected err /\
    Js.includes (errorMessage err) "Could not find the input entity" = true.

(** The cells of the search form, which the enumeration job leaves
    alone. *)
Definition same_search (s s' : State) : Prop :=
  groupLink s' = groupLink s /\ loading s' = loading s /\
  groupInfo s' = groupInfo s /\ currentPage s' = currentPage s.

(** A server that knows the group but whose bot is not in it: every
    member request is answered with status 400 and the platform's text. *)
Definition not_a_member : Server :=
  {| parse_group := fun _ _ => Resolved (ParseOk demo_group);
     group_members := fun _ _ _ _ =>
       Rejected {| response := Some (Some entity_not_found);
                   request := true;
                   message := "Request failed with status code 400" |} |}.

(** [short_pages] with its first request lost. *)
Definition slow_start : Server := failing_at [0]%nat short_pages.

(** The world in which [handleSubmit] enters its [try] block. *)
Definition submit_entry (w : World) : World :=
  with_ui (set_currentPage 1)
    (with_ui (set_allMembers [])
       (with_ui (set_error None) (with_ui (set_loading true) w))).

(** The events of a job whose count requests are all rejected, with [n]
    retries left. *)
Definition refused_events (groupId : string) (n : nat) : list Event :=
  EvGet groupId 0 1
  :: List.concat (repeat [EvSleep 2000; EvGet groupId 0 1] n).

(** The search of [demo_group] done and shown, a new link typed in. *)
Definition after_search (group_link : string) : World :=
  with_ui (set_allMembers (group_of 3))
    (with_ui (set_groupInfo (Some demo_group)) (mounted group_link)).

(* ================================================================== *)
(** ** The earlier revision of the component *)
(* ================================================================== *)

(** The first [TelegramParser.tsx] has the same state cells, without the
    progress, and a [fetchAllMembers] that asks for no count, reports no
    progress and does not retry. *)
Module Legacy.

(** The body of [while (hasMore)]. *)
Definition page_iteration (srv : Server) (groupId : string) (v : LoopVars)
  : M LoopVars :=
  response <- axios_get srv groupId (currentOffset v) batchSize ;;
  if success response && (0 <? Js.length (data response)) then
    ret {| allFetchedMembers := allFetchedMembers v ++ data response;
           currentOffset := currentOffset v + batchSize;
           hasMore := has_more response |}
  else
    ret {| allFetchedMembers := allFetchedMembers v;
           currentOffset := currentOffset v;
           hasMore := false |}.

(** [while (hasMore) { ... }]; [fuel] bounds the number of iterations. *)
Fixpoint while_hasMore (fuel : nat) (srv : Server) (groupId : string)
    (v : LoopVars) : M LoopVars :=
  if hasMore v then
    match fuel with
    | O => out_of_fuel
    | S fuel' =>
        v' <- page_iteration srv groupId v ;;
        while_hasMore fuel' srv groupId v'
    end
  else ret v.

(** [fetchAllMembers] *)
Definition fetchAllMembers (fuel : nat) (srv : Server) (groupId : string)
  : M unit :=
  setLoadingMembers true ;;
  try_finally
    (try_catch
       (v <- while_hasMore fuel srv groupId
               {| allFetchedMembers := []; currentOffset := 0;
                  hasMore := true |} ;;
        setAllMembers (allFetchedMembers v))
       (fun err =>
          setError (Some (Js.or_str (response_error err)
                            "Failed to fetch members"))))
    (with_ui (set_loadingMembers false)).

(** The reply to the [k]-th request of a loop whose first request is
    request number [n]. *)
Definition page_reply (srv : Server) (groupId : string) (n k : nat)
  : Reply MembersResponse :=
  group_members srv (n + k) groupId (Z.of_nat k * batchSize) batchSize.

(** What the loop keeps of a reply, and whether it goes on after it. *)
Definition accepted (r : Reply MembersResponse) : list MemberInfo :=
  match r with
  | Resolved response => if success response then data response else []
  | Rejected _ => []
  end.

Definition continues (r : Reply MembersResponse) : bool :=
  match r with
  | Resolved response =>
      success response && (0 <? Js.length (data response))
      && has_more response
  | Rejected _ => false
  end.

(** What is kept of the first [k] replies, one after the other. *)
Definition collected (srv : Server) (groupId : string) (n k : nat)
  : list MemberInfo :=
  List.concat (map (fun i => accepted (page_reply srv groupId n i)) (seq 0 k)).

(** A server that flags its third answer as failed, after two pages of
    two members. *)
Definition gives_up : Server :=
  {| parse_group := fun _ _ => Resolved (ParseOk demo_group);
     group_members := fun n _ offset _ =>
       Resolved {| success := (n <? 2)%nat;
                   data := Js.slice (group_of 120) offset (offset + 2);
                   Api.error := Some "FloodWaitError"%string;
                   total_count := Some 120;
                   has_more := true |} |}.

End Legacy.

(* ================================================================== *)
(** ** Export: the file name and the CSV *)
(* ================================================================== *)

(** [sanitizeFilename] looks at single characters, so the name is taken
    as JavaScript has it: a sequence of UTF-16 code units. *)
Module Utf16.

Definition str : Type := list N.

(** An ASCII literal. *)
Definition lit (s : string) : str := map N_of_ascii (list_ascii_of_string s).

(** [\w] (no [u] or [i] flag): [[A-Za-z0-9_]]. *)
Definition is_word (c : N) : bool :=
  ((48 <=? c) && (c <=? 57) || (65 <=? c) && (c <=? 90) || (c =? 95)
   || (97 <=? c) && (c <=? 122))%N.

(** [\s], which is also what [trim] strips: the white space and line
    terminator characters of the language. *)
Definition is_space (c : N) : bool :=
  ((9 <=? c) && (c <=? 13) || (c =? 32) || (c =? 0xa0) || (c =? 0x1680)
   || (0x2000 <=? c) && (c <=? 0x200a) || (c =? 0x2028) || (c =? 0x2029)
   || (c =? 0x202f) || (c =? 0x205f) || (c =? 0x3000) || (c =? 0xfeff))%N.

Definition hyphen : N := 45.

(** [s.replace(/[class]/g, '')] for a class of single code units. *)
Definition remove (class : N -> bool) (s : str) : str :=
  filter (fun c => negb (class c)) s.

(** [s.replace(/[class]+/g, by)]: every maximal run of the class is
    replaced once.  [in_run] says that the code unit before was in the
    class. *)
Fixpoint replace_runs (class : N -> bool) (by_ : str) (in_run : bool)
    (s : str) : str :=
  match s with
  | [] => []
  | c :: s' =>
      if class c then
        if in_run then replace_runs class by_ true s'
        else by_ ++ replace_runs class by_ true s'
      else c :: replace_runs class by_ false s'
  end.

(** [s.trim()] *)
Fixpoint trim_start (s : str) : str :=
  match s with
  | c :: s' => if is_space c then trim_start s' else s
  | [] => []
  end.

Definition trim (s : str) : str := rev (trim_start (rev (trim_start s))).

(** [s || fallback] *)
Definition or_else (s fallback : str) : str :=
  match s with
  | [] => fallback
  | _ => s
  end.

End Utf16.

(** The classes [[^\w\s-]] and [[-\s]] of the two replacements. *)
Definition unwanted (c : N) : bool :=
  negb (Utf16.is_word c || Utf16.is_space c || (c =? Utf16.hyphen)%N).

Definition separator (c : N) : bool :=
  (c =? Utf16.hyphen)%N || Utf16.is_space c.

(** [sanitizeFilename] *)
Definition sanitizeFilename (filename : Utf16.str) : Utf16.str :=
  Utf16.or_else
    (Utf16.trim
       (Utf16.replace_runs separator (Utf16.lit "_") false
          (Utf16.remove unwanted filename)))
    (Utf16.lit "group").

(** The letters and digits. *)
Definition is_alnum (c : N) : bool :=
  Utf16.is_word c && negb (c =? 95)%N.

(** The CSV is put together from the fields of the members.  Commas and
    line feeds are ASCII, so the strings are taken as they are. *)
Module Csv.

(** [String(n)] for an integer read from JSON: the decimal notation of
    the double nearest to it, as long as that is below [10^21]. *)
Definition integer_of (x : spec_float) : Z :=
  match x with
  | S754_finite s m e =>
      cond_Zopp s (if 0 <=? e then Zpos m * 2 ^ e else Zpos m / 2 ^ (- e))
  | _ => 0
  end.

Definition number_toString (n : Z) : string :=
  NilZero.string_of_int (Z.to_int (integer_of (Js.num n))).

(** [s.replace(/,/g, ' ')] *)
Fixpoint replace_commas (s : string) : string :=
  match s with
  | EmptyString => EmptyString
  | String c s' =>
      String (if Ascii.eqb c "," then " "%char else c) (replace_commas s')
  end.

(** [b ? 'Yes' : 'No'], where [undefined] is falsy. *)
Definition yes_no (b : option bool) : string :=
  match b with
  | Some true => "Yes"
  | _ => "No"
  end.

Definition headers : list string :=
  ["User ID"; "Username"; "First Name"; "Last Name"; "Is Premium";
   "Is Admin"; "Admin Title"; "Can Message"]%string.

(** The array that is joined into the row of a member. *)
Definition fields (member : MemberInfo) : list string :=
  [number_toString (user_id member);
   Js.or_str (username member) "";
   replace_commas (Js.or_str (first_name member) "");
   replace_commas (Js.or_str (last_name member) "");
   yes_no (is_premium member);
   yes_no (Some (is_admin member));
   replace_commas (Js.or_str (admin_title member) "");
   yes_no (Some (can_message member))].

(** The line feed ['\n']. *)
Definition lf : ascii := "010"%char.
Definition LF : string := String lf EmptyString.

(** [csvContent] of [downloadCSV] *)
Definition csvContent (members : list MemberInfo) : string :=
  String.concat LF
    (String.concat "," headers
     :: map (fun member => String.concat "," (fields member)) members).

(** [s.split(sep)] for a separator of one character, to read the CSV
    back. *)
Fixpoint split (sep : ascii) (s : string) : list string :=
  match s with
  | EmptyString => [EmptyString]
  | String c s' =>
      if Ascii.eqb c sep then EmptyString :: split sep s'
      else match split sep s' with
           | field :: rest => String c field :: rest
           | [] => [String c EmptyString]
           end
  end.

(** The string holds no [c]. *)
Fixpoint free_of (c : ascii) (s : string) : bool :=
  match s with
  | EmptyString => true
  | String c' s' => negb (Ascii.eqb c' c) && free_of c s'
  end.

(** The four text columns of a member. *)
Definition texts (member : MemberInfo) : list string :=
  [Js.or_str (username member) ""; Js.or_str (first_name member) "";
   Js.or_str (last_name member) ""; Js.or_str (admin_title member) ""].

(** The member can be read back from the CSV: no comma in the one column
    that is written as it is, no line feed in any text column. *)
Definition plain (member : MemberInfo) : bool :=
  free_of "," (Js.or_str (username member) "")
  && forallb (free_of lf) (texts member).

(** A member whose name holds a comma. *)
Definition smith : MemberInfo :=
  {| user_id := 5000000001; username := Some "jsmith"%string;
     first_name := Some "Smith, John"%string; last_name := None;
     is_premium := None; can_message := true; is_admin := true;
     admin_title := Some "owner"%string |}.

End Csv.

(* ================================================================== *)
(** ** The status page of the token pool *)
(* ================================================================== *)

(** [TokenPoolStatus.tsx]: the page keeps the last report it was given. *)
Module TokenPoolStatus.

Record TokenStatus : Type := {
  id : string;
  status : string;                 (* 'available' | 'cooldown' *)
  error_count : Z;
  cooldown_until : option string
}.

Record PoolStatus : Type := {
  total_tokens : Z;
  active_tokens : Z;
  tokens : list TokenStatus
}.

(** The [useState] cells. *)
Record State : Type := {
  pool : option PoolStatus;        (* [status] *)
  loading : bool;
  error : option string
}.

Definition initial : State :=
  {| pool := None; loading := false; error := None |}.

(** [fetchStatus] up to its [await]: the request is on its way. *)
Definition fetchStatus_sent (s : State) : State :=
  {| pool := pool s; loading := true; error := None |}.

(** [fetchStatus] from the reply on: [try], [catch] and [finally]. *)
Definition fetchStatus_settled (reply : Reply PoolStatus) (s : State) : State :=
  match reply with
  | Resolved body =>
      {| pool := Some body; loading := false; error := error s |}
  | Rejected err =>
      {| pool := pool s; loading := false;
         error := Some (Js.or_str (response_error err)
                          "Failed to fetch token pool status") |}
  end.

Definition fetchStatus (reply : Reply PoolStatus) (s : State) : State :=
  fetchStatus_settled reply (fetchStatus_sent s).

(** What the page shows: [{error && ...}], [{loading && !status && ...}]
    and [{status && ...}]. *)
Definition shows_error (s : State) : option string :=
  match error s with
  | Some msg => if (msg =? "")%string then None else Some msg
  | None => None
  end.

Definition shows_loader (s : State) : bool :=
  loading s && match pool s with Some _ => false | None => true end.

Definition shows_report (s : State) : option PoolStatus := pool s.

(** The colour of the badge of the active tokens. *)
Definition badge_color (report : PoolStatus) : string :=
  if active_tokens report =? total_tokens report then "green" else "yellow".

(** The page after a series of refreshes, each one settled before the
    next is sent. *)
Definition refreshes (replies : list (Reply PoolStatus)) (s : State) : State :=
  fold_left (fun s reply => fetchStatus reply s) replies s.

(** The body of the last reply that was resolved, if any. *)
Definition last_report (replies : list (Reply PoolStatus))
    (before : option PoolStatus) : option PoolStatus :=
  fold_left (fun report reply =>
               match reply with
               | Resolved body => Some body
               | Rejected _ => report
               end) replies before.

Definition one_token : PoolStatus :=
  {| total_tokens := 1; active_tokens := 1;
     tokens := [{| id := "bot1"; status := "available"; error_count := 0;
                   cooldown_until := None |}] |}.

End TokenPoolStatus.

(* ================================================================== *)
(** ** The theme of the application *)
(* ================================================================== *)

(** [App.tsx]: the theme and the item ['theme'] of [localStorage]. *)
Module App.

Record State : Type := {
  isDark : bool;
  theme : option string            (* localStorage.getItem('theme') *)
}.

(** A string read from [localStorage] used as a condition. *)
Definition truthy (item : option string) : bool :=
  match item with
  | Some s => negb (s =? "")%string
  | None => false
  end.

(** The initializer of [useState]:
    [savedTheme ? savedTheme === 'dark' : false]. *)
Definition initial_isDark (savedTheme : option string) : bool :=
  match savedTheme with
  | Some s => if negb (s =? "")%string then (s =? "dark")%string else false
  | None => false
  end.

(** The first render and the effect that follows it; [matches] is what
    the media query [(prefers-color-scheme: dark)] says at that time. *)
Definition mount (savedTheme : option string) (matches : bool) : State :=
  {| isDark := if negb (truthy savedTheme) then matches
               else initial_isDark savedTheme;
     theme := savedTheme |}.

(** [toggleTheme] *)
Definition toggleTheme (s : State) : State :=
  let newTheme := negb (isDark s) in
  {| isDark := newTheme;
     theme := Some (if newTheme then "dark" else "light")%string |}.

(** [handleChange], the listener of the media query. *)
Definition handleChange (matches : bool) (s : State) : State :=
  if negb (truthy (theme s)) then {| isDark := matches; theme := theme s |}
  else s.

Inductive Event : Type :=
| Toggle
| SystemChange (matches : bool).

Definition handle (s : State) (e : Event) : State :=
  match e with
  | Toggle => toggleTheme s
  | SystemChange matches => handleChange matches s
  end.

Definition run (events : list Event) (s : State) : State :=
  fold_left handle events s.

Definition is_toggle (e : Event) : bool :=
  match e with Toggle => true | SystemChange _ => false end.

(** What the system said last, [before] if it said nothing. *)
Definition last_preference (events : list Event) (before : bool) : bool :=
  fold_left (fun preference e =>
               match e with
               | SystemChange matches => matches
               | Toggle => preference
               end) events before.

End App.

(* ================================================================== *)
(** ** Signing in *)
(* ================================================================== *)

(** The session of [TelegramParser.tsx]: the item ['token'] of
    [localStorage], the signed-in user and the sign-in dialog. *)
Module Auth.

Record UserInfo : Type := {
  id : Z;
  email : string;
  user_name : string;              (* [username] *)
  is_active : bool;
  is_superuser : bool;
  is_verified : bool
}.

Record State : Type := {
  token : option string;           (* localStorage.getItem('token') *)
  currentUser : option UserInfo;
  error : option string;
  loginModalOpened : bool;
  username : string;
  password : string
}.

(** The two end points: [POST /token] answers a name and a password with
    an [access_token], [GET /users/me] answers a bearer token with the
    user.  A rejection of [POST /token] carries
    [err.response?.data?.detail]. *)
Record Server : Type := {
  post_token : string -> string -> Reply string;
  users_me : string -> Reply UserInfo
}.

(** [fetchUserInfo] *)
Definition fetchUserInfo (srv : Server) (bearer : string) (s : State) : State :=
  match users_me srv bearer with
  | Resolved data =>
      {| token := token s; currentUser := Some data; error := None;
         loginModalOpened := loginModalOpened s;
         username := username s; password := password s |}
  | Rejected _ =>
      {| token := None; currentUser := None; error := error s;
         loginModalOpened := loginModalOpened s;
         username := username s; password := password s |}
  end.

(** The effect run when the component is mounted. *)
Definition on_mount (srv : Server) (s : State) : State :=
  match token s with
  | Some t => if negb (t =? "")%string then fetchUserInfo srv t s else s
  | None => s
  end.

(** [handleLogout] *)
Definition handleLogout (s : State) : State :=
  {| token := None; currentUser := None; error := error s;
     loginModalOpened := loginModalOpened s;
     username := username s; password := password s |}.

(** [handleLogin] *)
Definition handleLogin (srv : Server) (s : State) : State :=
  match post_token srv (username s) (password s) with
  | Resolved access_token =>
      let s1 := {| token := Some access_token; currentUser := currentUser s;
                   error := error s;
                   loginModalOpened := loginModalOpened s;
                   username := username s; password := password s |} in
      let s2 := fetchUserInfo srv access_token s1 in
      {| token := token s2; currentUser := currentUser s2; error := None;
         loginModalOpened := false; username := ""; password := "" |}
  | Rejected err =>
      {| token := token s; currentUser := currentUser s;
         error := Some (Js.or_str (response_error err) "Login failed");
         loginModalOpened := loginModalOpened s;
         username := username s; password := password s |}
  end.

(** What the user and the page can do to the session, with the server
    as it is at that time.  Each event is handled to its end before the
    next one comes. *)
Inductive Event : Type :=
| Mount (srv : Server)
| Login (srv : Server) (name pass : string)
| Logout.

Definition handle (s : State) (e : Event) : State :=
  match e with
  | Mount srv => on_mount srv s
  | Login srv name pass =>
      handleLogin srv
        {| token := token s; currentUser := currentUser s; error := error s;
           loginModalOpened := true; username := name; password := pass |}
  | Logout => handleLogout s
  end.

Definition run (events : list Event) (s : State) : State :=
  fold_left handle events s.

(** The servers that were asked. *)
Definition servers (events : list Event) : list Server :=
  flat_map (fun e => match e with
                     | Mount srv | Login srv _ _ => [srv]
                     | Logout => []
                     end) events.

(** The user shown, if any, is the one that one of the servers [asked]
    gives for the token stored. *)
Definition vouched (asked : list Server) (s : State) : Prop :=
  match currentUser s with
  | None => True
  | Some user =>
      exists bearer srv,
        token s = Some bearer /\ In srv asked /\
        users_me srv bearer = Resolved user
  end.

(** The component before its first render, in a browser that holds
    [item] as its token. *)
Definition opened (item : option string) : State :=
  {| token := item; currentUser := None; error := None;
     loginModalOpened := false; username := ""; password := "" |}.

Definition alice : UserInfo :=
  {| id := 1; email := "alice@example.org"; user_name := "alice";
     is_active := true; is_superuser := false; is_verified := true |}.

(** A server that hands out a token and then does not know it. *)
Definition forgetful : Server :=
  {| post_token := fun _ _ => Resolved "t0k3n"%string;
     users_me := fun _ =>
       Rejected {| response := Some (Some "Could not validate credentials"%string);
                   request := true;
                   message := "Request failed with status code 401" |} |}.

(** A server that knows [alice]. *)
Definition honest : Server :=
  {| post_token := fun name pass =>
       if (name =? "alice")%string && (pass =? "secret")%string
       then Resolved "t0k3n"%string
       else Rejected {| response := Some (Some "Incorrect username or password"%string);
                        request := true;
                        message := "Request failed with status code 401" |};
     users_me := fun bearer =>
       if (bearer =? "t0k3n")%string then Resolved alice
       else Rejected {| response := Some (Some "Could not validate credentials"%string);
                        request := true;
                        message := "Request failed with status code 401" |} |}.

End Auth.

(* ================================================================== *)
(** * Properties *)
(* ================================================================== *)

(* ------------------------------------------------------------------ *)
(** ** Doubles that are not negative *)
(* ------------------------------------------------------------------ *)

(** Shifting a mantissa that is not negative to the right keeps it so. *)
Lemma shr_1_nonneg mrs : 0 <= shr_m mrs -> 0 <= shr_m (shr_1 mrs).
Proof.
  destruct mrs as [m r s]; simpl. destruct m as [|p|p]; simpl; try lia.
  destruct p; simpl; lia.
Qed.

Lemma iter_pos_shr_1_nonneg n : forall mrs,
  0 <= shr_m mrs -> 0 <= shr_m (iter_pos shr_1 n mrs).
Proof.
  induction n as [n IH|n IH|]; intros mrs H; simpl.
  - apply IH, IH, shr_1_nonneg, H.
  - apply IH, IH, H.
  - apply shr_1_nonneg, H.
Qed.

Lemma shr_fexp_nonneg m e l :
  0 <= m -> 0 <= shr_m (fst (shr_fexp Js.prec Js.emax m e l)).
Proof.
  intros H. unfold shr_fexp, shr.
  assert (H0 : 0 <= shr_m (shr_record_of_loc m l)).
  { destruct l as [|[ | | ]]; simpl; exact H. }
  destruct (fexp Js.prec Js.emax (Zdigits2 m + e) - e); simpl; auto.
  apply iter_pos_shr_1_nonneg, H0.
Qed.

(** So does rounding to nearest even. *)
Lemma round_nearest_even_nonneg m l : 0 <= m -> 0 <= round_nearest_even m l.
Proof.
  intros H. destruct l as [|[ | | ]]; simpl; try lia.
  destruct (Z.even m); lia.
Qed.

(** Rounding a magnitude that is not negative under a positive sign gives
    zero, a positive double or +infinity, never [NaN]. *)
Lemma binary_round_aux_nonneg mx ex lx :
  0 <= mx -> nonneg_float (binary_round_aux Js.prec Js.emax false mx ex lx).
Proof.
  intros H. unfold binary_round_aux.
  pose proof (shr_fexp_nonneg mx ex lx H) as H1.
  destruct (shr_fexp Js.prec Js.emax mx ex lx) as [mrs' e']. simpl in H1.
  pose proof (shr_fexp_nonneg _ e' loc_Exact
                (round_nearest_even_nonneg _ (loc_of_shr_record mrs') H1)) as H2.
  destruct (shr_fexp Js.prec Js.emax _ e' loc_Exact) as [mrs'' e'']. simpl in H2.
  destruct (shr_m mrs'') as [|m|m]; [exact I | | lia].
  destruct (_ <=? _); exact I.
Qed.

(** The double of an integer that is not negative. *)
Lemma num_nonneg z : 0 <= z -> nonneg_float (Js.num z).
Proof.
  intros H. unfold Js.num, binary_normalize. destruct z as [|p|p]; simpl; auto; try lia.
  unfold binary_round.
  destruct (shl_align p 0 _) as [mz ez]. apply binary_round_aux_nonneg. lia.
Qed.


(** The quotient of two positive mantissas is not negative. *)
Lemma SFdiv_core_binary_nonneg m1 e1 m2 e2 :
  0 <= fst (fst (SFdiv_core_binary Js.prec Js.emax (Zpos m1) e1 (Zpos m2) e2)).
Proof.
  unfold SFdiv_core_binary.
  set (s := e1 - e2 - _).
  set (m' := match s with Z0 => Zpos m1 | Zpos _ => Z.shiftl (Zpos m1) s | Zneg _ => 0 end).
  assert (Hm : 0 <= m').
  { subst m'. destruct s; try lia. apply Z.shiftl_nonneg. lia. }
  pose proof (Z.div_pos m' (Zpos m2) Hm ltac:(lia)) as Hq.
  unfold Z.div in Hq.
  destruct (Z.div_eucl m' (Zpos m2)) as [q r]. exact Hq.
Qed.

(** [x / y] for a positive finite [x]: dividing by [+0] gives +infinity,
    by +infinity gives [+0]. *)
Lemma div_nonneg m e y :
  nonneg_float y -> nonneg_float (Js.div (S754_finite false m e) y).
Proof.
  intros Hy. destruct y as [s|s| |s my ey]; try destruct s; simpl in Hy; try contradiction;
    try exact I.
  unfold Js.div, SFdiv. cbn [xorb].
  pose proof (SFdiv_core_binary_nonneg m e my ey) as H.
  destruct (SFdiv_core_binary _ _ _ _ _ _) as [[mz ez] lz]. simpl in H.
  apply binary_round_aux_nonneg, H.
Qed.

(** [x * c] for a positive finite constant [c]. *)
Lemma mul_nonneg x m e :
  nonneg_float x -> nonneg_float (Js.mul x (S754_finite false m e)).
Proof.
  intros Hx. destruct x as [s|s| |s mx ex]; try destruct s; simpl in Hx; try contradiction;
    try exact I.
  unfold Js.mul, SFmul. cbn [xorb]. apply binary_round_aux_nonneg. lia.
Qed.

(** [Math.round] of such a double is +infinity or an integer that is not
    negative. *)
Lemma Math_round_nonneg x :
  nonneg_float x ->
  Js.Math_round x = Js.JInfinity false \/
  exists n, Js.Math_round x = Js.JInt n /\ 0 <= n.
Proof.
  intros Hx. destruct x as [s|s| |s m e]; try destruct s; simpl in Hx; try contradiction; auto.
  - right. exists 0. split; [reflexivity | lia].
  - right. unfold Js.Math_round. cbn [cond_Zopp]. destruct (0 <=? e) eqn:He.
    + eexists. split; [reflexivity|]. apply Z.leb_le in He.
      apply Z.mul_nonneg_nonneg; [lia | apply Z.pow_nonneg; lia].
    + eexists. split; [reflexivity|]. apply Z.leb_gt in He.
      apply Z.div_pos.
      * assert (0 <= 2 ^ (- e)) by (apply Z.pow_nonneg; lia). lia.
      * apply Z.pow_pos_nonneg; lia.
Qed.

(** and [Math.min(_, 100)] brings it between 0 and 100. *)
Lemma Math_min_100 r :
  (r = Js.JInfinity false \/ exists n, r = Js.JInt n /\ 0 <= n) ->
  exists n, Js.Math_min r (Js.JInt 100) = Js.JInt n /\ 0 <= n <= 100.
Proof.
  intros [-> | [n [-> Hn]]]; simpl.
  - exists 100. split; [reflexivity | lia].
  - exists (Z.min n 100). split; [reflexivity | lia].
Qed.

(** The number of binary digits, after shifting left and as a bound. *)
Lemma digits2_pos_iter_xO k : forall p,
  digits2_pos (Pos.iter xO p k) = (digits2_pos p + k)%positive.
Proof.
  induction k using Pos.peano_ind; intros p.
  - simpl. lia.
  - rewrite Pos.iter_succ. simpl. rewrite IHk. lia.
Qed.

Lemma digits2_pos_bound p : 2 ^ (Zpos (digits2_pos p) - 1) <= Zpos p.
Proof.
  induction p as [p IH|p IH|]; simpl digits2_pos.
  - rewrite Pos2Z.inj_succ. replace (Z.succ (Zpos (digits2_pos p)) - 1) with (Z.succ (Zpos (digits2_pos p) - 1)) by lia.
    rewrite Z.pow_succ_r by lia. lia.
  - rewrite Pos2Z.inj_succ. replace (Z.succ (Zpos (digits2_pos p)) - 1) with (Z.succ (Zpos (digits2_pos p) - 1)) by lia.
    rewrite Z.pow_succ_r by lia. lia.
  - simpl. lia.
Qed.


(** A mantissa of 53 digits with an exponent in range is already in
    canonical form: rounding leaves it alone. *)
Lemma fexp_canonical mz ez :
  Zpos (digits2_pos mz) = 53 -> -1074 <= ez ->
  fexp Js.prec Js.emax (Zdigits2 (Zpos mz) + ez) - ez = 0.
Proof.
  intros Hd He. unfold fexp, emin, Js.prec, Js.emax. simpl Zdigits2. lia.
Qed.

Lemma binary_round_aux_canonical mz ez :
  Zpos (digits2_pos mz) = 53 -> -1074 <= ez <= 971 ->
  binary_round_aux Js.prec Js.emax false (Zpos mz) ez loc_Exact
  = S754_finite false mz ez.
Proof.
  intros Hd He. unfold binary_round_aux, shr_fexp.
  rewrite (fexp_canonical mz ez Hd) by lia. cbn [shr shr_record_of_loc shr_m loc_of_shr_record round_nearest_even].
  rewrite (fexp_canonical mz ez Hd) by lia. cbn [shr shr_record_of_loc shr_m].
  replace (ez <=? Js.emax - Js.prec) with true; [reflexivity|].
  symmetry. apply Z.leb_le. unfold Js.emax, Js.prec. lia.
Qed.

(** The double of a positive integer below [2^53] is that integer: finite
    and positive. *)
Lemma num_finite p :
  Zpos p < 2 ^ 53 -> exists m e, Js.num (Zpos p) = S754_finite false m e.
Proof.
  intros Hp.
  assert (Hd : Zpos (digits2_pos p) <= 53).
  { pose proof (digits2_pos_bound p) as Hb.
    destruct (Z_le_gt_dec (Zpos (digits2_pos p)) 53) as [|Hgt]; [assumption|].
    exfalso. assert (2 ^ 53 <= 2 ^ (Zpos (digits2_pos p) - 1)) by (apply Z.pow_le_mono_r; lia).
    lia. }
  unfold Js.num, binary_normalize, binary_round, shl_align.
  assert (Hf : fexp Js.prec Js.emax (Zpos (digits2_pos p) + 0) - 0 = Zpos (digits2_pos p) - 53).
  { unfold fexp, emin, Js.prec, Js.emax. lia. }
  replace (fexp Js.prec Js.emax (Zpos (digits2_pos p) + 0)) with (Zpos (digits2_pos p) - 53) in * by lia.
  destruct (Zpos (digits2_pos p) - 53 - 0) as [|k|k] eqn:Hk.
  - exists p, 0. apply binary_round_aux_canonical; lia.
  - lia.
  - exists (Pos.iter xO p k), (Zpos (digits2_pos p) - 53).
    apply binary_round_aux_canonical; [|lia].
    rewrite digits2_pos_iter_xO. lia.
Qed.

Lemma num_100 : Js.num 100 = S754_finite false 7036874417766400 (-46).
Proof. reflexivity. Qed.

(** The progress computed for a non-empty collection and a total that is
    not negative. *)
Lemma progress_of_percentage (len : Z) (total : spec_float) :
  0 < len < 2 ^ 53 -> nonneg_float total -> percentage (progress_of len total).
Proof.
  intros Hlen Htotal. unfold progress_of, percentage.
  apply Math_min_100, Math_round_nonneg.
  destruct len as [|p|p]; try lia.
  destruct (num_finite p) as [m [e ->]]; [lia|].
  rewrite num_100. apply mul_nonneg, div_nonneg, Htotal.
Qed.

(** [total_count || 0] is not negative when the count is not. *)
Lemma totalMembers_of_nonneg (r : MembersResponse) :
  match total_count r with Some n => 0 <= n | None => True end ->
  nonneg_float (totalMembers_of r).
Proof.
  unfold totalMembers_of. destruct (total_count r) as [n|]; [|intros _; exact I].
  intros Hn. pose proof (num_nonneg n Hn) as H.
  destruct (Js.num n) as [s|s| |s mn en]; try destruct s; simpl in *; auto.
Qed.

(* ------------------------------------------------------------------ *)
(** ** One iteration, and the loop *)
(* ------------------------------------------------------------------ *)

(** [a.length > 0] holds exactly for a non-empty array, and the length
    read is a positive integer that a double holds exactly. *)
Lemma length_pos_iff {A} (a : list A) : (0 <? Js.length a) = true <-> a <> [].
Proof.
  unfold Js.length, Js.max_array_length. rewrite Z.ltb_lt.
  destruct a; simpl List.length; split; intros H; try lia; try congruence.
Qed.

Lemma length_range {A} (a : list A) : a <> [] -> 0 < Js.length a < 2 ^ 53.
Proof.
  intros H. apply length_pos_iff, Z.ltb_lt in H.
  unfold Js.length, Js.max_array_length in *. lia.
Qed.

(** Unfolds one iteration of the loop down to the reply of the server. *)
Ltac run_page :=
  unfold page_iteration, bind, axios_get, await, throw, ret, setFetchProgress.

(** An iteration that returns: the request at the current offset was
    answered with [success = true]; a non-empty page is appended, the
    offset advanced and [has_more] copied; an empty page ends the loop
    with the progress at 100. *)
Lemma page_iteration_ret srv gid total v w v' w' :
  page_iteration srv gid total v w = (Ret v', w') ->
  exists response,
    group_members srv (sent w) gid (currentOffset v) batchSize
      = Resolved response /\
    success response = true /\
    let w1 := issue (EvGet gid (currentOffset v) batchSize) w in
    (data response <> [] /\
     (let members := allFetchedMembers v ++ data response in
      let progress := progress_of (Js.length members) total in
      v' = {| allFetchedMembers := members;
              currentOffset := currentOffset v + batchSize;
              hasMore := has_more response |} /\
      w' = emit (EvProgress progress) (with_ui (set_fetchProgress progress) w1)))
    \/
    (data response = [] /\
     v' = {| allFetchedMembers := allFetchedMembers v;
             currentOffset := currentOffset v;
             hasMore := false |} /\
     w' = emit (EvProgress (Js.JInt 100))
            (with_ui (set_fetchProgress (Js.JInt 100)) w1)).
Proof.
  run_page.
  destruct (group_members srv (sent w) gid (currentOffset v) batchSize)
    as [response|err] eqn:Hreply; [|discriminate].
  destruct (success response) eqn:Hs; simpl; [|discriminate].
  intros H. exists response. split; [reflexivity|]. split; [exact Hs|].
  destruct (0 <? Js.length (data response)) eqn:Hne.
  - left. apply length_pos_iff in Hne. split; [exact Hne|].
    inversion H. auto.
  - right. split.
    + destruct (data response) as [|m ms]; [reflexivity|].
      assert ((0 <? Js.length (m :: ms)) = true) by (apply length_pos_iff; discriminate).
      congruence.
    + inversion H. auto.
Qed.

(** An iteration that throws has only issued its request. *)
Lemma page_iteration_throw srv gid total v w err w' :
  page_iteration srv gid total v w = (Throw err, w') ->
  w' = issue (EvGet gid (currentOffset v) batchSize) w.
Proof.
  run_page.
  destruct (group_members srv _ _ _ _) as [response|e]; simpl.
  - destruct (success response); simpl; [|intros H; inversion H; reflexivity].
    destruct (0 <? _); simpl; discriminate.
  - intros H; inversion H; reflexivity.
Qed.

(** An iteration needs no fuel. *)
Lemma page_iteration_runs srv gid total v w w' :
  page_iteration srv gid total v w <> (OutOfFuel, w').
Proof.
  run_page.
  destruct (group_members srv _ _ _ _) as [response|e]; simpl; [|discriminate].
  destruct (success response); simpl; [|discriminate].
  destruct (0 <? _); simpl; discriminate.
Qed.

(** The loop, one iteration unfolded. *)
Lemma while_hasMore_step fuel srv gid total v w :
  hasMore v = true ->
  while_hasMore (S fuel) srv gid total v w =
  match page_iteration srv gid total v w with
  | (Ret v', w') => while_hasMore fuel srv gid total v' w'
  | (Throw err, w') => (Throw err, w')
  | (OutOfFuel, w') => (OutOfFuel, w')
  end.
Proof. intros H. simpl. rewrite H. reflexivity. Qed.

(** The loop, when [hasMore] is off. *)
Lemma while_hasMore_done fuel srv gid total v w :
  hasMore v = false -> while_hasMore fuel srv gid total v w = (Ret v, w).
Proof. intros H. destruct fuel; simpl; rewrite H; reflexivity. Qed.

(** A loop that returns has gone through states of [paging] and ends with
    [hasMore] off. *)
Lemma while_hasMore_paging srv gid total w0 : forall fuel v w v' w',
  paging srv gid total w0 v w ->
  while_hasMore fuel srv gid total v w = (Ret v', w') ->
  paging srv gid total w0 v' w' /\ hasMore v' = false.
Proof.
  induction fuel as [|fuel IH]; intros v w v' w' Hp Hrun.
  - simpl in Hrun. destruct (hasMore v) eqn:Hm; [discriminate|].
    inversion Hrun; subst. auto.
  - destruct (hasMore v) eqn:Hm.
    + rewrite while_hasMore_step in Hrun by exact Hm.
      destruct (page_iteration srv gid total v w) as [[v1|err|] w1] eqn:Hit;
        try discriminate.
      apply IH with (v := v1) (w := w1); [|exact Hrun].
      eapply paging_next; eauto.
    + rewrite while_hasMore_done in Hrun by exact Hm.
      inversion Hrun; subst. auto.
Qed.

(** Page offsets and pages, one more at a time. *)
Lemma page_offsets_app tr1 tr2 :
  page_offsets (tr1 ++ tr2) = page_offsets tr1 ++ page_offsets tr2.
Proof.
  induction tr1 as [|e tr1 IH]; [reflexivity|].
  destruct e as [l|g o lim|ms|p]; simpl; try exact IH.
  destruct lim as [|lim|lim]; try exact IH.
  do 6 (destruct lim as [lim|lim|]; try exact IH).
  simpl. rewrite IH. reflexivity.
Qed.

Lemma pages_succ srv gid n k :
  pages srv gid n (S k) = pages srv gid n k ++ page srv gid n k.
Proof.
  unfold pages. rewrite seq_S, map_app, concat_app. simpl.
  rewrite app_nil_r. reflexivity.
Qed.

(** The invariant of the loop: after [k] page requests the collected
    members are the first [k] pages, the requests were made at offsets
    [0 .. (k-1) * batchSize], the next one is at [k * batchSize], and when
    [hasMore] is off the last reply is one that ends the loop. *)
Lemma paging_invariant srv gid total w0 v w :
  paging srv gid total w0 v w ->
  exists k,
    sent w = (sent w0 + k)%nat /\
    allFetchedMembers v = pages srv gid (sent w0) k /\
    page_offsets (trace w) = page_offsets (trace w0) ++ offsets_upto k /\
    (hasMore v = true -> currentOffset v = Z.of_nat k * batchSize) /\
    (hasMore v = false ->
     exists j, k = S j /\
       stops (group_members srv (sent w0 + j) gid
                (Z.of_nat j * batchSize) batchSize) = true).
Proof.
  induction 1 as [|v w v' w' Hp [k [Hs [Hc [Ho [Hoff _]]]]] Hm Hit].
  - exists 0%nat. simpl. rewrite app_nil_r. repeat split; auto. discriminate.
  - apply page_iteration_ret in Hit.
    destruct Hit as [response [Hreply [Hsucc Hcases]]].
    specialize (Hoff Hm). rewrite Hoff, Hs in Hreply.
    assert (Hpage : page srv gid (sent w0) k = data response).
    { unfold page. rewrite Hreply. reflexivity. }
    exists (S k). rewrite pages_succ, Hpage.
    unfold offsets_upto. rewrite seq_S, map_app. simpl.
    destruct Hcases as [[Hne [Hv Hw]] | [Hnil [Hv Hw]]]; subst v' w'; simpl.
    + rewrite <- !app_assoc, !page_offsets_app, Ho, Hoff. simpl.
      unfold offsets_upto. rewrite <- app_assoc.
      repeat split; try lia; try congruence.
      * intros _. unfold batchSize. lia.
      * intros Hno. exists k. split; [reflexivity|].
        rewrite Hreply. simpl. rewrite Hno. simpl.
        apply orb_true_r.
    + rewrite <- !app_assoc, !page_offsets_app, Ho, Hoff, Hnil, app_nil_r. simpl.
      unfold offsets_upto. rewrite <- app_assoc.
      repeat split; try lia; try congruence.
      intros _. exists k. split; [reflexivity|].
      rewrite Hreply. simpl. rewrite Hnil. simpl. rewrite Hsucc. reflexivity.
Qed.

(** Every state of the loop was reached without a failure: the page
    requests before the last were answered with pages after which the
    loop goes on, and when [hasMore] is off the last reply is one by which
    the server ended the listing. *)
Lemma paging_complete srv gid total w0 v w :
  paging srv gid total w0 v w ->
  exists k,
    sent w = (sent w0 + k)%nat /\
    (hasMore v = true ->
     currentOffset v = Z.of_nat k * batchSize /\
     forall i, (i < k)%nat ->
       goes_on (group_members srv (sent w0 + i) gid
                  (Z.of_nat i * batchSize) batchSize) = true) /\
    (hasMore v = false ->
     exists j, k = S j /\
       (forall i, (i < j)%nat ->
          goes_on (group_members srv (sent w0 + i) gid
                     (Z.of_nat i * batchSize) batchSize) = true) /\
       ends_listing (group_members srv (sent w0 + j) gid
                       (Z.of_nat j * batchSize) batchSize) = true).
Proof.
  induction 1 as [|v w v' w' Hp [k [Hs [Hon _]]] Hm Hit].
  - exists 0%nat. split; [lia|]. split; [|discriminate].
    intros _. split; [reflexivity|]. intros i Hi. lia.
  - destruct (Hon Hm) as [Hoff Hbefore].
    apply page_iteration_ret in Hit.
    destruct Hit as [response [Hreply [Hsucc Hcases]]].
    rewrite Hoff, Hs in Hreply.
    exists (S k).
    assert (Hsent : sent w' = (sent w0 + S k)%nat).
    { destruct Hcases as [[_ [_ ->]] | [_ [_ ->]]]; cbn; lia. }
    split; [exact Hsent|].
    destruct Hcases as [[Hne [Hv _]] | [Hnil [Hv _]]]; subst v';
      cbn [hasMore currentOffset].
    + apply length_pos_iff in Hne. split.
      * intros Hmore. split; [rewrite Hoff; unfold batchSize; lia|].
        intros i Hi. destruct (Nat.eq_dec i k) as [->|Hik];
          [|apply Hbefore; lia].
        rewrite Hreply. cbn [goes_on]. rewrite Hsucc, Hne, Hmore. reflexivity.
      * intros Hno. exists k. split; [reflexivity|]. split; [exact Hbefore|].
        rewrite Hreply. cbn [ends_listing]. rewrite Hsucc, Hno.
        apply orb_true_r.
    + split; [discriminate|]. intros _. exists k.
      split; [reflexivity|]. split; [exact Hbefore|].
      rewrite Hreply. cbn [ends_listing]. rewrite Hsucc, Hnil. reflexivity.
Qed.

(** The events of a loop, of an attempt and of the retries. *)
Lemma while_hasMore_events srv gid total : forall fuel v w,
  exists tr,
    trace (snd (while_hasMore fuel srv gid total v w)) = trace w ++ tr /\
    page_events gid (currentOffset v) tr.
Proof.
  induction fuel as [|fuel IH]; intros v w.
  - exists []. simpl. destruct (hasMore v); simpl; rewrite app_nil_r;
      split; auto; constructor.
  - destruct (hasMore v) eqn:Hm.
    + rewrite while_hasMore_step by exact Hm.
      destruct (page_iteration srv gid total v w) as [[v1|err|] w1] eqn:Hit.
      * destruct (IH v1 w1) as [tr [Htr Hev]].
        apply page_iteration_ret in Hit.
        destruct Hit as [response [_ [_ [[_ [Hv Hw]] | [_ [Hv Hw]]]]]];
          subst v1 w1; simpl in *.
        -- eexists. rewrite Htr, <- !app_assoc. simpl. split; [reflexivity|].
           constructor. exact Hev.
        -- rewrite while_hasMore_done in Htr |- * by reflexivity.
           simpl. eexists. rewrite <- !app_assoc. simpl. split; [reflexivity|].
           constructor. constructor.
      * apply page_iteration_throw in Hit. subst w1. simpl.
        eexists. split; [reflexivity|]. constructor.
      * exfalso. eapply page_iteration_runs; eauto.
    + rewrite while_hasMore_done by exact Hm. exists []. simpl.
      rewrite app_nil_r. split; auto; constructor.
Qed.

Ltac run_attempt :=
  unfold attempt_try, bind, axios_get, await, throw, ret, setAllMembers.

Lemma attempt_try_events srv gid fuel w :
  exists tr,
    trace (snd (attempt_try fuel srv gid w)) = trace w ++ tr /\
    attempt_events gid tr.
Proof.
  run_attempt.
  destruct (group_members srv (sent w) gid 0 1) as [initialResponse|err];
    simpl.
  - destruct (success initialResponse); simpl.
    + destruct (while_hasMore_events srv gid (totalMembers_of initialResponse)
                  fuel loop_entry (issue (EvGet gid 0 1) w)) as [tr [Htr Hev]].
      fold loop_entry.
      destruct (while_hasMore fuel srv gid _ loop_entry _) as [[v|e|] wl];
        simpl in *; rewrite Htr, <- app_assoc; simpl;
        (eexists; split; [reflexivity|]; constructor; exact Hev).
    + eexists; split; [reflexivity|]. constructor. constructor.
  - eexists; split; [reflexivity|]. constructor. constructor.
Qed.

Lemma report_failure_trace err w :
  trace (snd (report_failure err w)) = trace w /\
  exists w', report_failure err w = (Ret false, w').
Proof.
  unfold report_failure, bind, setError, ret.
  destruct (Js.includes _ _); simpl; split; eauto.
Qed.

(** [attemptFetch], one attempt unfolded. *)
Lemma attemptFetch_step fuel srv gid retryCount w :
  attemptFetch (S fuel) srv gid retryCount w =
  match attempt_try fuel srv gid w with
  | (Throw err, w1) =>
      if (retryCount <? maxRetries)%nat
      then attemptFetch fuel srv gid (S retryCount) (retrying (S retryCount) w1)
      else report_failure err w1
  | r => r
  end.
Proof.
  cbn [attemptFetch]. unfold try_catch.
  destruct (attempt_try fuel srv gid w) as [[b|err|] w1]; try reflexivity.
  destruct (retryCount <? maxRetries)%nat; reflexivity.
Qed.

Lemma attemptFetch_events srv gid : forall fuel retryCount w,
  (retryCount <= maxRetries)%nat ->
  exists tr,
    trace (snd (attemptFetch fuel srv gid retryCount w)) = trace w ++ tr /\
    job_events gid (maxRetries - retryCount) tr.
Proof.
  induction fuel as [|fuel IH]; intros retryCount w Hrc.
  - exists []. simpl. rewrite app_nil_r. split; [reflexivity|].
    constructor. constructor.
  - rewrite attemptFetch_step.
    destruct (attempt_try_events srv gid fuel w) as [tr1 [Htr1 Hev1]].
    destruct (attempt_try fuel srv gid w) as [[b|err|] w1]; simpl in Htr1.
    + exists tr1. split; [exact Htr1|]. constructor. exact Hev1.
    + destruct (retryCount <? maxRetries)%nat eqn:Hlt.
      * apply Nat.ltb_lt in Hlt.
        destruct (IH (S retryCount) (retrying (S retryCount) w1) ltac:(lia))
          as [tr2 [Htr2 Hev2]].
        rewrite Htr2. unfold retrying at 1. cbn [trace emit with_ui].
        rewrite Htr1, <- !app_assoc. cbn [app].
        eexists. split; [reflexivity|].
        replace (maxRetries - retryCount)%nat
          with (S (maxRetries - S retryCount)) by lia.
        constructor; assumption.
      * destruct (report_failure_trace err w1) as [Ht _]. rewrite Ht.
        exists tr1. split; [exact Htr1|]. constructor. exact Hev1.
    + exists tr1. split; [exact Htr1|]. constructor. exact Hev1.
Qed.

(** Counting attempts and sleeps in a trace of that shape. *)
Lemma filter_length_app {A} (f : A -> bool) l1 l2 :
  List.length (filter f (l1 ++ l2))
  = (List.length (filter f l1) + List.length (filter f l2))%nat.
Proof. rewrite filter_app, length_app. reflexivity. Qed.

Lemma page_request_not_start gid offset :
  is_attempt_start (EvGet gid offset batchSize) = false.
Proof. destruct offset; reflexivity. Qed.

Lemma page_events_counts gid : forall offset tr,
  page_events gid offset tr -> attempts tr = 0%nat /\ sleeps tr = 0%nat.
Proof.
  unfold attempts, sleeps.
  induction 1 as [offset|offset|offset p tr Hev [IHa IHs]];
    cbn [filter]; rewrite ?page_request_not_start; auto.
Qed.

Lemma attempt_events_counts gid tr :
  attempt_events gid tr -> (attempts tr <= 1)%nat /\ sleeps tr = 0%nat.
Proof.
  intros [|tr' Hev]; [auto|].
  apply page_events_counts in Hev. destruct Hev as [Ha Hs].
  unfold attempts, sleeps in *. simpl. rewrite Ha, Hs. auto.
Qed.

Lemma job_events_counts gid : forall n tr,
  job_events gid n tr -> (attempts tr <= S n)%nat /\ (sleeps tr <= n)%nat.
Proof.
  induction 1 as [n a Ha|n a tr Ha Hj [IHa IHs]].
  - apply attempt_events_counts in Ha. lia.
  - apply attempt_events_counts in Ha. destruct Ha as [Ha Hs].
    unfold attempts, sleeps in *. rewrite !filter_length_app. simpl. lia.
Qed.

(* ------------------------------------------------------------------ *)
(** ** What a run delivers *)
(* ------------------------------------------------------------------ *)

(** The loop never touches the member list shown. *)
Lemma page_iteration_allMembers srv gid total v w :
  allMembers (ui (snd (page_iteration srv gid total v w))) = allMembers (ui w).
Proof.
  run_page.
  destruct (group_members srv _ _ _ _) as [response|e]; simpl; [|reflexivity].
  destruct (success response); simpl; [|reflexivity].
  destruct (0 <? _); reflexivity.
Qed.

Lemma while_hasMore_allMembers srv gid total : forall fuel v w,
  allMembers (ui (snd (while_hasMore fuel srv gid total v w)))
  = allMembers (ui w).
Proof.
  induction fuel as [|fuel IH]; intros v w.
  - simpl. destruct (hasMore v); reflexivity.
  - destruct (hasMore v) eqn:Hm.
    + rewrite while_hasMore_step by exact Hm.
      pose proof (page_iteration_allMembers srv gid total v w) as Hit.
      destruct (page_iteration srv gid total v w) as [[v1|err|] w1];
        simpl in Hit; [|exact Hit|exact Hit].
      rewrite IH. exact Hit.
    + rewrite while_hasMore_done by exact Hm. reflexivity.
Qed.

(** An attempt that returns: its count request was answered, its loop
    went through states of [paging] up to one with [hasMore] off, and the
    member list is set to what that state has collected. *)
Lemma attempt_try_ret srv gid fuel w b w' :
  attempt_try fuel srv gid w = (Ret b, w') ->
  b = true /\
  exists initialResponse v wl,
    group_members srv (sent w) gid 0 1 = Resolved initialResponse /\
    paging srv gid (totalMembers_of initialResponse)
      (issue (EvGet gid 0 1) w) v wl /\
    hasMore v = false /\
    w' = with_ui (set_allMembers (allFetchedMembers v)) wl.
Proof.
  run_attempt.
  destruct (group_members srv (sent w) gid 0 1) as [initialResponse|err];
    simpl; [|discriminate].
  destruct (success initialResponse); simpl; [|discriminate].
  fold loop_entry.
  destruct (while_hasMore fuel srv gid _ loop_entry _) as [[v|e|] wl] eqn:Hrun;
    try discriminate.
  intros H. inversion H; subst. split; [reflexivity|].
  apply while_hasMore_paging with (w0 := issue (EvGet gid 0 1) w) in Hrun;
    [|constructor].
  destruct Hrun as [Hp Hm]. eauto 8.
Qed.

(** The count request of such an attempt was answered with [success]. *)
Lemma attempt_try_counted srv gid fuel w b w' initialResponse :
  attempt_try fuel srv gid w = (Ret b, w') ->
  group_members srv (sent w) gid 0 1 = Resolved initialResponse ->
  success initialResponse = true.
Proof.
  run_attempt. intros Hrun Hreply. rewrite Hreply in Hrun. simpl in Hrun.
  destruct (success initialResponse); [reflexivity|discriminate].
Qed.

(** Such an attempt delivers a complete enumeration. *)
Lemma attempt_try_delivers srv gid fuel w b w' :
  attempt_try fuel srv gid w = (Ret b, w') ->
  b = true /\ delivered srv gid w' /\ error (ui w') = error (ui w).
Proof.
  intros Hrun.
  pose proof (fun r => attempt_try_counted srv gid fuel w b w' r Hrun)
    as Hcount.
  apply attempt_try_ret in Hrun.
  destruct Hrun as [-> [initialResponse [v [wl [Hreply [Hp [Hm ->]]]]]]].
  split; [reflexivity|].
  assert (Herr : error (ui wl) = error (ui w)).
  { clear Hm. remember (issue (EvGet gid 0 1) w) as w0.
    induction Hp as [|v1 w1 v2 w2 Hp IH Hm1 Hit]; [subst; reflexivity|].
    rewrite <- IH by assumption.
    apply page_iteration_ret in Hit.
    destruct Hit as [r [_ [_ [[_ [_ ->]] | [_ [_ ->]]]]]]; reflexivity. }
  split; [|exact Herr].
  pose proof (paging_complete _ _ _ _ _ _ Hp) as [k' [Hs' [_ Hend]]].
  apply paging_invariant in Hp.
  destruct Hp as [k [Hs [Hc _]]].
  assert (k' = k) by lia. subst k'.
  destruct (Hend Hm) as [j [-> [Hbefore Hlast]]].
  exists (sent w), j. cbn [sent issue] in *.
  split; [cbn; exact Hc|]. split; [cbn; exact Hs|].
  split; [exists initialResponse; split; [exact Hreply | apply Hcount, Hreply]|].
  split; [exact Hbefore | exact Hlast].
Qed.

(** [delivered] reads the member list and the number of requests only. *)
Lemma delivered_same srv gid w w' :
  allMembers (ui w') = allMembers (ui w) -> sent w' = sent w ->
  delivered srv gid w -> delivered srv gid w'.
Proof.
  intros Hm Hs [n [j [H1 [H2 H3]]]]. exists n, j.
  rewrite Hm, Hs. auto.
Qed.

(** An attempt that does not return leaves the member list as it was. *)
Lemma attempt_try_keeps srv gid fuel w :
  match attempt_try fuel srv gid w with
  | (Ret _, _) => True
  | (_, w') => allMembers (ui w') = allMembers (ui w)
  end.
Proof.
  run_attempt.
  destruct (group_members srv (sent w) gid 0 1) as [initialResponse|err];
    simpl; [|reflexivity].
  destruct (success initialResponse); simpl; [|reflexivity].
  pose proof (while_hasMore_allMembers srv gid (totalMembers_of initialResponse)
                fuel loop_entry (issue (EvGet gid 0 1) w)) as Hall.
  fold loop_entry.
  destruct (while_hasMore fuel srv gid _ loop_entry _) as [[v|e|] wl];
    simpl in *; auto.
Qed.

(** The end of the [catch] block: [false], with a message that is not
    empty. *)
Lemma append_nonempty s t : t <> ""%string -> (s ++ t)%string <> ""%string.
Proof. destruct s; simpl; [auto|discriminate]. Qed.

Lemma report_failure_outcome err w :
  exists w', report_failure err w = (Ret false, w') /\
    allMembers (ui w') = allMembers (ui w) /\
    exists msg, error (ui w') = Some msg /\ msg <> ""%string.
Proof.
  unfold report_failure, bind, setError, ret.
  destruct (Js.includes _ _); simpl; eexists; (split; [reflexivity|]);
    (split; [reflexivity|]); eexists; (split; [reflexivity|]).
  - discriminate.
  - apply append_nonempty. discriminate.
Qed.

(** [attemptFetch] never throws; [true] comes with a complete
    enumeration, [false] with a message and the member list untouched. *)
Lemma attemptFetch_outcome srv gid : forall fuel retryCount w,
  match attemptFetch fuel srv gid retryCount w with
  | (Ret true, w') => delivered srv gid w'
  | (Ret false, w') =>
      allMembers (ui w') = allMembers (ui w) /\
      exists msg, error (ui w') = Some msg /\ msg <> ""%string
  | (Throw _, _) => False
  | (OutOfFuel, w') => allMembers (ui w') = allMembers (ui w)
  end.
Proof.
  induction fuel as [|fuel IH]; intros retryCount w; [reflexivity|].
  rewrite attemptFetch_step.
  pose proof (attempt_try_keeps srv gid fuel w) as Hkeep.
  destruct (attempt_try fuel srv gid w) as [[b|err|] w1] eqn:Hrun.
  - apply attempt_try_delivers in Hrun. destruct Hrun as [-> [Hd _]]. exact Hd.
  - destruct (retryCount <? maxRetries)%nat.
    + specialize (IH (S retryCount) (retrying (S retryCount) w1)).
      destruct (attemptFetch fuel srv gid (S retryCount) _) as [[[|]|e|] w2];
        auto.
      * destruct IH as [IH1 IH2]. split; [|exact IH2].
        rewrite IH1. exact Hkeep.
      * rewrite IH. exact Hkeep.
    + destruct (report_failure_outcome err w1) as [w2 [-> [Ha Hmsg]]].
      split; [congruence | exact Hmsg].
  - exact Hkeep.
Qed.

(** [fetchAllMembers] in terms of [attemptFetch]. *)
Ltac run_fetch :=
  unfold fetchAllMembers, bind, try_finally, setLoadingMembers,
    setFetchProgress, setAllMembers, ret.

Lemma fetchAllMembers_unfold fuel srv gid w :
  fetchAllMembers fuel srv gid w =
  match attemptFetch fuel srv gid 0 (fetch_entry w) with
  | (Ret true, w') => (Ret tt, with_ui (set_loadingMembers false) w')
  | (Ret false, w') =>
      (Ret tt, with_ui (set_loadingMembers false)
                 (with_ui (set_allMembers []) w'))
  | (Throw err, w') => (Throw err, with_ui (set_loadingMembers false) w')
  | (OutOfFuel, w') => (OutOfFuel, w')
  end.
Proof.
  run_fetch. fold (fetch_entry w).
  destruct (attemptFetch fuel srv gid 0 (fetch_entry w)) as [[[|]|e|] w'];
    reflexivity.
Qed.

(* ------------------------------------------------------------------ *)
(** ** Fuel and termination *)
(* ------------------------------------------------------------------ *)

(** More fuel does not change a run that has finished. *)
Lemma while_hasMore_mono srv gid total : forall fuel fuel' v w,
  (fuel <= fuel')%nat ->
  finished (while_hasMore fuel srv gid total v w) ->
  while_hasMore fuel' srv gid total v w = while_hasMore fuel srv gid total v w.
Proof.
  induction fuel as [|fuel IH]; intros fuel' v w Hle Hfin.
  - simpl in *. destruct (hasMore v) eqn:Hm; [contradiction|].
    rewrite while_hasMore_done by exact Hm. reflexivity.
  - destruct fuel' as [|fuel']; [lia|].
    destruct (hasMore v) eqn:Hm.
    + rewrite !while_hasMore_step in * by exact Hm.
      destruct (page_iteration srv gid total v w) as [[v1|err|] w1];
        try reflexivity.
      apply IH; [lia | exact Hfin].
    + rewrite !while_hasMore_done by exact Hm. reflexivity.
Qed.

Lemma attempt_try_mono srv gid fuel fuel' w :
  (fuel <= fuel')%nat ->
  finished (attempt_try fuel srv gid w) ->
  attempt_try fuel' srv gid w = attempt_try fuel srv gid w.
Proof.
  intros Hle. run_attempt.
  destruct (group_members srv (sent w) gid 0 1) as [initialResponse|err];
    simpl; [|reflexivity].
  destruct (success initialResponse); simpl; [|reflexivity].
  intros Hfin.
  rewrite (while_hasMore_mono srv gid _ fuel fuel' _ _ Hle); [reflexivity|].
  destruct (while_hasMore fuel srv gid _ _ _) as [[v|e|] wl]; simpl in *; auto.
Qed.

Lemma attemptFetch_mono srv gid : forall fuel fuel' retryCount w,
  (fuel <= fuel')%nat ->
  finished (attemptFetch fuel srv gid retryCount w) ->
  attemptFetch fuel' srv gid retryCount w
  = attemptFetch fuel srv gid retryCount w.
Proof.
  induction fuel as [|fuel IH]; intros fuel' retryCount w Hle Hfin;
    [contradiction|].
  destruct fuel' as [|fuel']; [lia|].
  rewrite !attemptFetch_step in *.
  assert (Hfin1 : finished (attempt_try fuel srv gid w)).
  { destruct (attempt_try fuel srv gid w) as [[b|err|] w1]; simpl in *; auto. }
  rewrite (attempt_try_mono srv gid fuel fuel' w ltac:(lia) Hfin1).
  destruct (attempt_try fuel srv gid w) as [[b|err|] w1]; try reflexivity.
  destruct (retryCount <? maxRetries)%nat; [|reflexivity].
  apply IH; [lia | exact Hfin].
Qed.

(** Every iteration issues exactly one request. *)
Lemma page_iteration_sent srv gid total v w :
  sent (snd (page_iteration srv gid total v w)) = S (sent w).
Proof.
  run_page.
  destruct (group_members srv _ _ _ _) as [response|e]; simpl; [|reflexivity].
  destruct (success response); simpl; [|reflexivity].
  destruct (0 <? _); reflexivity.
Qed.

(** A reply that [stops] leaves [hasMore] off. *)
Lemma page_iteration_stops srv gid total v w v' w' :
  stops (group_members srv (sent w) gid (currentOffset v) batchSize) = true ->
  page_iteration srv gid total v w = (Ret v', w') ->
  hasMore v' = false.
Proof.
  intros Hstop Hit. apply page_iteration_ret in Hit.
  destruct Hit as [response [Hreply [Hsucc [[Hne [-> _]] | [_ [-> _]]]]]];
    [|reflexivity].
  rewrite Hreply in Hstop. simpl in *. rewrite Hsucc in Hstop. simpl in Hstop.
  apply length_pos_iff, Z.ltb_lt in Hne.
  destruct (Js.length (data response) =? 0) eqn:Hz;
    [apply Z.eqb_eq in Hz; lia|].
  simpl in Hstop. destruct (has_more response); [discriminate|reflexivity].
Qed.

(** With a finite listing the loop ends before the offset has gone far
    beyond [bound]: [d] iterations cover [d * batchSize] offsets. *)
Lemma while_hasMore_terminates srv gid total bound :
  (forall n g offset limit,
      bound <= offset ->
      stops (group_members srv n g offset limit) = true) ->
  forall d fuel v w,
    bound - currentOffset v <= Z.of_nat d * batchSize ->
    (d < fuel)%nat ->
    finished (while_hasMore fuel srv gid total v w).
Proof.
  intros Hstop.
  induction d as [|d IH]; intros fuel v w Hd Hfuel;
    (destruct fuel as [|fuel]; [lia|]);
    (destruct (hasMore v) eqn:Hm;
     [|rewrite while_hasMore_done by exact Hm; exact I]);
    rewrite while_hasMore_step by exact Hm;
    destruct (page_iteration srv gid total v w) as [[v1|err|] w1] eqn:Hit;
    try exact I; try (eapply page_iteration_runs; eassumption).
  - rewrite while_hasMore_done; [exact I|].
    eapply page_iteration_stops; [|exact Hit].
    apply Hstop. unfold batchSize in Hd. lia.
  - destruct (hasMore v1) eqn:Hm1;
      [|rewrite while_hasMore_done by exact Hm1; exact I].
    apply IH; [|lia].
    apply page_iteration_ret in Hit.
    destruct Hit as [r [_ [_ [[_ [-> _]] | [_ [-> _]]]]]];
      [|discriminate].
    cbn [currentOffset]. unfold batchSize in *. lia.
Qed.

Lemma attempt_try_terminates srv gid w :
  finite_listing srv ->
  exists fuel, finished (attempt_try fuel srv gid w).
Proof.
  intros [bound Hstop].
  exists (S (Z.to_nat bound)).
  assert (Hfuel : (Z.to_nat bound < S (Z.to_nat bound))%nat) by lia.
  revert Hfuel. generalize (S (Z.to_nat bound)) as fuel. intros fuel Hfuel.
  run_attempt.
  destruct (group_members srv (sent w) gid 0 1) as [initialResponse|err];
    simpl; [|exact I].
  destruct (success initialResponse); simpl; [|exact I].
  pose proof (while_hasMore_terminates srv gid (totalMembers_of initialResponse)
                bound Hstop (Z.to_nat bound) fuel loop_entry
                (issue (EvGet gid 0 1) w)) as Hfin.
  fold loop_entry.
  destruct (while_hasMore fuel srv gid _ loop_entry _) as [[v|e|] wl];
    simpl; auto.
  apply Hfin; [|exact Hfuel]. cbn [currentOffset loop_entry].
  unfold batchSize. lia.
Qed.

(** The retries are bounded, so the whole of [attemptFetch] ends. *)
Lemma attemptFetch_terminates srv gid :
  finite_listing srv ->
  forall budget retryCount w,
    (maxRetries - retryCount <= budget)%nat ->
    exists fuel, finished (attemptFetch fuel srv gid retryCount w).
Proof.
  intros Hev. induction budget as [|budget IH]; intros retryCount w Hb;
    destruct (attempt_try_terminates srv gid w Hev) as [f1 Hf1].
  - exists (S f1). rewrite attemptFetch_step.
    destruct (attempt_try f1 srv gid w) as [[b|err|] w1]; simpl in Hf1; auto.
    replace (retryCount <? maxRetries)%nat with false
      by (symmetry; apply Nat.ltb_ge; lia).
    destruct (report_failure_outcome err w1) as [w2 [-> _]]. exact I.
  - destruct (attempt_try f1 srv gid w) as [[b|err|] w1] eqn:Hrun;
      simpl in Hf1; [| |contradiction].
    + exists (S f1). rewrite attemptFetch_step, Hrun. exact I.
    + destruct (retryCount <? maxRetries)%nat eqn:Hlt.
      * pose proof (proj1 (Nat.ltb_lt _ _) Hlt) as Hlt'.
        destruct (IH (S retryCount) (retrying (S retryCount) w1) ltac:(lia))
          as [f2 Hf2].
        exists (S (Nat.max f1 f2)). rewrite attemptFetch_step.
        rewrite (attempt_try_mono srv gid f1 (Nat.max f1 f2) w ltac:(lia))
          by (rewrite Hrun; exact I).
        rewrite Hrun, Hlt.
        rewrite (attemptFetch_mono srv gid f2 (Nat.max f1 f2) _ _ ltac:(lia) Hf2).
        exact Hf2.
      * exists (S f1). rewrite attemptFetch_step, Hrun, Hlt.
        destruct (report_failure_outcome err w1) as [w2 [-> _]]. exact I.
Qed.

Lemma fetchAllMembers_terminates srv gid w :
  finite_listing srv ->
  exists fuel w', fetchAllMembers fuel srv gid w = (Ret tt, w').
Proof.
  intros Hev.
  destruct (attemptFetch_terminates srv gid Hev maxRetries 0%nat (fetch_entry w)
              ltac:(lia)) as [fuel Hfin].
  exists fuel. rewrite fetchAllMembers_unfold.
  pose proof (attemptFetch_outcome srv gid fuel 0%nat (fetch_entry w)) as Hout.
  destruct (attemptFetch fuel srv gid 0 (fetch_entry w)) as [[[|]|e|] w'];
    simpl in *; try contradiction; eauto.
Qed.

(* ------------------------------------------------------------------ *)
(** ** Progress *)
(* ------------------------------------------------------------------ *)

(** [progress_kept] is a preorder, kept by steps that report nothing and
    by reports of a percentage. *)
Lemma progress_values_app tr1 tr2 :
  progress_values (tr1 ++ tr2) = progress_values tr1 ++ progress_values tr2.
Proof.
  induction tr1 as [|e tr1 IH]; [reflexivity|].
  destruct e; simpl; rewrite IH; reflexivity.
Qed.

Lemma progress_kept_refl w : progress_kept w w.
Proof.
  split; [exists []; rewrite app_nil_r; split; [reflexivity|constructor]|].
  left; reflexivity.
Qed.

Lemma progress_kept_trans w1 w2 w3 :
  progress_kept w1 w2 -> progress_kept w2 w3 -> progress_kept w1 w3.
Proof.
  intros [[tr1 [H1 F1]] P1] [[tr2 [H2 F2]] P2]. split.
  - exists (tr1 ++ tr2). rewrite H2, H1, app_assoc. split; [reflexivity|].
    rewrite progress_values_app. apply Forall_app; auto.
  - destruct P2 as [P2|P2]; [|right; exact P2].
    rewrite P2. exact P1.
Qed.

Lemma progress_kept_quiet w w' e :
  trace w' = trace w ++ [e] -> progress_values [e] = [] ->
  fetchProgress (ui w') = fetchProgress (ui w) ->
  progress_kept w w'.
Proof.
  intros Ht He Hp. split; [|left; exact Hp].
  exists [e]. split; [exact Ht|]. rewrite He. constructor.
Qed.

Lemma progress_kept_report w p :
  percentage p ->
  progress_kept w (emit (EvProgress p) (with_ui (set_fetchProgress p) w)).
Proof.
  intros Hp. split; [|right; exact Hp].
  exists [EvProgress p]. split; [reflexivity|]. repeat constructor. exact Hp.
Qed.

Lemma percentage_100 : percentage (Js.JInt 100).
Proof. exists 100. split; [reflexivity|lia]. Qed.

Lemma percentage_0 : percentage (Js.JInt 0).
Proof. exists 0. split; [reflexivity|lia]. Qed.

(** Every step of the job keeps it. *)
Lemma page_iteration_progress srv gid total v w :
  nonneg_float total ->
  progress_kept w (snd (page_iteration srv gid total v w)).
Proof.
  intros Htotal.
  assert (Hreq : progress_kept w (issue (EvGet gid (currentOffset v) batchSize) w)).
  { apply progress_kept_quiet with (e := EvGet gid (currentOffset v) batchSize);
      reflexivity. }
  destruct (page_iteration srv gid total v w) as [[v1|err|] w1] eqn:Hit.
  - apply page_iteration_ret in Hit.
    destruct Hit as [r [_ [_ [[Hne [_ ->]] | [_ [_ ->]]]]]]; simpl;
      (eapply progress_kept_trans; [exact Hreq|]); apply progress_kept_report.
    + apply progress_of_percentage; [|exact Htotal].
      apply length_range. destruct (allFetchedMembers v); simpl; [exact Hne|discriminate].
    + apply percentage_100.
  - apply page_iteration_throw in Hit. subst w1. exact Hreq.
  - exfalso. eapply page_iteration_runs; eauto.
Qed.

Lemma while_hasMore_progress srv gid total :
  nonneg_float total ->
  forall fuel v w,
    progress_kept w (snd (while_hasMore fuel srv gid total v w)).
Proof.
  intros Htotal. induction fuel as [|fuel IH]; intros v w.
  - simpl. destruct (hasMore v); apply progress_kept_refl.
  - destruct (hasMore v) eqn:Hm.
    + rewrite while_hasMore_step by exact Hm.
      pose proof (page_iteration_progress srv gid total v w Htotal) as Hit.
      destruct (page_iteration srv gid total v w) as [[v1|err|] w1];
        simpl in Hit; try exact Hit.
      eapply progress_kept_trans; [exact Hit | apply IH].
    + rewrite while_hasMore_done by exact Hm. apply progress_kept_refl.
Qed.

Lemma attempt_try_progress srv gid fuel w :
  counts_nonnegative srv ->
  progress_kept w (snd (attempt_try fuel srv gid w)).
Proof.
  intros Hcounts.
  assert (Hreq : progress_kept w (issue (EvGet gid 0 1) w)).
  { apply progress_kept_quiet with (e := EvGet gid 0 1); reflexivity. }
  run_attempt.
  destruct (group_members srv (sent w) gid 0 1) as [initialResponse|err]
    eqn:Hreply; simpl; [|exact Hreq].
  destruct (success initialResponse); simpl; [|exact Hreq].
  pose proof (while_hasMore_progress srv gid (totalMembers_of initialResponse)
                (totalMembers_of_nonneg _ (Hcounts _ _ _ _ _ Hreply))
                fuel loop_entry (issue (EvGet gid 0 1) w)) as Hloop.
  fold loop_entry.
  destruct (while_hasMore fuel srv gid _ loop_entry _) as [[v|e|] wl];
    simpl in *; eapply progress_kept_trans; try exact Hreq; exact Hloop.
Qed.

Lemma report_failure_progress err w :
  progress_kept w (snd (report_failure err w)).
Proof.
  unfold report_failure, bind, setError, ret.
  destruct (Js.includes _ _); simpl;
    (split; [exists []; rewrite app_nil_r; split; [reflexivity|constructor]|]);
    left; reflexivity.
Qed.

Lemma attemptFetch_progress srv gid :
  counts_nonnegative srv ->
  forall fuel retryCount w,
    progress_kept w (snd (attemptFetch fuel srv gid retryCount w)).
Proof.
  intros Hcounts. induction fuel as [|fuel IH]; intros retryCount w.
  - apply progress_kept_refl.
  - rewrite attemptFetch_step.
    pose proof (attempt_try_progress srv gid fuel w Hcounts) as Htry.
    destruct (attempt_try fuel srv gid w) as [[b|err|] w1]; simpl in Htry;
      try exact Htry.
    destruct (retryCount <? maxRetries)%nat.
    + eapply progress_kept_trans; [exact Htry|].
      eapply progress_kept_trans; [|apply IH].
      apply progress_kept_quiet with (e := EvSleep 2000); reflexivity.
    + eapply progress_kept_trans; [exact Htry|]. apply report_failure_progress.
Qed.

Lemma fetchAllMembers_progress srv gid fuel w :
  counts_nonnegative srv ->
  let w' := snd (fetchAllMembers fuel srv gid w) in
  percentage (fetchProgress (ui w')) /\
  exists tr, trace w' = trace w ++ tr /\ Forall percentage (progress_values tr).
Proof.
  intros Hcounts.
  assert (Hentry : progress_kept w (fetch_entry w)).
  { split; [|right; apply percentage_0].
    exists [EvProgress (Js.JInt 0)]. split; [reflexivity|].
    repeat constructor. apply percentage_0. }
  pose proof (attemptFetch_progress srv gid Hcounts fuel 0%nat (fetch_entry w))
    as Hrun.
  assert (Hall : progress_kept w (snd (fetchAllMembers fuel srv gid w)) /\
                 (fetchProgress (ui (snd (fetchAllMembers fuel srv gid w)))
                  = fetchProgress
                      (ui (snd (attemptFetch fuel srv gid 0 (fetch_entry w)))))).
  { rewrite fetchAllMembers_unfold.
    destruct (attemptFetch fuel srv gid 0 (fetch_entry w)) as [[[|]|e|] w1];
      simpl in *; (split; [|reflexivity]);
      (eapply progress_kept_trans; [exact Hentry|]);
      (eapply progress_kept_trans; [exact Hrun|]);
      try apply progress_kept_refl;
      (split; [exists []; rewrite app_nil_r; split; [reflexivity|constructor]|]);
      left; reflexivity. }
  destruct Hall as [[Htr _] Hp]. split; [|exact Htr].
  rewrite Hp. destruct Hrun as [_ [Hsame|Hperc]]; [|exact Hperc].
  rewrite Hsame. apply percentage_0.
Qed.

(* ------------------------------------------------------------------ *)
(** ** Scenario servers and display pages *)
(* ------------------------------------------------------------------ *)

(** Against [endless] every iteration returns with [hasMore] on, so the
    loop, the attempt and the job only ever run out of fuel. *)
Lemma endless_page gid total v w :
  exists v' w',
    page_iteration endless gid total v w = (Ret v', w') /\ hasMore v' = true.
Proof. run_page. simpl. eexists. eexists. split; reflexivity. Qed.

Lemma endless_loop gid total : forall fuel v w,
  hasMore v = true ->
  fst (while_hasMore fuel endless gid total v w) = OutOfFuel.
Proof.
  induction fuel as [|fuel IH]; intros v w Hm.
  - simpl. rewrite Hm. reflexivity.
  - rewrite while_hasMore_step by exact Hm.
    destruct (endless_page gid total v w) as [v' [w' [-> Hm']]].
    apply IH, Hm'.
Qed.

Lemma endless_attempt gid fuel w :
  fst (attempt_try fuel endless gid w) = OutOfFuel.
Proof.
  run_attempt. simpl. fold loop_entry.
  pose proof (endless_loop gid (S754_zero false) fuel loop_entry
                (issue (EvGet gid 0 1) w) eq_refl) as H.
  unfold totalMembers_of. simpl.
  destruct (while_hasMore fuel endless gid _ loop_entry _) as [[v|e|] wl];
    simpl in *; congruence.
Qed.

Lemma endless_attemptFetch gid : forall fuel retryCount w,
  fst (attemptFetch fuel endless gid retryCount w) = OutOfFuel.
Proof.
  destruct fuel as [|fuel]; intros retryCount w; [reflexivity|].
  rewrite attemptFetch_step.
  pose proof (endless_attempt gid fuel w) as H.
  destruct (attempt_try fuel endless gid w) as [[b|err|] w1]; simpl in *;
    congruence.
Qed.

Lemma endless_fetch gid fuel w :
  fst (fetchAllMembers fuel endless gid w) = OutOfFuel.
Proof.
  rewrite fetchAllMembers_unfold.
  pose proof (endless_attemptFetch gid fuel 0%nat (fetch_entry w)) as H.
  destruct (attemptFetch fuel endless gid 0 (fetch_entry w)) as [[[|]|e|] w1];
    simpl in *; congruence.
Qed.

(** [slice] from a start that is not negative is [firstn] after [skipn]. *)
Lemma slice_window {A} (l : list A) (start : Z) (size : nat) :
  0 <= start ->
  Js.slice l start (start + Z.of_nat size)
  = firstn size (skipn (Z.to_nat start) l).
Proof.
  intros Hs. unfold Js.slice.
  replace (start <? 0) with false by (symmetry; apply Z.ltb_ge; lia).
  replace (start + Z.of_nat size <? 0) with false
    by (symmetry; apply Z.ltb_ge; lia).
  set (len := Z.of_nat (List.length l)).
  destruct (Z_le_gt_dec start len) as [Hle|Hgt].
  - rewrite (Z.min_l start len) by lia.
    destruct (Z_le_gt_dec (start + Z.of_nat size) len) as [Hle2|Hgt2].
    + rewrite Z.min_l by lia. f_equal. lia.
    + rewrite Z.min_r by lia.
      rewrite !firstn_all2; [reflexivity| |]; rewrite length_skipn; subst len; lia.
  - rewrite !Z.min_r by lia. rewrite Z.sub_diag. simpl.
    rewrite skipn_all2 by (subst len; lia). rewrite firstn_nil. reflexivity.
Qed.

(** Chunks of [size] elements, enough of them, make up the list. *)
Lemma chunks_concat {A} (size : nat) : forall n (l : list A),
  (List.length l <= size * n)%nat ->
  List.concat (map (fun q => firstn size (skipn (size * q) l)) (seq 0 n)) = l.
Proof.
  induction n as [|n IH]; intros l Hlen.
  - destruct l; [reflexivity | simpl in Hlen; lia].
  - cbn [seq map List.concat]. rewrite Nat.mul_0_r. cbn [skipn].
    rewrite <- seq_shift, map_map.
    transitivity (firstn size l ++ skipn size l); [|apply firstn_skipn].
    f_equal.
    etransitivity; [|apply (IH (skipn size l)); rewrite length_skipn; lia].
    f_equal. apply map_ext. intros q.
    rewrite skipn_skipn. do 2 f_equal. lia.
Qed.

(* ------------------------------------------------------------------ *)
(** ** The enumeration job *)
(* ------------------------------------------------------------------ *)

(** More fuel does not change a job that has finished. *)
Lemma fetchAllMembers_mono srv gid fuel fuel' w :
  (fuel <= fuel')%nat ->
  finished (fetchAllMembers fuel srv gid w) ->
  fetchAllMembers fuel' srv gid w = fetchAllMembers fuel srv gid w.
Proof.
  intros Hle. rewrite !fetchAllMembers_unfold. intros Hfin.
  rewrite (attemptFetch_mono srv gid fuel fuel' _ _ Hle); [reflexivity|].
  destruct (attemptFetch fuel srv gid 0 (fetch_entry w)) as [[[|]|e|] w1];
    simpl in *; auto.
Qed.

(** The events of a job. *)
Lemma fetchAllMembers_trace fuel srv gid w :
  exists tr,
    trace (snd (fetchAllMembers fuel srv gid w))
    = trace w ++ EvProgress (Js.JInt 0) :: tr /\
    job_events gid maxRetries tr.
Proof.
  destruct (attemptFetch_events srv gid fuel 0%nat (fetch_entry w)
              ltac:(unfold maxRetries; lia)) as [tr [Htr Hev]].
  exists tr. rewrite Nat.sub_0_r in Hev. split; [|exact Hev].
  rewrite fetchAllMembers_unfold.
  destruct (attemptFetch fuel srv gid 0 (fetch_entry w)) as [[[|]|e|] w1];
    simpl in *; rewrite Htr, <- app_assoc; reflexivity.
Qed.

(** C1 (amended): whatever the server does and however far the job has
    run, the events of [fetchAllMembers] after the progress reset are
    attempts separated by sleeps of exactly 2000 ms, every attempt starting
    again with the count request and a loop at offset 0 ([job_events]);
    there are at most [maxRetries = 3] sleeps, hence at most
    [1 + maxRetries = 4] attempts.  An attempt that throws while retries
    are left is followed by the retry, started in the world [retrying]
    (notice shown, two seconds slept), and nothing it had collected
    reaches the member list. *)
Theorem retry_budget (fuel : nat) (srv : Server) (groupId : string) (w : World) :
  exists tr,
    trace (snd (fetchAllMembers fuel srv groupId w))
    = trace w ++ EvProgress (Js.JInt 0) :: tr /\
    job_events groupId maxRetries tr /\
    (sleeps tr <= maxRetries)%nat /\
    (attempts tr <= 1 + maxRetries)%nat /\
    (forall fuel' retryCount w1 err w2,
        attempt_try fuel' srv groupId w1 = (Throw err, w2) ->
        (retryCount < maxRetries)%nat ->
        attemptFetch (S fuel') srv groupId retryCount w1
        = attemptFetch fuel' srv groupId (S retryCount)
            (retrying (S retryCount) w2) /\
        trace (retrying (S retryCount) w2) = trace w2 ++ [EvSleep 2000] /\
        allMembers (ui (retrying (S retryCount) w2)) = allMembers (ui w1)).
Proof.
  destruct (fetchAllMembers_trace fuel srv groupId w) as [tr [Htr Hev]].
  exists tr. destruct (job_events_counts groupId _ _ Hev) as [Ha Hs].
  split; [exact Htr|]. split; [exact Hev|]. split; [exact Hs|].
  split; [exact Ha|].
  intros fuel' retryCount w1 err w2 Hthrow Hleft. split; [|split].
  - rewrite attemptFetch_step, Hthrow.
    apply Nat.ltb_lt in Hleft. rewrite Hleft. reflexivity.
  - reflexivity.
  - pose proof (attempt_try_keeps srv groupId fuel' w1) as Hkeep.
    rewrite Hthrow in Hkeep. exact Hkeep.
Qed.

(** C1 as stated fails: against a server that rejects every member
    request the job makes four attempts, not three. *)
Lemma unreachable_server_four_attempts :
  ~ (attempts (trace (snd (fetchAllMembers 5 unreachable "-1001" (mounted ""))))
     <= 3)%nat.
Proof. intros H. vm_compute in H. lia. Qed.

(** C2 (amended): against a server whose listing is finite the job
    terminates (some amount of fuel lets [fetchAllMembers] return); a
    job that has returned has [loadingMembers] off and either shows a
    complete enumeration ([delivered]: the pages of its last attempt
    only, asked for at offsets 0, 50, ... and put end to end, in an
    attempt none of whose requests failed and whose last page is one by
    which the server ended the listing), or shows no member at all
    together with a non-empty error message ([failed]); the job never
    throws, and as long as it has not returned the member list is the
    one it started with. *)
Theorem all_or_nothing (srv : Server) (groupId : string) (w : World) :
  finite_listing srv ->
  (exists fuel w', fetchAllMembers fuel srv groupId w = (Ret tt, w')) /\
  (forall fuel w',
      fetchAllMembers fuel srv groupId w = (Ret tt, w') ->
      loadingMembers (ui w') = false /\
      (delivered srv groupId w' \/ failed w')) /\
  (forall fuel,
      match fetchAllMembers fuel srv groupId w with
      | (Ret _, _) => True
      | (Throw _, _) => False
      | (OutOfFuel, w') => allMembers (ui w') = allMembers (ui w)
      end).
Proof.
  intros Hfin. split; [apply fetchAllMembers_terminates, Hfin|]. split.
  - intros fuel w'. rewrite fetchAllMembers_unfold.
    pose proof (attemptFetch_outcome srv groupId fuel 0%nat (fetch_entry w))
      as Hout.
    destruct (attemptFetch fuel srv groupId 0 (fetch_entry w))
      as [[[|]|e|] w1]; intros H; inversion H; subst; clear H;
      (split; [reflexivity|]).
    + left. eapply delivered_same; [| |exact Hout]; reflexivity.
    + right. destruct Hout as [_ Hmsg]. split; [reflexivity | exact Hmsg].
  - intros fuel. rewrite fetchAllMembers_unfold.
    pose proof (attemptFetch_outcome srv groupId fuel 0%nat (fetch_entry w))
      as Hout.
    destruct (attemptFetch fuel srv groupId 0 (fetch_entry w))
      as [[[|]|e|] w1]; auto.
Qed.

(** The scenario servers have finite listings. *)
Lemma slice_beyond {A} (l : list A) (start end_ : Z) :
  Z.of_nat (List.length l) <= start -> Js.slice l start end_ = [].
Proof.
  intros H. unfold Js.slice.
  replace (start <? 0) with false by (symmetry; apply Z.ltb_ge; lia).
  rewrite (Z.min_r start) by lia.
  rewrite skipn_all2 by lia. apply firstn_nil.
Qed.

Lemma backend_finite members : finite_listing (backend members).
Proof.
  exists (Z.of_nat (List.length members)). intros n g offset limit Hle.
  simpl. unfold list_members. simpl. rewrite slice_beyond by exact Hle.
  reflexivity.
Qed.

Lemma failing_at_finite ns srv : finite_listing srv -> finite_listing (failing_at ns srv).
Proof.
  intros [bound H]. exists bound. intros n g offset limit Hle. simpl.
  destruct (existsb (Nat.eqb n) ns); [reflexivity | apply H, Hle].
Qed.

(** The scenario of C2: the first two attempts of [flaky] fail, the third
    delivers the 120 members and nothing of the first two. *)
Lemma all_or_nothing_witness :
  finite_listing flaky /\
  (exists fuel w', fetchAllMembers fuel flaky "-1001" (mounted "") = (Ret tt, w')) /\
  allMembers (ui (snd (fetchAllMembers 6 flaky "-1001" (mounted ""))))
  = group_of 120 /\
  attempts (trace (snd (fetchAllMembers 6 flaky "-1001" (mounted "")))) = 3%nat.
Proof.
  assert (H : finite_listing flaky)
    by (apply failing_at_finite, backend_finite).
  split; [exact H|]. split.
  - exact (proj1 (all_or_nothing flaky "-1001" (mounted "") H)).
  - split; vm_compute; reflexivity.
Defined.

(** C2 as stated fails: against [endless], which always reports more
    members, no amount of fuel lets the job return. *)
Lemma endless_server_never_finishes :
  ~ exists fuel w',
      fetchAllMembers fuel endless "-1001" (mounted "") = (Ret tt, w').
Proof.
  intros [fuel [w' H]].
  pose proof (endless_fetch "-1001" fuel (mounted "")) as Hno.
  rewrite H in Hno. discriminate.
Qed.

(** C3 (amended): with [total_count = 120] the progress computed from 50,
    100 and 120 collected members is 42, 83 and 100 (50/120 is 41.67 and
    [Math.round] rounds it up); the job run against a group of 120 members
    served in pages of 50 reports exactly 0 (the reset), 42, 83, 100. *)
Theorem progress_sequence_120 (extra : nat) :
  (forall response,
      total_count response = Some 120 ->
      progress_of 50 (totalMembers_of response) = Js.JInt 42 /\
      progress_of 100 (totalMembers_of response) = Js.JInt 83 /\
      progress_of 120 (totalMembers_of response) = Js.JInt 100) /\
  progress_values
    (trace (snd (fetchAllMembers (4 + extra) (backend (group_of 120)) "-1001"
                   (mounted ""))))
  = [Js.JInt 0; Js.JInt 42; Js.JInt 83; Js.JInt 100].
Proof.
  split.
  - intros response H. unfold totalMembers_of. rewrite H.
    repeat split; vm_compute; reflexivity.
  - rewrite (fetchAllMembers_mono _ _ 4 (4 + extra)); [|lia|].
    + vm_compute. reflexivity.
    + vm_compute. exact I.
Qed.

(** C3 as stated fails: the sequence reported is not 41, 83, 100. *)
Lemma progress_sequence_120_not_41 :
  progress_values
    (trace (snd (fetchAllMembers 4 (backend (group_of 120)) "-1001"
                   (mounted ""))))
  <> [Js.JInt 0; Js.JInt 41; Js.JInt 83; Js.JInt 100].
Proof. vm_compute. discriminate. Qed.

(** C4 (amended): after a page response the loop goes on exactly when
    the page is not empty and the response carries [has_more = true]: the
    flag is copied from the server, the client compares neither the page
    length with [batchSize] nor the offset with [total_count].  When the
    server sets the flag by the rule of the spec (page length equal to
    [batchSize] and, if the total is known, advanced offset below it), the
    decision of the client is that rule. *)
Theorem has_more_from_server (srv : Server) (groupId : string)
    (totalMembers : spec_float) (v : LoopVars) (w : World)
    (response : MembersResponse) (v' : LoopVars) (w' : World) :
  group_members srv (sent w) groupId (currentOffset v) batchSize
  = Resolved response ->
  page_iteration srv groupId totalMembers v w = (Ret v', w') ->
  hasMore v' = ((0 <? Js.length (data response)) && has_more response) /\
  (has_more response = (Js.length (data response) =? batchSize) ->
   hasMore v' = (Js.length (data response) =? batchSize)) /\
  (forall total,
      has_more response
      = ((Js.length (data response) =? batchSize)
         && (currentOffset v + batchSize <? total)) ->
      hasMore v'
      = ((Js.length (data response) =? batchSize)
         && (currentOffset v' <? total))).
Proof.
  intros Hreply Hit. apply page_iteration_ret in Hit.
  destruct Hit as [r [Hreply' [_ Hcases]]].
  assert (r = response) by congruence. subst r.
  destruct Hcases as [[Hne [-> _]] | [Hnil [-> _]]]; cbn [hasMore currentOffset].
  - apply length_pos_iff in Hne. rewrite Hne. simpl. repeat split; auto.
  - rewrite Hnil. repeat split; reflexivity.
Qed.

(** The first page of a group of 120: the loop goes on, at offset 50. *)
Lemma has_more_from_server_witness :
  exists v' w',
    page_iteration (backend (group_of 120)) "-1001" (Js.num 120) loop_entry
      (mounted "") = (Ret v', w') /\
    hasMore v' = true /\ currentOffset v' = 50.
Proof.
  eexists. eexists. split; [vm_compute; reflexivity|].
  pose proof (has_more_from_server (backend (group_of 120)) "-1001"
                (Js.num 120) loop_entry (mounted "") _ _ _
                eq_refl eq_refl) as [H _].
  split; [exact H | reflexivity].
Defined.

(** C4 as stated fails: a page of 10 members with [has_more = true] makes
    the loop go on although the page is shorter than [batchSize]. *)
Lemma short_page_continues :
  exists v' w',
    page_iteration short_pages "-1001" (Js.num 120) loop_entry (mounted "")
    = (Ret v', w') /\
    Js.length (allFetchedMembers v') = 10 /\
    ~ (hasMore v' = true <->
       Js.length (allFetchedMembers v') = batchSize /\ currentOffset v' < 120).
Proof.
  eexists. eexists. split; [vm_compute; reflexivity|].
  split; [reflexivity|]. cbn [hasMore].
  intros [H _]. destruct (H eq_refl) as [Hlen _]. vm_compute in Hlen.
  discriminate.
Qed.

(** C5 (amended): when resolving the group fails, whether the server
    answers [success = false] or the request is rejected, [handleSubmit]
    returns with [loading] off, issues no member request, leaves the
    member list empty and shows the error text of the server as it came
    (or a fixed text when there is none).  The instruction about admin
    rights is shown only if that is what the server sent. *)
Theorem resolve_failure_surfaced (fuel : nat) (srv : Server) (w : World)
    (reply : Reply ParseResponse) :
  parse_group srv (sent w) (Js.trim (groupLink (ui w))) = reply ->
  (forall group, reply <> Resolved (ParseOk group)) ->
  let w' := snd (handleSubmit fuel srv w) in
  fst (handleSubmit fuel srv w) = Ret tt /\
  filter is_get (trace w') = filter is_get (trace w) /\
  allMembers (ui w') = [] /\
  loading (ui w') = false /\
  error (ui w') =
  Some match reply with
       | Resolved (ParseFailed server_error) =>
           Js.or_str server_error "Failed to parse group"
       | Rejected err =>
           match response err with
           | Some server_error => Js.or_str server_error "Server error occurred"
           | None =>
               if request err
               then "Network error. Please check if the server is running."%string
               else Js.or_str (Some (message err)) "An unexpected error occurred"
           end
       | Resolved (ParseOk _) => ""%string
       end.
Proof.
  intros Hreply Hfail.
  unfold handleSubmit, bind, try_finally, try_catch, setLoading, setError,
    setAllMembers, setCurrentPage, axios_post, await. cbn [with_ui ui sent].
  change (groupLink (set_currentPage 1 (set_allMembers []
            (set_error None (set_loading true (ui w))))))
    with (groupLink (ui w)).
  rewrite Hreply.
  destruct reply as [[group|server_error]|err].
  - exfalso. apply (Hfail group). reflexivity.
  - simpl. rewrite filter_app. simpl. rewrite app_nil_r. auto.
  - unfold report_submit_error, setError.
    destruct (response err) as [server_error|]; [|destruct (request err)];
      simpl; rewrite filter_app; simpl; rewrite app_nil_r; auto.
Qed.

(** A server that reports the platform's "entity not found" text. *)
Lemma resolve_failure_surfaced_witness :
  error (ui (snd (handleSubmit 5 no_such_group (mounted "t.me/gone"))))
  = Some entity_not_found /\
  filter is_get (trace (snd (handleSubmit 5 no_such_group (mounted "t.me/gone"))))
  = [].
Proof.
  pose proof (resolve_failure_surfaced 5 no_such_group (mounted "t.me/gone")
                (Resolved (ParseFailed (Some entity_not_found))) eq_refl
                ltac:(intros group H; discriminate H)) as [_ [Hget [_ [_ Herr]]]].
  split; [exact Herr | exact Hget].
Defined.

(** C5 as stated fails: the text shown for an entity that is not found at
    resolution is the platform's, not the instruction about admin rights. *)
Lemma resolve_entity_not_found_raw :
  fst (handleSubmit 5 no_such_group (mounted "t.me/gone")) = Ret tt /\
  error (ui (snd (handleSubmit 5 no_such_group (mounted "t.me/gone"))))
  <> Some admin_rights_message.
Proof. split; [reflexivity|]. vm_compute. discriminate. Qed.

(** C6: in every state of the loop of an attempt, the collected members
    are the concatenation of the pages received so far, in the order of
    the requests, and the page requests were made at offsets 0, 50, 100,
    ...; an iteration that receives a non-empty page appends exactly that
    page and advances the offset by exactly [batchSize = 50]; nothing is
    removed or merged.  The states concerned are those the code goes
    through: the loop run by [while_hasMore] stays among them, and the
    member list that a successful attempt sets is the collected sequence
    of such a state. *)
Theorem collected_is_concatenation (srv : Server) (groupId : string)
    (totalMembers : spec_float) (w0 : World) (v : LoopVars) (w : World) :
  paging srv groupId totalMembers w0 v w ->
  (exists k,
      sent w = (sent w0 + k)%nat /\
      allFetchedMembers v = pages srv groupId (sent w0) k /\
      page_offsets (trace w) = page_offsets (trace w0) ++ offsets_upto k /\
      (hasMore v = true -> currentOffset v = Z.of_nat k * batchSize)) /\
  (forall response v' w',
      hasMore v = true ->
      group_members srv (sent w) groupId (currentOffset v) batchSize
      = Resolved response ->
      data response <> [] ->
      page_iteration srv groupId totalMembers v w = (Ret v', w') ->
      allFetchedMembers v' = allFetchedMembers v ++ data response /\
      currentOffset v' = currentOffset v + batchSize) /\
  (forall fuel v' w',
      while_hasMore fuel srv groupId totalMembers v w = (Ret v', w') ->
      paging srv groupId totalMembers w0 v' w') /\
  (forall fuel w1 b w',
      attempt_try fuel srv groupId w1 = (Ret b, w') ->
      exists initialResponse v' wl,
        paging srv groupId (totalMembers_of initialResponse)
          (issue (EvGet groupId 0 1) w1) v' wl /\
        allMembers (ui w') = allFetchedMembers v').
Proof.
  intros Hp. split; [|split; [|split]].
  - destruct (paging_invariant _ _ _ _ _ _ Hp) as [k [Hs [Hc [Ho [Hoff _]]]]].
    exists k. auto.
  - intros response v' w' Hm Hreply Hne Hit.
    apply page_iteration_ret in Hit.
    destruct Hit as [r [Hreply' [_ Hcases]]].
    assert (r = response) by congruence. subst r.
    destruct Hcases as [[_ [-> _]] | [Hnil _]]; [auto | contradiction].
  - intros fuel v' w' Hrun.
    apply (while_hasMore_paging srv groupId totalMembers w0 fuel v w v' w' Hp Hrun).
  - intros fuel w1 b w' Hrun. apply attempt_try_ret in Hrun.
    destruct Hrun as [_ [r [v' [wl [_ [Hp' [_ ->]]]]]]].
    exists r, v', wl. split; [exact Hp' | reflexivity].
Qed.

(** Two pages into a group of 120: the first hundred members, in order,
    asked for at offsets 0 and 50. *)
Lemma collected_is_concatenation_witness :
  exists v w,
    paging (backend (group_of 120)) "-1001" (Js.num 120) (mounted "") v w /\
    allFetchedMembers v = pages (backend (group_of 120)) "-1001" 0 2 /\
    allFetchedMembers v = group_of 100 /\
    page_offsets (trace w) = [0; 50] /\
    currentOffset v = 100.
Proof.
  assert (Hp : exists v w,
             paging (backend (group_of 120)) "-1001" (Js.num 120)
               (mounted "") v w /\ sent w = 2%nat /\ currentOffset v = 100).
  { eexists. eexists. split; [|split].
    - eapply paging_next;
        [eapply paging_next;
           [apply paging_entry | reflexivity | lazy; reflexivity]
        | reflexivity | lazy; reflexivity].
    - reflexivity.
    - reflexivity. }
  destruct Hp as [v [w [Hp [Hsent Hoffset]]]]. exists v, w.
  split; [exact Hp|].
  destruct (collected_is_concatenation _ _ _ _ _ _ Hp)
    as [[k [Hs [Hc [Ho Hoff]]]] _].
  assert (k = 2%nat) by (rewrite Hsent in Hs; simpl in Hs; lia).
  subst k. split; [exact Hc|]. split; [rewrite Hc; vm_compute; reflexivity|].
  split; [exact Ho | exact Hoffset].
Defined.

(** C9: when the counts reported by the server are absent, zero or
    positive, the progress shown after [fetchAllMembers] has run for any
    amount of fuel, and every progress value it has reported on the way,
    is an integer between 0 and 100. *)
Theorem progress_within_bounds (srv : Server) (groupId : string) (fuel : nat)
    (w : World) :
  counts_nonnegative srv ->
  let w' := snd (fetchAllMembers fuel srv groupId w) in
  percentage (fetchProgress (ui w')) /\
  exists tr,
    trace w' = trace w ++ tr /\ Forall percentage (progress_values tr).
Proof. intros Hcounts. apply fetchAllMembers_progress, Hcounts. Qed.

(** The scenario servers report counts that are not negative. *)
Lemma backend_counts members : counts_nonnegative (backend members).
Proof.
  intros n g offset limit response H. simpl in H. inversion H; subst.
  simpl. lia.
Qed.

Lemma failing_at_counts ns srv :
  counts_nonnegative srv -> counts_nonnegative (failing_at ns srv).
Proof.
  intros Hsrv n g offset limit response H. simpl in H.
  destruct (existsb (Nat.eqb n) ns); [discriminate|].
  apply (Hsrv _ _ _ _ _ H).
Qed.

(** The job against [flaky] ends with the progress at 100. *)
Lemma progress_within_bounds_witness :
  percentage
    (fetchProgress (ui (snd (fetchAllMembers 6 flaky "-1001" (mounted ""))))) /\
  fetchProgress (ui (snd (fetchAllMembers 6 flaky "-1001" (mounted ""))))
  = Js.JInt 100.
Proof.
  split; [|vm_compute; reflexivity].
  exact (proj1 (progress_within_bounds flaky "-1001" 6 (mounted "")
                  (failing_at_counts _ _ (backend_counts _)))).
Defined.

(** [page_count n] pages of 50 hold [n] members. *)
Lemma page_count_covers n : (n <= 50 * page_count n)%nat.
Proof.
  unfold page_count.
  pose proof (Z.div_mod (Z.of_nat n + 49) 50 ltac:(lia)) as Hdm.
  pose proof (Z.mod_pos_bound (Z.of_nat n + 49) 50 ltac:(lia)) as Hmod.
  assert (0 <= (Z.of_nat n + 49) / 50) by (apply Z.div_pos; lia).
  lia.
Qed.

(** C10: for a page number [p >= 1], [getCurrentPageMembers] returns the
    members at indices [(p - 1) * 50] up to but excluding [p * 50]
    (fewer on the last page, none beyond), and the display pages 1 to
    [ceil (n / 50)] put end to end are the member list itself. *)
Theorem display_pages_partition (s : State) (p : Z) :
  1 <= p ->
  getCurrentPageMembers (handlePageChange p s)
  = firstn 50 (skipn (Z.to_nat ((p - 1) * 50)) (allMembers s)) /\
  (forall i,
      nth_error (getCurrentPageMembers (handlePageChange p s)) i
      = if (i <? 50)%nat
        then nth_error (allMembers s) (Z.to_nat ((p - 1) * 50) + i)
        else None) /\
  List.concat
    (map (fun q => getCurrentPageMembers (handlePageChange (Z.of_nat q) s))
         (seq 1 (page_count (List.length (allMembers s)))))
  = allMembers s.
Proof.
  intros Hp.
  assert (Hpage : forall q, 1 <= q ->
            getCurrentPageMembers (handlePageChange q s)
            = firstn 50 (skipn (Z.to_nat ((q - 1) * 50)) (allMembers s))).
  { intros q Hq. unfold getCurrentPageMembers, handlePageChange.
    cbn [currentPage allMembers set_currentPage]. unfold MEMBERS_PER_PAGE.
    apply (slice_window (allMembers s) ((q - 1) * 50) 50). lia. }
  split; [apply Hpage, Hp|]. split.
  - intros i. rewrite (Hpage p Hp), nth_error_firstn.
    destruct (i <? 50)%nat; [|reflexivity]. apply nth_error_skipn.
  - rewrite <- seq_shift, map_map.
    rewrite <- (chunks_concat 50 (page_count (List.length (allMembers s)))
                  (allMembers s) (page_count_covers _)) at 2.
    f_equal. apply map_ext. intros q. rewrite Hpage by lia.
    do 2 f_equal. lia.
Qed.

(** The third page of 120 members holds the last twenty. *)
Lemma display_pages_partition_witness :
  let s := set_allMembers (group_of 120) (ui (mounted "")) in
  getCurrentPageMembers (handlePageChange 3 s)
  = firstn 50 (skipn 100 (group_of 120)) /\
  List.length (getCurrentPageMembers (handlePageChange 3 s)) = 20%nat.
Proof.
  split; [|vm_compute; reflexivity].
  exact (proj1 (display_pages_partition
                  (set_allMembers (group_of 120) (ui (mounted ""))) 3
                  ltac:(lia))).
Defined.

(* ------------------------------------------------------------------ *)
(** ** The credential pool *)
(* ------------------------------------------------------------------ *)

Module PoolFacts.
Import Pool.

(** Lazy expiry keeps the id; its four cases. *)
Lemma expire_id now c : id (expire now c) = id c.
Proof.
  unfold expire. destruct (status c); [reflexivity|].
  destruct (cooldown_until c) as [t|]; [|reflexivity].
  destruct (t <=? now); reflexivity.
Qed.

Lemma expire_cases now c :
  (status c = Available /\ expire now c = c) \/
  (status c = Cooldown /\ cooldown_until c = None /\ expire now c = c) \/
  (exists t, status c = Cooldown /\ cooldown_until c = Some t /\ now < t /\
             expire now c = c) \/
  (exists t, status c = Cooldown /\ cooldown_until c = Some t /\ t <= now /\
             status (expire now c) = Available /\
             cooldown_until (expire now c) = Some t).
Proof.
  unfold expire. destruct (status c) eqn:Hs; [left; auto|].
  destruct (cooldown_until c) as [t|] eqn:Hc; [|right; left; auto].
  destruct (t <=? now) eqn:Ht.
  - apply Z.leb_le in Ht. right; right; right. exists t. simpl. auto.
  - apply Z.leb_gt in Ht. right; right; left. exists t. auto.
Qed.

(** Expiry at a later time keeps a record settled, and a credential that
    read as [Available] still does. *)
Lemma settled_expire clock now c :
  settled clock c -> clock <= now -> settled now (expire now c).
Proof.
  intros [Ha Hc] Hle.
  destruct (expire_cases now c)
    as [[Hs ->] | [[Hs [Hn ->]] | [[t [Hs [Ht [Hlt ->]]]] | [t [Hs [Ht [Hlt [Hs' Hc']]]]]]]];
    split; intros H; try congruence; auto.
  - destruct (Ha H) as [Hn | [t [Ht Hlt]]]; [left; exact Hn|].
    right. exists t. split; [exact Ht | lia].
  - right. exists t. split; [exact Hc' | exact Hlt].
Qed.

Lemma usable_expire clock now c :
  settled clock c -> usable clock c -> clock <= now ->
  status (expire now c) = Available.
Proof.
  unfold usable. intros [Ha Hc] Hu Hle.
  destruct (expire_cases now c)
    as [[Hs ->] | [[Hs [Hn ->]] | [[t [Hs [Ht [Hlt ->]]]] | [t [Hs [Ht [Hlt [Hs' Hc']]]]]]]];
    auto.
  - destruct (expire_cases clock c)
      as [[Hs1 He] | [[Hs1 [Hn1 He]] | [[t1 [Hs1 [Ht1 [Hlt1 He]]]] | [t1 [Hs1 [Ht1 [Hlt1 _]]]]]]];
      congruence.
  - destruct (expire_cases clock c)
      as [[Hs1 He] | [[Hs1 [Hn1 He]] | [[t1 [Hs1 [Ht1 [Hlt1 He]]]] | [t1 [Hs1 [Ht1 [Hlt1 _]]]]]]];
      try congruence.
    assert (t1 = t) by congruence. lia.
Qed.

Lemma expire_idem now c : expire now (expire now c) = expire now c.
Proof.
  destruct (expire_cases now c)
    as [[Hs He] | [[Hs [Hn He]] | [[t [Hs [Ht [Hlt He]]]] | [t [Hs [Ht [Hlt [Hs' Hc']]]]]]]];
    try (rewrite He; exact He).
  unfold expire at 1. rewrite Hs'. reflexivity.
Qed.

(** Ids name credentials. *)
Lemma same_id pool a b :
  NoDup (map id pool) -> In a pool -> In b pool -> id a = id b -> a = b.
Proof.
  induction pool as [|c pool IH]; intros Hnd Ha Hb Hid; [contradiction|].
  simpl in Hnd. inversion Hnd as [|x xs Hnotin Hnd']; subst.
  destruct Ha as [->|Ha], Hb as [->|Hb]; auto.
  - exfalso. apply Hnotin. rewrite Hid. apply in_map, Hb.
  - exfalso. apply Hnotin. rewrite <- Hid. apply in_map, Ha.
Qed.

(** Being handed out, read off the pool. *)
Lemma handed_out_true pool cid :
  handed_out pool cid = true <->
  exists c, In c pool /\ id c = cid /\ in_use c = true.
Proof.
  unfold handed_out. rewrite existsb_exists. split.
  - intros [c [Hin H]]. apply andb_true_iff in H. destruct H as [Hid Hu].
    apply String.eqb_eq in Hid. eauto.
  - intros [c [Hin [Hid Hu]]]. exists c. split; [exact Hin|].
    rewrite Hu, andb_true_r. apply String.eqb_eq, Hid.
Qed.

Lemma handed_out_false pool cid :
  (forall c, In c pool -> id c = cid -> in_use c = false) ->
  handed_out pool cid = false.
Proof.
  intros H. apply not_true_iff_false. intros Ht.
  apply handed_out_true in Ht. destruct Ht as [c [Hin [Hid Hu]]].
  rewrite (H c Hin Hid) in Hu. discriminate.
Qed.

(** Expiry and handing out keep what the invariant looks at. *)
Lemma expire_in_use now c : in_use (expire now c) = in_use c.
Proof.
  unfold expire. destruct (status c); [reflexivity|].
  destruct (cooldown_until c) as [t|]; [|reflexivity].
  destruct (t <=? now); reflexivity.
Qed.

Lemma release_one_id p now outcome c : id (release_one p now outcome c) = id c.
Proof.
  destruct outcome; simpl; [reflexivity|reflexivity|].
  destruct (_ <? _)%nat; reflexivity.
Qed.

Lemma release_one_in_use p now outcome c :
  in_use (release_one p now outcome c) = false.
Proof.
  destruct outcome; simpl; [reflexivity|reflexivity|].
  destruct (_ <? _)%nat; reflexivity.
Qed.

(** What [acquire] returns and what it stores. *)
Lemma acquire_pool p now pool :
  snd (acquire p now pool)
  = match fst (acquire p now pool) with
    | Some c =>
        map (fun c' => if (id c' =? id c)%string then hand_out c' else c')
            (map (expire now) pool)
    | None => map (expire now) pool
    end.
Proof.
  unfold acquire. cbv zeta.
  destruct (tie_break p (filter selectable (map (expire now) pool)));
    reflexivity.
Qed.

Lemma acquire_ids p now pool :
  map id (snd (acquire p now pool)) = map id pool.
Proof.
  assert (Hids : map id (map (expire now) pool) = map id pool).
  { rewrite map_map. apply map_ext. intros c. apply expire_id. }
  rewrite acquire_pool. destruct (fst (acquire p now pool)) as [c|];
    [|exact Hids].
  etransitivity; [|exact Hids].
  rewrite (map_map _ id). apply map_ext. intros c'.
  destruct (id c' =? id c)%string; reflexivity.
Qed.

Section Steps.
Variable p : Policy.
Hypothesis tie_break_in : forall l c, tie_break p l = Some c -> In c l.

(** The credential that [acquire] selects is in the pool once expiry is
    applied, reads as [Available] and is not handed out. *)
Lemma acquire_selects now pool c :
  fst (acquire p now pool) = Some c ->
  In c (map (expire now) pool) /\ status c = Available /\ in_use c = false.
Proof.
  unfold acquire. cbv zeta.
  destruct (tie_break p (filter selectable (map (expire now) pool)))
    as [c0|] eqn:Htb; cbn [fst]; [|discriminate].
  intros H. inversion H; subst c0. clear H.
  apply tie_break_in, filter_In in Htb. destruct Htb as [Hin Hsel].
  unfold selectable, is_available in Hsel. apply andb_true_iff in Hsel.
  destruct Hsel as [Hav Hfree]. apply negb_true_iff in Hfree.
  split; [exact Hin|]. split; [|exact Hfree].
  destruct (status c); [reflexivity | discriminate].
Qed.

(** [acquire] keeps the invariant. *)
Lemma pool_ok_acquire clock pool now :
  pool_ok clock pool -> clock <= now ->
  pool_ok now (snd (acquire p now pool)).
Proof.
  intros [Hnd Hok] Hle.
  assert (Hbase : forall c, In c (map (expire now) pool) ->
            settled now c /\ (in_use c = true -> usable now c)).
  { intros c Hin. apply in_map_iff in Hin. destruct Hin as [c0 [<- Hin0]].
    destruct (Hok c0 Hin0) as [Hset Hheld]. split.
    - apply settled_expire with (clock := clock); assumption.
    - rewrite expire_in_use. intros Hh. unfold usable. rewrite expire_idem.
      apply usable_expire with (clock := clock); auto. }
  split; [rewrite acquire_ids; exact Hnd|].
  rewrite acquire_pool.
  destruct (fst (acquire p now pool)) as [c|] eqn:Hacq; [|exact Hbase].
  destruct (acquire_selects now pool c Hacq) as [Hin [Hav _]].
  intros c' Hin'. apply in_map_iff in Hin'.
  destruct Hin' as [c1 [<- Hin1]]. destruct (Hbase c1 Hin1) as [Hset Hheld].
  destruct (id c1 =? id c)%string eqn:Heq; [|split; assumption].
  apply String.eqb_eq in Heq.
  assert (c1 = c).
  { apply same_id with (pool := map (expire now) pool); auto.
    rewrite map_map. erewrite map_ext; [exact Hnd|]. intros x. apply expire_id. }
  subst c1. split.
  - exact Hset.
  - intros _. unfold usable, expire, hand_out. cbn [status cooldown_until].
    rewrite Hav. reflexivity.
Qed.

(** [release] of a credential that reads as [Available] leaves it settled. *)
Lemma settled_release clock now outcome c :
  settled clock c -> usable clock c -> clock <= now ->
  settled now (release_one p now outcome c).
Proof.
  intros Hset Hu Hle.
  pose proof (usable_expire clock now c Hset Hu Hle) as Hnow.
  destruct Hset as [Ha Hc].
  assert (Hpast : cooldown_until c = None \/
                  exists t, cooldown_until c = Some t /\ t <= now).
  { destruct (expire_cases now c)
      as [[Hs He] | [[Hs [Hn He]] | [[t [Hs [Ht [Hlt He]]]] | [t [Hs [Ht [Hlt _]]]]]]].
    - destruct (Ha Hs) as [Hn | [t [Ht Hlt]]]; [left; exact Hn|].
      right. exists t. split; [exact Ht | lia].
    - congruence.
    - congruence.
    - right. exists t. auto. }
  destruct outcome as [|hint|]; unfold release_one.
  - split; simpl; [auto | discriminate].
  - split; simpl; [discriminate | discriminate].
  - destruct (threshold p <? S (error_count c))%nat; split; simpl;
      try discriminate; auto.
Qed.

(** [release] by a holder keeps the invariant. *)
Lemma pool_ok_release clock pool now cid outcome :
  pool_ok clock pool -> clock <= now -> handed_out pool cid = true ->
  pool_ok now (release p now cid outcome pool).
Proof.
  intros [Hnd Hok] Hle Hheld. unfold release.
  apply handed_out_true in Hheld. destruct Hheld as [h [Hinh [Hidh Huh]]].
  assert (Hids : forall c, id (if (id c =? cid)%string
                              then release_one p now outcome c else c) = id c).
  { intros c. destruct (id c =? cid)%string; [|reflexivity].
    apply release_one_id. }
  split.
  - rewrite map_map. erewrite map_ext; [exact Hnd|]. exact Hids.
  - intros c' Hin. apply in_map_iff in Hin. destruct Hin as [c [<- Hin]].
    destruct (Hok c Hin) as [Hset Hu].
    destruct (id c =? cid)%string eqn:Heq.
    + apply String.eqb_eq in Heq.
      assert (c = h) by (apply same_id with (pool := pool); auto; congruence).
      subst c. split.
      * apply settled_release with (clock := clock); auto.
      * rewrite release_one_in_use. discriminate.
    + split.
      * destruct Hset as [Ha Hc]. split; [|exact Hc].
        intros Hs. destruct (Ha Hs) as [Hn | [t [Ht Hlt]]]; [left; exact Hn|].
        right. exists t. split; [exact Ht | lia].
      * intros Hd. unfold usable.
        apply usable_expire with (clock := clock); auto.
Qed.

(** Time passing keeps the invariant. *)
Lemma pool_ok_later clock now pool :
  pool_ok clock pool -> clock <= now -> pool_ok now pool.
Proof.
  intros [Hnd Hok] Hle. split; [exact Hnd|]. intros c Hin.
  destruct (Hok c Hin) as [Hset Hu]. split.
  - destruct Hset as [Ha Hc]. split; [|exact Hc].
    intros Hs. destruct (Ha Hs) as [Hn | [t [Ht Hlt]]]; [left; exact Hn|].
    right. exists t. split; [exact Ht | lia].
  - intros Hh. unfold usable. apply usable_expire with (clock := clock); auto.
Qed.

(** The invariant along a sequence of operations in which the jobs keep
    to the discipline. *)
Lemma protocol_keeps_pool_ok : forall ops clock pool,
  pool_ok clock pool ->
  follows_protocol p clock pool ops = true ->
  pool_ok (end_time clock ops) (run p ops pool).
Proof.
  induction ops as [|op ops IH]; intros clock pool Hok Hp; [exact Hok|].
  cbn [follows_protocol] in Hp. apply andb_true_iff in Hp.
  destruct Hp as [Hp Hrest]. apply andb_true_iff in Hp.
  destruct Hp as [Hle Hop]. apply Z.leb_le in Hle.
  unfold end_time, run. cbn [fold_left].
  apply (IH (time_of op) (exec p pool op)); [|exact Hrest].
  destruct op as [now|now cid outcome|now]; cbn [time_of exec] in *.
  - apply pool_ok_acquire with (clock := clock); assumption.
  - apply pool_ok_release with (clock := clock); assumption.
  - apply pool_ok_later with (clock := clock); assumption.
Qed.

End Steps.

(** A settled record reads consistently at any later time. *)
Lemma settled_consistent clock now c :
  settled clock c -> clock <= now -> consistent now (view (expire now c)).
Proof.
  intros [Ha Hc] Hle. unfold consistent, view. cbn [View.status View.cooldown_until].
  destruct (expire_cases now c)
    as [[Hs ->] | [[Hs [Hn ->]] | [[t [Hs [Ht [Hlt ->]]]] | [t [Hs [Ht [Hlt [Hs' Hc']]]]]]]].
  - split; [|intros _; exact Hs]. intros _.
    destruct (Ha Hs) as [Hn | [t [Ht Hlt]]]; [left; exact Hn|].
    right. exists t. split; [exact Ht | lia].
  - exfalso. apply (Hc Hs Hn).
  - split; [congruence|]. intros [Hn | [t' [Ht' Hlt']]]; [congruence|].
    assert (t' = t) by congruence. lia.
  - split; [|intros _; exact Hs']. intros _. right. exists t. auto.
Qed.

(** The configured pool satisfies the invariant. *)
Lemma configure_ok clock config :
  NoDup (map fst config) -> pool_ok clock (configure config).
Proof.
  intros Hnd. split.
  - unfold configure. rewrite map_map. simpl. exact Hnd.
  - intros c Hin. unfold configure in Hin. apply in_map_iff in Hin.
    destruct Hin as [entry [<- _]]. split.
    + split; simpl; [auto | discriminate].
    + simpl. discriminate.
Qed.

(** No operation adds or removes a credential. *)
Lemma run_length p : forall ops pool,
  List.length (run p ops pool) = List.length pool.
Proof.
  induction ops as [|op ops IH]; intros pool; [reflexivity|].
  unfold run in *. cbn [fold_left]. rewrite IH.
  destruct op; cbn [exec]; [|unfold release; apply length_map|reflexivity].
  rewrite <- (length_map id), acquire_ids. apply length_map.
Qed.

(** C7: start from the configured pool, with distinct ids, and let any
    number of jobs apply [acquire], [release] and [snapshot] in any
    order, as long as time does not run backwards and every release is
    made by a job that holds the credential.  Every credential read at
    any later time satisfies: its status is [Available] if and only if
    its [cooldown_until] is null or not after the time of the read; in
    particular a read made once [cooldown_until] has passed sees
    [Available].  What the jobs need not see to themselves is kept by the
    pool: the credential that [acquire] hands out is [Available],
    satisfies the same, was held by no job and is marked as held from
    then on, so that the next [acquire] does not hand it out again. *)
Theorem pool_invariant (p : Policy) (config : list (string * string))
    (t0 : Z) (ops : list Op) (now : Z) :
  (forall l c, tie_break p l = Some c -> In c l) ->
  NoDup (map fst config) ->
  follows_protocol p t0 (configure config) ops = true ->
  end_time t0 ops <= now ->
  let pool := run p ops (configure config) in
  Forall (consistent now) (snapshot now pool) /\
  (forall c,
      fst (acquire p now pool) = Some c ->
      status c = Available /\ consistent now (view c) /\
      handed_out pool (id c) = false /\
      handed_out (snd (acquire p now pool)) (id c) = true /\
      (forall later c',
          now <= later ->
          fst (acquire p later (snd (acquire p now pool))) = Some c' ->
          id c' <> id c)).
Proof.
  intros Htb Hnd Hproto Hnow pool.
  pose proof (protocol_keeps_pool_ok p Htb ops t0 (configure config)
                (configure_ok t0 config Hnd) Hproto) as [Hdistinct Hok].
  fold pool in Hdistinct, Hok.
  assert (Hread : forall c, In c pool -> consistent now (view (expire now c))).
  { intros c Hin.
    apply settled_consistent with (clock := end_time t0 ops); [|exact Hnow].
    apply (Hok c Hin). }
  split.
  - apply Forall_forall. intros v Hin. unfold snapshot in Hin.
    apply in_map_iff in Hin. destruct Hin as [c [<- Hin]]. apply Hread, Hin.
  - intros c Hacq.
    destruct (acquire_selects p Htb now pool c Hacq) as [Hin [Hav Hfree]].
    apply in_map_iff in Hin. destruct Hin as [c0 [Hc0 Hin0]].
    assert (Hmarked : forall c1, In c1 (snd (acquire p now pool)) ->
              id c1 = id c -> in_use c1 = true).
    { intros c1 Hin1 Hid1. rewrite acquire_pool, Hacq in Hin1.
      apply in_map_iff in Hin1. destruct Hin1 as [c2 [<- Hin2]].
      destruct (id c2 =? id c)%string eqn:Heq; [reflexivity|].
      apply String.eqb_neq in Heq. contradiction. }
    split; [exact Hav|]. split; [rewrite <- Hc0; apply Hread, Hin0|].
    split; [|split].
    + apply handed_out_false. intros c1 Hin1 Hid1.
      assert (c1 = c0).
      { apply same_id with (pool := pool); auto.
        rewrite Hid1, <- Hc0, expire_id. reflexivity. }
      subst c1. rewrite <- (expire_in_use now c0), Hc0. exact Hfree.
    + apply handed_out_true.
      exists (hand_out c). split; [|split; reflexivity].
      rewrite acquire_pool, Hacq. apply in_map_iff.
      exists c. rewrite String.eqb_refl. split; [reflexivity|].
      rewrite <- Hc0. apply in_map, Hin0.
    + intros later c' Hlater Hacq' Hid.
      destruct (acquire_selects p Htb later _ c' Hacq') as [Hin' [_ Hfree']].
      apply in_map_iff in Hin'. destruct Hin' as [c1 [Hc1 Hin1]].
      rewrite <- Hc1, expire_in_use in Hfree'.
      rewrite (Hmarked c1 Hin1) in Hfree'; [discriminate|].
      rewrite <- Hid, <- Hc1, expire_id. reflexivity.
Qed.

(** The tie-break of [demo_policy] picks among the candidates. *)
Lemma hd_error_in {A} (l : list A) (c : A) : hd_error l = Some c -> In c l.
Proof. destruct l; simpl; intros H; [discriminate | inversion H; auto]. Qed.

(** A day in the life of [demo_config], with two jobs at once: every
    read at time 50 is consistent; the two jobs that acquire at time 0
    get one bot each, and a third finds none; after four operations the
    first bot is cooling down, and it reads as available again once its
    cooldown has passed. *)
Lemma pool_invariant_witness :
  Forall (consistent 50) (snapshot 50 (run demo_policy demo_ops (configure demo_config))) /\
  map (fun job =>
         option_map id
           (fst (acquire demo_policy 0
                   (run demo_policy (repeat (OpAcquire 0) job)
                      (configure demo_config)))))
      [0; 1; 2]%nat
  = [Some "bot1"; Some "bot2"; None]%string /\
  map View.status
      (snapshot 20 (run demo_policy (firstn 4 demo_ops) (configure demo_config)))
  = [Cooldown; Available] /\
  map View.status
      (snapshot 50 (run demo_policy demo_ops (configure demo_config)))
  = [Available; Available].
Proof.
  split; [|split; [|split]; reflexivity].
  apply (pool_invariant demo_policy demo_config 0 demo_ops 50).
  - intros l c. apply hd_error_in.
  - repeat constructor; simpl; intuition discriminate.
  - reflexivity.
  - vm_compute. discriminate.
Defined.

(** Counting the available views is counting the credentials that read
    as available. *)
Lemma active_count now pool :
  List.length (filter view_available (snapshot now pool))
  = List.length (filter (fun c => is_available (expire now c)) pool).
Proof.
  unfold snapshot. induction pool as [|c pool IH]; [reflexivity|].
  cbn [map filter]. unfold view_available at 1, view at 1, is_available at 1.
  cbn [View.status]. destruct (status (expire now c)); simpl; rewrite IH;
    reflexivity.
Qed.

(** C8: after any sequence of operations [GetPoolStatus] reports as
    [total_tokens] the number of configured credentials, as
    [active_tokens] the number of credentials that read as [Available]
    once lazy expiry is applied, and as [tokens] the snapshot; two
    credentials in [Cooldown] whose [cooldown_until] is not after the time
    of the read give [active_tokens = 2]. *)
Theorem pool_status_counts (p : Policy) (config : list (string * string))
    (ops : list Op) (now : Z) :
  let pool := run p ops (configure config) in
  View.total_tokens (GetPoolStatus now pool) = List.length config /\
  View.active_tokens (GetPoolStatus now pool)
  = List.length (filter (fun c => is_available (expire now c)) pool) /\
  View.tokens (GetPoolStatus now pool) = snapshot now pool /\
  (forall c1 c2 t1 t2,
      status c1 = Cooldown -> cooldown_until c1 = Some t1 -> t1 <= now ->
      status c2 = Cooldown -> cooldown_until c2 = Some t2 -> t2 <= now ->
      View.total_tokens (GetPoolStatus now [c1; c2]) = 2%nat /\
      View.active_tokens (GetPoolStatus now [c1; c2]) = 2%nat).
Proof.
  cbv zeta. split; [|split; [|split]].
  - cbn [GetPoolStatus View.total_tokens]. rewrite run_length.
    unfold configure. apply length_map.
  - apply active_count.
  - reflexivity.
  - intros c1 c2 t1 t2 Hs1 Hc1 Ht1 Hs2 Hc2 Ht2. split; [reflexivity|].
    cbn [GetPoolStatus View.active_tokens]. rewrite active_count.
    cbn [filter]. unfold expire. rewrite Hs1, Hc1, Hs2, Hc2.
    apply Z.leb_le in Ht1, Ht2. rewrite Ht1, Ht2. reflexivity.
Qed.

(** Two bots whose cooldowns ended at 5 and 7, read at 10. *)
Lemma pool_status_counts_witness :
  View.total_tokens (GetPoolStatus 10 [cooled "bot1" 5; cooled "bot2" 7]) = 2%nat /\
  View.active_tokens (GetPoolStatus 10 [cooled "bot1" 5; cooled "bot2" 7]) = 2%nat.
Proof.
  destruct (pool_status_counts demo_policy demo_config demo_ops 10)
    as [_ [_ [_ H]]].
  apply (H (cooled "bot1" 5) (cooled "bot2" 7) 5 7); try reflexivity; lia.
Defined.

End PoolFacts.

(* ------------------------------------------------------------------ *)
(** ** The search and the job, further *)
(* ------------------------------------------------------------------ *)

(** The job leaves the cells of the search form alone. *)
Lemma same_search_refl s : same_search s s.
Proof. repeat split. Qed.

Lemma same_search_trans s1 s2 s3 :
  same_search s1 s2 -> same_search s2 s3 -> same_search s1 s3.
Proof.
  unfold same_search. intros [H1 [H2 [H3 H4]]] [K1 [K2 [K3 K4]]].
  repeat split; congruence.
Qed.

Lemma page_iteration_search srv gid total v w :
  same_search (ui w) (ui (snd (page_iteration srv gid total v w))).
Proof.
  run_page.
  destruct (group_members srv _ _ _ _) as [response|e]; simpl;
    [|apply same_search_refl].
  destruct (success response); simpl; [|apply same_search_refl].
  destruct (0 <? _); simpl; repeat split.
Qed.

Lemma while_hasMore_search srv gid total : forall fuel v w,
  same_search (ui w) (ui (snd (while_hasMore fuel srv gid total v w))).
Proof.
  induction fuel as [|fuel IH]; intros v w.
  - simpl. destruct (hasMore v); apply same_search_refl.
  - destruct (hasMore v) eqn:Hm.
    + rewrite while_hasMore_step by exact Hm.
      pose proof (page_iteration_search srv gid total v w) as Hit.
      destruct (page_iteration srv gid total v w) as [[v1|err|] w1];
        simpl in Hit; [|exact Hit|exact Hit].
      eapply same_search_trans; [exact Hit | apply IH].
    + rewrite while_hasMore_done by exact Hm. apply same_search_refl.
Qed.

Lemma attempt_try_search srv gid fuel w :
  same_search (ui w) (ui (snd (attempt_try fuel srv gid w))).
Proof.
  run_attempt.
  destruct (group_members srv (sent w) gid 0 1) as [initialResponse|err];
    simpl; [|apply same_search_refl].
  destruct (success initialResponse); simpl; [|apply same_search_refl].
  pose proof (while_hasMore_search srv gid (totalMembers_of initialResponse)
                fuel loop_entry (issue (EvGet gid 0 1) w)) as Hall.
  fold loop_entry.
  destruct (while_hasMore fuel srv gid _ loop_entry _) as [[v|e|] wl];
    simpl in *; exact Hall.
Qed.

Lemma report_failure_search err w :
  same_search (ui w) (ui (snd (report_failure err w))).
Proof.
  unfold report_failure, bind, setError, ret.
  destruct (Js.includes _ _); simpl; repeat split.
Qed.

Lemma attemptFetch_search srv gid : forall fuel retryCount w,
  same_search (ui w) (ui (snd (attemptFetch fuel srv gid retryCount w))).
Proof.
  induction fuel as [|fuel IH]; intros retryCount w; [apply same_search_refl|].
  rewrite attemptFetch_step.
  pose proof (attempt_try_search srv gid fuel w) as Htry.
  destruct (attempt_try fuel srv gid w) as [[b|err|] w1]; simpl in Htry;
    try exact Htry.
  destruct (retryCount <? maxRetries)%nat.
  - eapply same_search_trans; [exact Htry|].
    eapply same_search_trans; [|apply IH]. repeat split.
  - eapply same_search_trans; [exact Htry | apply report_failure_search].
Qed.

Lemma fetchAllMembers_search fuel srv gid w :
  same_search (ui w) (ui (snd (fetchAllMembers fuel srv gid w))).
Proof.
  rewrite fetchAllMembers_unfold.
  pose proof (attemptFetch_search srv gid fuel 0%nat (fetch_entry w)) as H.
  assert (H0 : same_search (ui w) (ui (fetch_entry w))) by (repeat split).
  destruct (attemptFetch fuel srv gid 0 (fetch_entry w)) as [[[|]|e|] w1];
    simpl in *; (eapply same_search_trans; [exact H0|]);
    (eapply same_search_trans; [exact H|]); repeat split.
Qed.

(** The job issues no [POST]. *)
Lemma page_events_no_post gid : forall offset tr,
  page_events gid offset tr -> filter is_post tr = [].
Proof. induction 1; simpl; auto. Qed.

Lemma attempt_events_no_post gid tr :
  attempt_events gid tr -> filter is_post tr = [].
Proof. intros [|tr' Hev]; simpl; [reflexivity|]. eapply page_events_no_post, Hev. Qed.

Lemma job_events_no_post gid : forall n tr,
  job_events gid n tr -> filter is_post tr = [].
Proof.
  induction 1 as [n a Ha|n a tr Ha Hj IH].
  - eapply attempt_events_no_post, Ha.
  - rewrite filter_app. simpl. rewrite IH, (attempt_events_no_post _ _ Ha).
    reflexivity.
Qed.

(** [fetchAllMembers] returns [delivered] or [failed], and never throws. *)
Lemma fetchAllMembers_outcome fuel srv gid w :
  match fetchAllMembers fuel srv gid w with
  | (Ret _, w') =>
      loadingMembers (ui w') = false /\ (delivered srv gid w' \/ failed w')
  | (Throw _, _) => False
  | (OutOfFuel, w') => True
  end.
Proof.
  rewrite fetchAllMembers_unfold.
  pose proof (attemptFetch_outcome srv gid fuel 0%nat (fetch_entry w)) as Hout.
  pose proof (attemptFetch_search srv gid fuel 0%nat (fetch_entry w)) as Hs.
  destruct (attemptFetch fuel srv gid 0 (fetch_entry w)) as [[[|]|e|] w1];
    cbn [fst snd] in *.
  - split; [reflexivity|]. left.
    eapply delivered_same; [| |exact Hout]; reflexivity.
  - split; [reflexivity|]. right. split; [reflexivity|].
    destruct Hout as [_ Hmsg]. exact Hmsg.
  - exact Hout.
  - exact I.
Qed.

(** [handleSubmit] in terms of the reply to its [POST] and of
    [fetchAllMembers]. *)
Lemma report_submit_error_returns err w :
  fst (report_submit_error err w) = Ret tt.
Proof.
  unfold report_submit_error, setError.
  destruct (response err); [reflexivity|]. destruct (request err); reflexivity.
Qed.

Lemma handleSubmit_unfold fuel srv w :
  handleSubmit fuel srv w =
  let w0 := issue (EvPost (Js.trim (groupLink (ui w)))) (submit_entry w) in
  match parse_group srv (sent w) (Js.trim (groupLink (ui w))) with
  | Resolved (ParseOk data) =>
      match fetchAllMembers fuel srv (group_id data)
              (with_ui (set_groupInfo (Some data)) w0) with
      | (Ret _, w') => (Ret tt, with_ui (set_loading false) w')
      | (Throw err, w') =>
          (Ret tt, with_ui (set_loading false) (snd (report_submit_error err w')))
      | (OutOfFuel, w') => (OutOfFuel, w')
      end
  | Resolved (ParseFailed server_error) =>
      (Ret tt, with_ui (set_loading false)
                 (with_ui (set_error (Some (Js.or_str server_error
                                              "Failed to parse group"))) w0))
  | Rejected err =>
      (Ret tt, with_ui (set_loading false) (snd (report_submit_error err w0)))
  end.
Proof.
  unfold handleSubmit, bind, try_finally, try_catch, setLoading, setError,
    setAllMembers, setCurrentPage, setGroupInfo, axios_post, await.
  cbn [with_ui ui sent].
  change (groupLink (set_currentPage 1 (set_allMembers []
            (set_error None (set_loading true (ui w))))))
    with (groupLink (ui w)).
  destruct (parse_group srv (sent w) (Js.trim (groupLink (ui w))))
    as [[data|server_error]|err]; cbn zeta.
  - match goal with
    | |- context [fetchAllMembers fuel srv ?g ?w1] =>
        change w1 with (with_ui (set_groupInfo (Some data))
                          (issue (EvPost (Js.trim (groupLink (ui w))))
                             (submit_entry w)));
        destruct (fetchAllMembers fuel srv g
                    (with_ui (set_groupInfo (Some data))
                       (issue (EvPost (Js.trim (groupLink (ui w))))
                          (submit_entry w)))) as [[[]|e|] w']
    end; try reflexivity.
    pose proof (report_submit_error_returns e w') as H.
    destruct (report_submit_error e w') as [r w'']. simpl in *. subst r.
    reflexivity.
  - reflexivity.
  - unfold report_submit_error, setError.
    destruct (response err); [|destruct (request err)]; reflexivity.
Qed.

(** X1: whatever the server answers and however far the run has got,
    [handleSubmit] never throws; it issues exactly one [POST], with the
    link trimmed, before anything else; the page shown is page 1 and the
    link typed is untouched; the search spinner is on while the run lasts
    and off once it has returned. *)
Theorem submit_never_throws (fuel : nat) (srv : Server) (w : World) :
  let r := handleSubmit fuel srv w in
  (exists tr,
      trace (snd r) = trace w ++ EvPost (Js.trim (groupLink (ui w))) :: tr /\
      filter is_post tr = []) /\
  currentPage (ui (snd r)) = 1 /\
  groupLink (ui (snd r)) = groupLink (ui w) /\
  match fst r with
  | Ret _ => loading (ui (snd r)) = false
  | Throw _ => False
  | OutOfFuel => loading (ui (snd r)) = true
  end.
Proof.
  cbv zeta. rewrite handleSubmit_unfold. cbv zeta.
  destruct (parse_group srv (sent w) (Js.trim (groupLink (ui w))))
    as [[data|server_error]|err].
  - set (w1 := with_ui (set_groupInfo (Some data))
                 (issue (EvPost (Js.trim (groupLink (ui w)))) (submit_entry w))).
    destruct (fetchAllMembers_trace fuel srv (group_id data) w1)
      as [tr [Htr Hev]].
    pose proof (fetchAllMembers_search fuel srv (group_id data) w1)
      as [Hlink [Hload [_ Hpage]]].
    pose proof (fetchAllMembers_outcome fuel srv (group_id data) w1) as Hout.
    apply job_events_no_post in Hev.
    destruct (fetchAllMembers fuel srv (group_id data) w1) as [[[]|e|] w'];
      cbn [fst snd] in *; [| contradiction |];
      (split;
       [exists (EvProgress (Js.JInt 0) :: tr); cbn [with_ui trace];
        rewrite Htr; unfold w1; cbn [with_ui issue trace submit_entry];
        rewrite <- app_assoc; split; [reflexivity | exact Hev]
       |]);
      cbn [with_ui ui]; repeat split; try assumption; reflexivity.
  - cbn [fst snd]. split; [exists []; split; reflexivity|].
    repeat split.
  - unfold report_submit_error, setError.
    destruct (response err); [|destruct (request err)];
      cbn [fst snd]; (split; [exists []; split; reflexivity|]); repeat split.
Qed.

(** X2: when the server resolves the group, [handleSubmit] shows the
    group it was given and runs the enumeration job for the [group_id]
    of that answer and for no other: after the [POST] come the progress
    reset and the attempts of the job.  Once it has returned, the member
    list is a complete enumeration ([delivered]: the pages of one
    attempt none of whose requests failed, up to the page by which the
    server ended the listing) or it is empty beside an error message.
    Against a finite listing it does return. *)
Theorem resolved_search_runs_job (srv : Server) (w : World) (data : GroupInfo) :
  parse_group srv (sent w) (Js.trim (groupLink (ui w)))
  = Resolved (ParseOk data) ->
  (finite_listing srv ->
   exists fuel w', handleSubmit fuel srv w = (Ret tt, w')) /\
  (forall fuel w',
      handleSubmit fuel srv w = (Ret tt, w') ->
      groupInfo (ui w') = Some data /\
      loading (ui w') = false /\
      loadingMembers (ui w') = false /\
      (delivered srv (group_id data) w' \/ failed w') /\
      exists tr,
        trace w'
        = trace w ++ EvPost (Js.trim (groupLink (ui w)))
                  :: EvProgress (Js.JInt 0) :: tr /\
        job_events (group_id data) maxRetries tr).
Proof.
  intros Hreply.
  set (w1 := with_ui (set_groupInfo (Some data))
               (issue (EvPost (Js.trim (groupLink (ui w)))) (submit_entry w))).
  split.
  - intros Hfin.
    destruct (fetchAllMembers_terminates srv (group_id data) w1 Hfin)
      as [fuel [w' Hrun]].
    exists fuel, (with_ui (set_loading false) w').
    rewrite handleSubmit_unfold, Hreply. cbv zeta. fold w1. rewrite Hrun.
    reflexivity.
  - intros fuel w'. rewrite handleSubmit_unfold, Hreply. cbv zeta. fold w1.
    destruct (fetchAllMembers_trace fuel srv (group_id data) w1)
      as [tr [Htr Hev]].
    pose proof (fetchAllMembers_search fuel srv (group_id data) w1)
      as [_ [_ [Hgroup _]]].
    pose proof (fetchAllMembers_outcome fuel srv (group_id data) w1) as Hout.
    destruct (fetchAllMembers fuel srv (group_id data) w1) as [[[]|e|] w2];
      cbn [fst snd] in *; [| contradiction | discriminate].
    intros H. inversion H; subst w'. clear H.
    destruct Hout as [Hlm Hout].
    split; [exact Hgroup|]. split; [reflexivity|]. split; [exact Hlm|].
    split.
    + destruct Hout as [Hd | Hf]; [left|right; exact Hf].
      eapply delivered_same; [| |exact Hd]; reflexivity.
    + exists tr. split; [|exact Hev]. cbn [with_ui trace]. rewrite Htr.
      unfold w1. cbn [with_ui issue trace submit_entry].
      rewrite <- app_assoc. reflexivity.
Qed.

(** A group of 120 served ten members at a time: the search returns and
    shows the group it was given. *)
Lemma resolved_search_runs_job_witness :
  exists w', handleSubmit 6 short_pages (mounted " t.me/demo ") = (Ret tt, w') /\
             groupInfo (ui w') = Some demo_group /\
             loading (ui w') = false.
Proof.
  eexists. split; [vm_compute; reflexivity|].
  pose proof (proj2 (resolved_search_runs_job short_pages
                       (mounted " t.me/demo ") demo_group eq_refl)
                6%nat _ ltac:(vm_compute; reflexivity)) as [Hg [Hl _]].
  split; [exact Hg | exact Hl].
Defined.

(** X3: a search that fails to resolve its group leaves the group card of
    the previous search in place: [groupInfo] is what it was, while the
    member list is emptied and an error message is shown. *)
Theorem failed_search_keeps_group (fuel : nat) (srv : Server) (w : World) :
  (forall data,
      parse_group srv (sent w) (Js.trim (groupLink (ui w)))
      <> Resolved (ParseOk data)) ->
  let w' := snd (handleSubmit fuel srv w) in
  groupInfo (ui w') = groupInfo (ui w) /\
  allMembers (ui w') = [] /\
  error (ui w') <> None.
Proof.
  intros Hfail. cbv zeta. rewrite handleSubmit_unfold. cbv zeta.
  destruct (parse_group srv (sent w) (Js.trim (groupLink (ui w))))
    as [[data|server_error]|err].
  - exfalso. apply (Hfail data). reflexivity.
  - cbn. repeat split. discriminate.
  - unfold report_submit_error, setError.
    destruct (response err); [|destruct (request err)];
      cbn; repeat split; discriminate.
Qed.

(** After a search of [demo_group], a search for a group the server
    cannot resolve: the card of [demo_group] is still there. *)
Lemma failed_search_keeps_group_witness :
  groupInfo (ui (snd (handleSubmit 5 no_such_group (after_search "t.me/gone"))))
  = Some demo_group /\
  allMembers (ui (snd (handleSubmit 5 no_such_group (after_search "t.me/gone"))))
  = [].
Proof.
  pose proof (failed_search_keeps_group 5 no_such_group
                (after_search "t.me/gone")
                ltac:(intros data H; discriminate H)) as [Hg [Hm _]].
  split; [exact Hg | exact Hm].
Defined.

(** Sleeps of a trace made of two parts. *)
Lemma sleeps_app tr1 tr2 : sleeps (tr1 ++ tr2) = (sleeps tr1 + sleeps tr2)%nat.
Proof. apply filter_length_app. Qed.

(** An attempt does not sleep. *)
Lemma attempt_try_sleeps srv gid fuel w :
  sleeps (trace (snd (attempt_try fuel srv gid w))) = sleeps (trace w).
Proof.
  destruct (attempt_try_events srv gid fuel w) as [tr [-> Hev]].
  apply attempt_events_counts in Hev. rewrite sleeps_app. lia.
Qed.

(** The error cell after [attemptFetch] has returned [true] on its
    [k]-th retry. *)
Lemma attemptFetch_notice srv gid : forall fuel retryCount w w',
  attemptFetch fuel srv gid retryCount w = (Ret true, w') ->
  exists k,
    (retryCount + k <= Nat.max retryCount maxRetries)%nat /\
    sleeps (trace w') = (sleeps (trace w) + k)%nat /\
    error (ui w') = match k with
                    | O => error (ui w)
                    | S _ => Some (retry_notice (retryCount + k))
                    end.
Proof.
  induction fuel as [|fuel IH]; intros retryCount w w'; [discriminate|].
  rewrite attemptFetch_step.
  pose proof (attempt_try_sleeps srv gid fuel w) as Hsl.
  destruct (attempt_try fuel srv gid w) as [[b|err|] w1] eqn:Hrun;
    cbn [snd] in Hsl; [| |discriminate].
  - intros H. inversion H; subst b w1. clear H.
    apply attempt_try_delivers in Hrun. destruct Hrun as [_ [_ Herr]].
    exists 0%nat. split; [lia|]. split; [lia|]. exact Herr.
  - destruct (retryCount <? maxRetries)%nat eqn:Hlt.
    + pose proof (proj1 (Nat.ltb_lt _ _) Hlt) as Hlt'.
      intros H. apply IH in H. destruct H as [k [Hk [Hs He]]].
      exists (S k). split; [lia|]. split.
      * rewrite Hs. unfold retrying. cbn [trace emit with_ui].
        rewrite sleeps_app. unfold sleeps at 2. simpl. lia.
      * rewrite He. destruct k as [|k].
        -- unfold retrying. cbn [ui emit with_ui error set_error].
           replace (retryCount + 1)%nat with (S retryCount) by lia.
           reflexivity.
        -- f_equal. f_equal. lia.
    + destruct (report_failure_trace err w1) as [_ [w2 ->]]. discriminate.
Qed.

(** X4: a job that ends with members to show never clears the error
    cell.  If it got there without a retry, the cell holds what it held
    before the job; if it needed [k] retries, the cell still holds the
    notice of the last one, "Retrying... Attempt k of 3", beside the
    members. *)
Theorem retry_notice_stays (fuel : nat) (srv : Server) (groupId : string)
    (w w' : World) :
  fetchAllMembers fuel srv groupId w = (Ret tt, w') ->
  allMembers (ui w') <> [] ->
  exists k,
    (k <= maxRetries)%nat /\
    sleeps (trace w') = (sleeps (trace w) + k)%nat /\
    error (ui w') = match k with
                    | O => error (ui w)
                    | S _ => Some (retry_notice k)
                    end.
Proof.
  rewrite fetchAllMembers_unfold.
  destruct (attemptFetch fuel srv groupId 0 (fetch_entry w))
    as [[[|]|e|] w1] eqn:Hrun; intros H; inversion H; subst w'; clear H.
  - intros _. apply attemptFetch_notice in Hrun.
    destruct Hrun as [k [Hk [Hs He]]]. exists k.
    split; [unfold maxRetries in *; lia|]. split.
    + cbn [with_ui trace]. rewrite Hs. unfold fetch_entry.
      cbn [trace emit with_ui]. rewrite sleeps_app. unfold sleeps at 2.
      simpl. lia.
    + exact He.
  - intros Hne. exfalso. apply Hne. reflexivity.
Qed.

(** [slow_start] loses the first request: the job shows its thirty
    members under the notice of the first retry. *)
Lemma retry_notice_stays_witness :
  exists w',
    fetchAllMembers 7 slow_start "-1001" (mounted "") = (Ret tt, w') /\
    List.length (allMembers (ui w')) = 30%nat /\
    exists k, error (ui w') = Some (retry_notice k) /\ sleeps (trace w') = k.
Proof.
  eexists. split; [vm_compute; reflexivity|]. split; [vm_compute; reflexivity|].
  destruct (retry_notice_stays 7 slow_start "-1001" (mounted "") _
              ltac:(vm_compute; reflexivity)
              ltac:(vm_compute; discriminate)) as [k [_ [Hs He]]].
  exists k. destruct k as [|k]; [vm_compute in Hs; discriminate Hs|].
  split; [exact He | exact Hs].
Defined.

(** The attempts against a server that refuses the listing: each one
    throws at its count request, and the last one is reported. *)
Lemma refused_attempt srv gid fuel w :
  refuses_listing srv gid ->
  exists err,
    attempt_try fuel srv gid w = (Throw err, issue (EvGet gid 0 1) w) /\
    Js.includes (errorMessage err) "Could not find the input entity" = true.
Proof.
  intros Href. destruct (Href (sent w)) as [err [Hreply Hinc]].
  exists err. split; [|exact Hinc].
  run_attempt. rewrite Hreply. reflexivity.
Qed.

Lemma refused_attempts srv gid :
  refuses_listing srv gid ->
  forall n retryCount fuel w,
    (retryCount + n = maxRetries)%nat -> (n < fuel)%nat ->
    exists w',
      attemptFetch fuel srv gid retryCount w = (Ret false, w') /\
      error (ui w') = Some admin_rights_message /\
      allMembers (ui w') = allMembers (ui w) /\
      trace w' = trace w ++ refused_events gid n /\
      sent w' = (sent w + S n)%nat.
Proof.
  intros Href.
  induction n as [|n IH]; intros retryCount fuel w Hn Hfuel;
    (destruct fuel as [|fuel]; [lia|]);
    rewrite attemptFetch_step;
    destruct (refused_attempt srv gid fuel w Href) as [err [-> Hinc]].
  - replace (retryCount <? maxRetries)%nat with false
      by (symmetry; apply Nat.ltb_ge; lia).
    unfold report_failure. fold (errorMessage err). rewrite Hinc.
    eexists. split; [reflexivity|]. cbn. repeat split. lia.
  - replace (retryCount <? maxRetries)%nat with true
      by (symmetry; apply Nat.ltb_lt; lia).
    destruct (IH (S retryCount) fuel
                (retrying (S retryCount) (issue (EvGet gid 0 1) w))
                ltac:(lia) ltac:(lia)) as [w' [-> [He [Hm [Ht Hs]]]]].
    exists w'. split; [reflexivity|]. split; [exact He|].
    split; [rewrite Hm; reflexivity|]. split.
    + rewrite Ht. unfold retrying, refused_events.
      cbn [trace emit with_ui issue repeat List.concat].
      rewrite <- !app_assoc. reflexivity.
    + rewrite Hs. cbn. lia.
Qed.

(** X5: a failure that will not go away is retried like any other.  When
    the server rejects every count request with the text "Could not find
    the input entity", the job still makes four attempts, two seconds
    apart, before it returns with no member shown and the instruction
    about admin rights as the error. *)
Theorem refused_listing_retried (srv : Server) (groupId : string) (w : World)
    (extra : nat) :
  refuses_listing srv groupId ->
  exists w',
    fetchAllMembers (4 + extra) srv groupId w = (Ret tt, w') /\
    trace w' = trace w ++ EvProgress (Js.JInt 0)
                       :: [EvGet groupId 0 1; EvSleep 2000;
                           EvGet groupId 0 1; EvSleep 2000;
                           EvGet groupId 0 1; EvSleep 2000;
                           EvGet groupId 0 1] /\
    error (ui w') = Some admin_rights_message /\
    allMembers (ui w') = [] /\
    loadingMembers (ui w') = false.
Proof.
  intros Href. rewrite fetchAllMembers_unfold.
  destruct (refused_attempts srv groupId Href 3%nat 0%nat (4 + extra)%nat
              (fetch_entry w) eq_refl ltac:(lia))
    as [w1 [-> [He [_ [Ht _]]]]].
  eexists. split; [reflexivity|]. cbn [with_ui ui trace].
  split; [|split; [exact He | split; reflexivity]].
  rewrite Ht. unfold fetch_entry. cbn [trace emit with_ui].
  rewrite <- app_assoc. reflexivity.
Qed.

(** The bot is not in the group: four count requests, then the
    instruction. *)
Lemma refused_listing_retried_witness :
  exists w',
    fetchAllMembers 4 not_a_member "-1001" (mounted "") = (Ret tt, w') /\
    error (ui w') = Some admin_rights_message /\
    attempts (trace w') = 4%nat /\ sleeps (trace w') = 3%nat.
Proof.
  destruct (refused_listing_retried not_a_member "-1001" (mounted "") 0
              ltac:(intros n; eexists; split; [reflexivity|vm_compute; reflexivity]))
    as [w' [Hrun [Ht [He _]]]].
  exists w'. split; [exact Hrun|]. split; [exact He|].
  rewrite Ht. split; reflexivity.
Defined.

(** Dividing a positive length by a total of zero gives [Infinity], which
    [Math.min] cuts to 100. *)
Lemma progress_of_zero_total (len : Z) :
  0 < len < 2 ^ 53 -> progress_of len (S754_zero false) = Js.JInt 100.
Proof.
  intros Hlen. unfold progress_of.
  destruct len as [|p|p]; try lia.
  destruct (num_finite p) as [m [e ->]]; [lia|].
  rewrite num_100. reflexivity.
Qed.

Lemma totalMembers_of_unknown (r : MembersResponse) :
  total_count r = None \/ total_count r = Some 0 ->
  totalMembers_of r = S754_zero false.
Proof. unfold totalMembers_of. intros [-> | ->]; reflexivity. Qed.

(** X6: when the answer to the count request carries no [total_count],
    or a count of zero, every page that is received, empty or not, puts
    the progress at 100: the bar is full from the first page on, however
    many pages follow. *)
Theorem progress_without_total (srv : Server) (groupId : string)
    (initialResponse : MembersResponse) (v : LoopVars) (w : World)
    (v' : LoopVars) (w' : World) :
  total_count initialResponse = None \/ total_count initialResponse = Some 0 ->
  page_iteration srv groupId (totalMembers_of initialResponse) v w
  = (Ret v', w') ->
  fetchProgress (ui w') = Js.JInt 100 /\
  trace w' = trace w ++ [EvGet groupId (currentOffset v) batchSize;
                         EvProgress (Js.JInt 100)].
Proof.
  intros Htotal Hit. rewrite (totalMembers_of_unknown _ Htotal) in Hit.
  apply page_iteration_ret in Hit.
  destruct Hit as [response [_ [_ [[Hne [_ ->]] | [_ [_ ->]]]]]];
    cbn [ui trace emit with_ui issue fetchProgress set_fetchProgress].
  - rewrite progress_of_zero_total; [|apply length_range].
    + rewrite <- app_assoc. split; reflexivity.
    + destruct (allFetchedMembers v); [exact Hne | discriminate].
  - rewrite <- app_assoc. split; reflexivity.
Qed.

(** [endless] reports no total: its first page, of one member, fills the
    bar and the loop goes on. *)
Lemma progress_without_total_witness :
  exists v' w',
    page_iteration endless "-1001" (S754_zero false) loop_entry (mounted "")
    = (Ret v', w') /\
    fetchProgress (ui w') = Js.JInt 100 /\ hasMore v' = true.
Proof.
  eexists. eexists. split; [vm_compute; reflexivity|].
  split; [|reflexivity].
  exact (proj1 (progress_without_total endless "-1001"
                  {| success := true; data := []; Api.error := None;
                     total_count := None; has_more := true |}
                  loop_entry (mounted "") _ _ (or_introl eq_refl) eq_refl)).
Defined.

(** An attempt always begins with its count request. *)
Lemma attempt_try_starts srv gid fuel w :
  exists tr,
    trace (snd (attempt_try fuel srv gid w)) = trace w ++ EvGet gid 0 1 :: tr /\
    page_events gid 0 tr.
Proof.
  run_attempt.
  destruct (group_members srv (sent w) gid 0 1) as [initialResponse|err];
    simpl.
  - destruct (success initialResponse); simpl.
    + destruct (while_hasMore_events srv gid (totalMembers_of initialResponse)
                  fuel loop_entry (issue (EvGet gid 0 1) w)) as [tr [Htr Hev]].
      fold loop_entry.
      destruct (while_hasMore fuel srv gid _ loop_entry _) as [[v|e|] wl];
        simpl in *; rewrite Htr, <- app_assoc; simpl;
        (eexists; split; [reflexivity | exact Hev]).
    + eexists; split; [reflexivity|]. constructor.
  - eexists; split; [reflexivity|]. constructor.
Qed.

Lemma attempt_try_counts srv gid fuel w :
  attempts (trace (snd (attempt_try fuel srv gid w))) = S (attempts (trace w)) /\
  sleeps (trace (snd (attempt_try fuel srv gid w))) = sleeps (trace w).
Proof.
  destruct (attempt_try_starts srv gid fuel w) as [tr [-> Hev]].
  apply page_events_counts in Hev. destruct Hev as [Ha Hs].
  unfold attempts, sleeps in *. rewrite !filter_length_app. cbn [filter
    is_attempt_start is_sleep List.length]. rewrite Ha, Hs. lia.
Qed.

(** [attemptFetch] returns [false] only from the end of its [catch]
    block, when no retry is left: the call that reports is the one made
    with [retryCount = maxRetries], in a world [w3], and what it reports
    is the exception of its own attempt. *)
Lemma attemptFetch_gives_up srv gid : forall fuel retryCount w w',
  (retryCount <= maxRetries)%nat ->
  attemptFetch fuel srv gid retryCount w = (Ret false, w') ->
  exists w3 w4 err,
    (S (maxRetries - retryCount) <= fuel)%nat /\
    attempts (trace w3)
    = (attempts (trace w) + (maxRetries - retryCount))%nat /\
    sleeps (trace w3) = (sleeps (trace w) + (maxRetries - retryCount))%nat /\
    attemptFetch (fuel - (maxRetries - retryCount)) srv gid maxRetries w3
    = (Ret false, w') /\
    attempt_try (fuel - S (maxRetries - retryCount)) srv gid w3
    = (Throw err, w4) /\
    w' = with_ui
           (set_error
              (Some (if Js.includes (errorMessage err)
                          "Could not find the input entity"
                     then admin_rights_message
                     else (errorMessage err ++ ". Please try again later.")%string)))
           w4.
Proof.
  induction fuel as [|fuel IH]; intros retryCount w w' Hrc Hrun;
    [discriminate|].
  pose proof Hrun as Hcall. rewrite attemptFetch_step in Hrun.
  destruct (attempt_try_counts srv gid fuel w) as [Ha Hs].
  destruct (attempt_try fuel srv gid w) as [[b|err|] w1] eqn:Htry;
    cbn [snd] in Ha, Hs; [| |discriminate].
  - apply attempt_try_delivers in Htry. destruct Htry as [-> _]. discriminate.
  - destruct (retryCount <? maxRetries)%nat eqn:Hlt.
    + pose proof (proj1 (Nat.ltb_lt _ _) Hlt) as Hlt'.
      apply IH in Hrun; [|lia].
      destruct Hrun as [w3 [w4 [err' [Hfuel [Ha' [Hs' [Hlast [Hthrow Hw']]]]]]]].
      unfold retrying in Ha', Hs'. cbn [trace emit with_ui] in Ha', Hs'.
      unfold sleeps, attempts in *. rewrite filter_length_app in Ha', Hs'.
      cbn [filter is_sleep is_attempt_start List.length] in Ha', Hs'.
      exists w3, w4, err'.
      replace (S fuel - (maxRetries - retryCount))%nat
        with (fuel - (maxRetries - S retryCount))%nat by lia.
      replace (S fuel - S (maxRetries - retryCount))%nat
        with (fuel - S (maxRetries - S retryCount))%nat by lia.
      split; [lia|]. split; [lia|]. split; [lia|]. auto.
    + pose proof (proj1 (Nat.ltb_ge _ _) Hlt) as Hge.
      assert (retryCount = maxRetries) by lia. subst retryCount.
      exists w, w1, err. rewrite Nat.sub_diag, Nat.add_0_r, Nat.sub_0_r.
      replace (S fuel - 1)%nat with fuel by lia.
      split; [lia|]. split; [reflexivity|]. split; [lia|].
      split; [exact Hcall|]. split; [exact Htry|].
      unfold report_failure in Hrun. fold (errorMessage err) in Hrun.
      unfold bind, setError, ret in Hrun.
      destruct (Js.includes (errorMessage err) _);
        inversion Hrun; reflexivity.
Qed.

(** X20: the job gives up only when its retries are used up, and what it
    then says comes from its last attempt.  Whenever [attemptFetch]
    returns [false], it has made exactly four attempts and slept exactly
    three times.  The fourth attempt is the one started, in a world [w3],
    after three attempts and three sleeps; it threw some [err] and ended
    in a world [w4]; and the world returned is [w4] with nothing changed
    but the error, which is made from that [err]: the instruction about
    admin rights if its text names the missing entity, and otherwise that
    text followed by ". Please try again later.". *)
Theorem gives_up_after_four_attempts (fuel : nat) (srv : Server)
    (groupId : string) (w w' : World) :
  attemptFetch fuel srv groupId 0 w = (Ret false, w') ->
  sleeps (trace w') = (sleeps (trace w) + 3)%nat /\
  attempts (trace w') = (attempts (trace w) + 4)%nat /\
  exists w3 w4 err,
    (4 <= fuel)%nat /\
    attempts (trace w3) = (attempts (trace w) + 3)%nat /\
    sleeps (trace w3) = (sleeps (trace w) + 3)%nat /\
    attemptFetch (fuel - 3) srv groupId 3 w3 = (Ret false, w') /\
    attempt_try (fuel - 4) srv groupId w3 = (Throw err, w4) /\
    w' = with_ui
           (set_error
              (Some (if Js.includes (errorMessage err)
                          "Could not find the input entity"
                     then admin_rights_message
                     else (errorMessage err ++ ". Please try again later.")%string)))
           w4.
Proof.
  intros H. apply attemptFetch_gives_up in H; [|unfold maxRetries; lia].
  destruct H as [w3 [w4 [err [Hfuel [Ha [Hs [Hlast [Hthrow Hw']]]]]]]].
  change (maxRetries - 0)%nat with 3%nat in *.
  destruct (attempt_try_counts srv groupId (fuel - 4) w3) as [Ha4 Hs4].
  rewrite Hthrow in Ha4, Hs4. cbn [snd] in Ha4, Hs4.
  split; [subst w'; cbn [with_ui trace]; lia|].
  split; [subst w'; cbn [with_ui trace]; lia|].
  exists w3, w4, err. repeat split; assumption.
Qed.

(** Against [unreachable]: four attempts, then "Network Error. Please try
    again later.", which is the text of the fourth rejection. *)
Lemma gives_up_after_four_attempts_witness :
  exists w',
    attemptFetch 4 unreachable "-1001" 0 (mounted "") = (Ret false, w') /\
    attempts (trace w') = 4%nat /\
    error (ui w') = Some "Network Error. Please try again later."%string.
Proof.
  eexists. split; [vm_compute; reflexivity|].
  split; [|vm_compute; reflexivity].
  exact (proj1 (proj2 (gives_up_after_four_attempts 4 unreachable "-1001"
                         (mounted "") _ ltac:(vm_compute; reflexivity)))).
Defined.

(** After [handleSubmit] the page is page 1. *)
Lemma handleSubmit_page fuel srv w :
  currentPage (ui (snd (handleSubmit fuel srv w))) = 1.
Proof.
  rewrite handleSubmit_unfold. cbv zeta.
  destruct (parse_group srv (sent w) (Js.trim (groupLink (ui w))))
    as [[data|server_error]|err].
  - set (w1 := with_ui (set_groupInfo (Some data))
                 (issue (EvPost (Js.trim (groupLink (ui w)))) (submit_entry w))).
    pose proof (fetchAllMembers_search fuel srv (group_id data) w1)
      as [_ [_ [_ Hpage]]].
    destruct (fetchAllMembers fuel srv (group_id data) w1) as [[[]|e|] w'];
      cbn [fst snd] in *; try exact Hpage.
    unfold report_submit_error, setError.
    destruct (response e); [|destruct (request e)]; exact Hpage.
  - reflexivity.
  - unfold report_submit_error, setError.
    destruct (response err); [|destruct (request err)]; reflexivity.
Qed.

(** X21: after a search the table shows the head of the list.  Whatever
    page was shown before and however the search ends, the members that
    [getCurrentPageMembers] returns after [handleSubmit] are the first
    fifty of the member list (all of them when there are fewer). *)
Theorem search_shows_first_page (fuel : nat) (srv : Server) (w : World) :
  getCurrentPageMembers (ui (snd (handleSubmit fuel srv w)))
  = firstn 50 (allMembers (ui (snd (handleSubmit fuel srv w)))).
Proof.
  unfold getCurrentPageMembers. rewrite handleSubmit_page.
  unfold MEMBERS_PER_PAGE.
  apply (slice_window (allMembers (ui (snd (handleSubmit fuel srv w)))) 0 50).
  lia.
Qed.

(* ------------------------------------------------------------------ *)
(** ** The earlier revision *)
(* ------------------------------------------------------------------ *)

Ltac run_legacy_page :=
  unfold Legacy.page_iteration, bind, axios_get, await, ret.

(** One iteration of the older loop: it throws exactly when the request
    is rejected, and otherwise keeps what [accepted] says, with [hasMore]
    as [continues] says. *)
Lemma legacy_page_ret srv gid v w response :
  group_members srv (sent w) gid (currentOffset v) batchSize
  = Resolved response ->
  exists v',
    Legacy.page_iteration srv gid v w
    = (Ret v', issue (EvGet gid (currentOffset v) batchSize) w) /\
    allFetchedMembers v'
    = allFetchedMembers v ++ Legacy.accepted (Resolved response) /\
    hasMore v' = Legacy.continues (Resolved response) /\
    (hasMore v' = true -> currentOffset v' = currentOffset v + batchSize).
Proof.
  intros Hreply. run_legacy_page. rewrite Hreply. cbn [Legacy.accepted Legacy.continues].
  destruct (success response); cbn [andb].
  - destruct (0 <? Js.length (data response)) eqn:Hne; cbn [andb].
    + eexists. split; [reflexivity|]. cbn. auto.
    + eexists. split; [reflexivity|]. cbn.
      assert (data response = []) as ->.
      { destruct (data response) as [|m ms]; [reflexivity|].
        assert ((0 <? Js.length (m :: ms)) = true)
          by (apply length_pos_iff; discriminate).
        congruence. }
      rewrite app_nil_r. split; [reflexivity|]. split; [reflexivity|].
      discriminate.
  - eexists. split; [reflexivity|]. cbn. rewrite app_nil_r.
    split; [reflexivity|]. split; [reflexivity|]. discriminate.
Qed.

Lemma legacy_page_throw srv gid v w err :
  group_members srv (sent w) gid (currentOffset v) batchSize = Rejected err ->
  Legacy.page_iteration srv gid v w
  = (Throw err, issue (EvGet gid (currentOffset v) batchSize) w).
Proof. intros Hreply. run_legacy_page. rewrite Hreply. reflexivity. Qed.

Lemma legacy_while_step fuel srv gid v w :
  hasMore v = true ->
  Legacy.while_hasMore (S fuel) srv gid v w =
  match Legacy.page_iteration srv gid v w with
  | (Ret v', w') => Legacy.while_hasMore fuel srv gid v' w'
  | (Throw err, w') => (Throw err, w')
  | (OutOfFuel, w') => (OutOfFuel, w')
  end.
Proof. intros H. simpl. rewrite H. reflexivity. Qed.

Lemma legacy_while_done fuel srv gid v w :
  hasMore v = false -> Legacy.while_hasMore fuel srv gid v w = (Ret v, w).
Proof. intros H. destruct fuel; simpl; rewrite H; reflexivity. Qed.

Lemma legacy_collected_succ srv gid n k :
  Legacy.collected srv gid n (S k)
  = Legacy.collected srv gid n k ++ Legacy.accepted (Legacy.page_reply srv gid n k).
Proof.
  unfold Legacy.collected. rewrite seq_S, map_app, concat_app. simpl.
  rewrite app_nil_r. reflexivity.
Qed.

(** The older loop from its [i]-th request on. *)
Lemma legacy_loop srv gid n : forall fuel i v w,
  sent w = (n + i)%nat ->
  currentOffset v = Z.of_nat i * batchSize ->
  allFetchedMembers v = Legacy.collected srv gid n i ->
  hasMore v = true ->
  (forall k, (k < i)%nat ->
             Legacy.continues (Legacy.page_reply srv gid n k) = true) ->
  match Legacy.while_hasMore fuel srv gid v w with
  | (Ret v', w') =>
      exists j,
        sent w' = (n + S j)%nat /\ ui w' = ui w /\
        (forall k, (k < j)%nat ->
                   Legacy.continues (Legacy.page_reply srv gid n k) = true) /\
        Legacy.continues (Legacy.page_reply srv gid n j) = false /\
        (exists response, Legacy.page_reply srv gid n j = Resolved response) /\
        allFetchedMembers v' = Legacy.collected srv gid n (S j)
  | (Throw err, w') =>
      exists j,
        sent w' = (n + S j)%nat /\ ui w' = ui w /\
        (forall k, (k < j)%nat ->
                   Legacy.continues (Legacy.page_reply srv gid n k) = true) /\
        Legacy.page_reply srv gid n j = Rejected err
  | (OutOfFuel, w') => ui w' = ui w
  end.
Proof.
  induction fuel as [|fuel IH]; intros i v w Hs Ho Hc Hm Hk.
  - simpl. rewrite Hm. reflexivity.
  - rewrite legacy_while_step by exact Hm.
    destruct (group_members srv (sent w) gid (currentOffset v) batchSize)
      as [response|err] eqn:Hreply.
    + destruct (legacy_page_ret srv gid v w response Hreply)
        as [v1 [-> [Ha [Hh Hoff]]]].
      assert (Hr : Legacy.page_reply srv gid n i = Resolved response).
      { unfold Legacy.page_reply. rewrite <- Hs, <- Ho. exact Hreply. }
      destruct (hasMore v1) eqn:Hm1.
      * specialize (IH (S i) v1 (issue (EvGet gid (currentOffset v) batchSize) w)).
        assert (Hk' : forall k, (k < S i)%nat ->
                  Legacy.continues (Legacy.page_reply srv gid n k) = true).
        { intros k Hlt. destruct (Nat.eq_dec k i) as [->|Hne].
          - rewrite Hr. symmetry. exact Hh.
          - apply Hk. lia. }
        assert (H1 : sent (issue (EvGet gid (currentOffset v) batchSize) w)
                     = (n + S i)%nat) by (cbn; lia).
        assert (H2 : currentOffset v1 = Z.of_nat (S i) * batchSize)
          by (rewrite Hoff by reflexivity; unfold batchSize in *; lia).
        assert (H3 : allFetchedMembers v1 = Legacy.collected srv gid n (S i))
          by (rewrite legacy_collected_succ, Hr, Ha, Hc; reflexivity).
        specialize (IH H1 H2 H3 Hm1 Hk').
        destruct (Legacy.while_hasMore fuel srv gid v1 _) as [[v2|e|] w2];
          exact IH.
      * rewrite legacy_while_done by exact Hm1. exists i.
        split; [cbn; lia|]. split; [reflexivity|]. split; [exact Hk|].
        split; [rewrite Hr; symmetry; exact Hh|].
        split; [exists response; exact Hr|].
        rewrite legacy_collected_succ, Hr, Ha, Hc. reflexivity.
    + rewrite (legacy_page_throw srv gid v w err Hreply). exists i.
      split; [cbn; lia|]. split; [reflexivity|]. split; [exact Hk|].
      unfold Legacy.page_reply. rewrite <- Hs, <- Ho. exact Hreply.
Qed.

(** The older loop ends at the first reply after which it does not go
    on, given fuel for the requests up to that one. *)
Lemma legacy_loop_ends srv gid n j : forall d fuel i v w,
  (i + d = j)%nat -> (d < fuel)%nat ->
  sent w = (n + i)%nat ->
  currentOffset v = Z.of_nat i * batchSize ->
  (forall k, (k < j)%nat ->
             Legacy.continues (Legacy.page_reply srv gid n k) = true) ->
  Legacy.continues (Legacy.page_reply srv gid n j) = false ->
  finished (Legacy.while_hasMore fuel srv gid v w).
Proof.
  induction d as [|d IH]; intros fuel i v w Hd Hfuel Hs Ho Hk Hj;
    (destruct fuel as [|fuel]; [lia|]);
    (destruct (hasMore v) eqn:Hm;
     [|rewrite legacy_while_done by exact Hm; exact I]);
    rewrite legacy_while_step by exact Hm;
    (destruct (group_members srv (sent w) gid (currentOffset v) batchSize)
       as [response|err] eqn:Hreply;
     [|rewrite (legacy_page_throw srv gid v w err Hreply); exact I]);
    destruct (legacy_page_ret srv gid v w response Hreply)
      as [v1 [-> [_ [Hh Hoff]]]];
    assert (Hr : Legacy.page_reply srv gid n i = Resolved response)
      by (unfold Legacy.page_reply; rewrite <- Hs, <- Ho; exact Hreply).
  - replace i with j in Hr by lia. rewrite Hr in Hj.
    rewrite legacy_while_done by congruence. exact I.
  - assert (Hc : hasMore v1 = true) by (rewrite Hh, <- Hr; apply Hk; lia).
    apply (IH fuel (S i)); try lia; try assumption.
    + cbn. lia.
    + rewrite Hoff by exact Hc. unfold batchSize in *. lia.
Qed.

Ltac run_legacy :=
  unfold Legacy.fetchAllMembers, bind, try_finally, try_catch,
    setLoadingMembers, setAllMembers, setError.

(** X7: the job of the earlier revision, as its replies decide it.  The
    job never throws.  Once it has returned, [loadingMembers] is off and,
    [j] being the first request after whose reply the loop did not go on:
    if that request was answered, the member list is what was kept of
    the replies up to it and the error cell is untouched, even when the
    answer said [success = false]; if it was rejected, everything
    collected is dropped, the member list stays what it was before the
    job, and the error is the server's text or a fixed one.  Nothing is
    retried. *)
Theorem legacy_job_outcome (fuel : nat) (srv : Server) (groupId : string)
    (w : World) :
  match Legacy.fetchAllMembers fuel srv groupId w with
  | (Ret _, w') =>
      loadingMembers (ui w') = false /\
      exists j,
        sent w' = (sent w + S j)%nat /\
        (forall k, (k < j)%nat ->
           Legacy.continues (Legacy.page_reply srv groupId (sent w) k) = true) /\
        Legacy.continues (Legacy.page_reply srv groupId (sent w) j) = false /\
        match Legacy.page_reply srv groupId (sent w) j with
        | Resolved _ =>
            allMembers (ui w') = Legacy.collected srv groupId (sent w) (S j) /\
            error (ui w') = error (ui w)
        | Rejected err =>
            allMembers (ui w') = allMembers (ui w) /\
            error (ui w')
            = Some (Js.or_str (response_error err) "Failed to fetch members")
        end
  | (Throw _, _) => False
  | (OutOfFuel, w') =>
      allMembers (ui w') = allMembers (ui w) /\ error (ui w') = error (ui w)
  end.
Proof.
  run_legacy.
  pose proof (legacy_loop srv groupId (sent w) fuel 0%nat
                {| allFetchedMembers := []; currentOffset := 0;
                   hasMore := true |}
                (with_ui (set_loadingMembers true) w)
                ltac:(cbn; lia) eq_refl eq_refl eq_refl
                ltac:(intros k Hk; lia)) as Hloop.
  destruct (Legacy.while_hasMore fuel srv groupId _ _) as [[v|err|] w1].
  - destruct Hloop as [j [Hs [Hui [Hk [Hstop [[response Hr] Hc]]]]]].
    cbn [fst snd with_ui ui]. split; [reflexivity|].
    exists j. split; [exact Hs|]. split; [exact Hk|]. split; [exact Hstop|].
    rewrite Hr. cbn. rewrite Hui, Hc. split; reflexivity.
  - destruct Hloop as [j [Hs [Hui [Hk Hr]]]].
    cbn [fst snd with_ui ui]. split; [reflexivity|].
    exists j. split; [exact Hs|]. split; [exact Hk|].
    rewrite Hr. split; [reflexivity|]. cbn. rewrite Hui. split; reflexivity.
  - rewrite Hloop. split; reflexivity.
Qed.

(** X8: the earlier revision shows a partial list without a word.  When
    the server answers some page with [success = false], the job returns
    with the members of the pages before it as its result and leaves the
    error cell as it was: the listing is cut short and nothing tells the
    user so. *)
Theorem legacy_shows_partial_list (srv : Server) (groupId : string)
    (w : World) (j fuel : nat) (response : MembersResponse) :
  (forall k, (k < j)%nat ->
     Legacy.continues (Legacy.page_reply srv groupId (sent w) k) = true) ->
  Legacy.page_reply srv groupId (sent w) j = Resolved response ->
  success response = false ->
  (j < fuel)%nat ->
  exists w',
    Legacy.fetchAllMembers fuel srv groupId w = (Ret tt, w') /\
    allMembers (ui w') = Legacy.collected srv groupId (sent w) j /\
    error (ui w') = error (ui w) /\
    sent w' = (sent w + S j)%nat.
Proof.
  intros Hk Hr Hfalse Hfuel.
  assert (Hstop : Legacy.continues (Legacy.page_reply srv groupId (sent w) j)
                  = false) by (rewrite Hr; cbn; rewrite Hfalse; reflexivity).
  pose proof (legacy_loop_ends srv groupId (sent w) j j fuel 0%nat
                {| allFetchedMembers := []; currentOffset := 0;
                   hasMore := true |}
                (with_ui (set_loadingMembers true) w)
                ltac:(lia) Hfuel ltac:(cbn; lia) eq_refl Hk Hstop) as Hfin.
  pose proof (legacy_loop srv groupId (sent w) fuel 0%nat
                {| allFetchedMembers := []; currentOffset := 0;
                   hasMore := true |}
                (with_ui (set_loadingMembers true) w)
                ltac:(cbn; lia) eq_refl eq_refl eq_refl
                ltac:(intros k Hlt; lia)) as Hloop.
  assert (Hsame : forall j',
            (forall k, (k < j')%nat ->
               Legacy.continues (Legacy.page_reply srv groupId (sent w) k)
               = true) ->
            Legacy.continues (Legacy.page_reply srv groupId (sent w) j') = false ->
            j' = j).
  { intros j' Hk' Hstop'.
    destruct (Nat.lt_trichotomy j' j) as [Hlt|[Heq|Hgt]];
      [rewrite (Hk _ Hlt) in Hstop'; discriminate
      |exact Heq
      |rewrite (Hk' _ Hgt) in Hstop; discriminate]. }
  run_legacy.
  destruct (Legacy.while_hasMore fuel srv groupId _ _) as [[v|err|] w1];
    [| |contradiction].
  - destruct Hloop as [j' [Hs [Hui [Hk' [Hstop' [_ Hc]]]]]].
    apply Hsame in Hstop'; [subst j'|exact Hk'].
    eexists. split; [reflexivity|]. cbn [with_ui ui allMembers set_allMembers
      set_loadingMembers error].
    rewrite Hui. split; [|split; [reflexivity | exact Hs]].
    rewrite Hc, legacy_collected_succ, Hr. cbn [Legacy.accepted].
    rewrite Hfalse. apply app_nil_r.
  - destruct Hloop as [j' [Hs [Hui [Hk' Hrej]]]].
    assert (j' = j) as -> by (apply Hsame; [exact Hk'|rewrite Hrej; reflexivity]).
    rewrite Hr in Hrej. discriminate.
Qed.

(** [gives_up] flags its third answer: the four members of the first two
    pages are shown and no error is. *)
Lemma legacy_shows_partial_list_witness :
  exists w',
    Legacy.fetchAllMembers 3 Legacy.gives_up "-1001" (mounted "") = (Ret tt, w') /\
    List.length (allMembers (ui w')) = 4%nat /\
    error (ui w') = None.
Proof.
  destruct (legacy_shows_partial_list Legacy.gives_up "-1001" (mounted "")
              2 3
              {| success := false;
                 data := Js.slice (group_of 120) 100 102;
                 Api.error := Some "FloodWaitError"%string;
                 total_count := Some 120; has_more := true |}
              ltac:(intros [|[|k]] Hk; [reflexivity|reflexivity|lia])
              eq_refl eq_refl ltac:(lia)) as [w' [Hrun [Hm [He _]]]].
  exists w'. split; [exact Hrun|]. split; [rewrite Hm; reflexivity | exact He].
Defined.

(** An iteration of the newer loop that returns is matched by the older
    one, given the same reply. *)
Lemma legacy_matches_page srv gid total v w v' w' wl :
  page_iteration srv gid total v w = (Ret v', w') ->
  sent wl = sent w ->
  Legacy.page_iteration srv gid v wl
  = (Ret v', issue (EvGet gid (currentOffset v) batchSize) wl) /\
  sent w' = S (sent w).
Proof.
  intros Hit Hs. apply page_iteration_ret in Hit.
  destruct Hit as [response [Hreply [Hsucc Hcases]]].
  run_legacy_page. rewrite Hs, Hreply, Hsucc. cbn [andb].
  destruct Hcases as [[Hne [-> ->]] | [Hnil [-> ->]]].
  - apply length_pos_iff in Hne. rewrite Hne. split; reflexivity.
  - rewrite Hnil. split; reflexivity.
Qed.

Lemma legacy_matches_loop srv gid total : forall fuel v w wl v' w',
  while_hasMore fuel srv gid total v w = (Ret v', w') ->
  sent wl = sent w ->
  exists wl',
    Legacy.while_hasMore fuel srv gid v wl = (Ret v', wl') /\
    sent wl' = sent w' /\ ui wl' = ui wl.
Proof.
  induction fuel as [|fuel IH]; intros v w wl v' w' Hrun Hs.
  - simpl in *. destruct (hasMore v); [discriminate|].
    inversion Hrun; subst. exists wl. auto.
  - destruct (hasMore v) eqn:Hm.
    + rewrite while_hasMore_step in Hrun by exact Hm.
      rewrite legacy_while_step by exact Hm.
      destruct (page_iteration srv gid total v w) as [[v1|err|] w1] eqn:Hit;
        try discriminate.
      destruct (legacy_matches_page _ _ _ _ _ _ _ wl Hit Hs) as [-> Hs1].
      destruct (IH v1 w1 (issue (EvGet gid (currentOffset v) batchSize) wl)
                  v' w' Hrun ltac:(cbn; lia)) as [wl' [-> [Hs' Hui]]].
      exists wl'. auto.
    + rewrite while_hasMore_done in Hrun by exact Hm.
      rewrite legacy_while_done by exact Hm.
      inversion Hrun; subst. exists wl. auto.
Qed.

(** X9: where the newer job succeeds at once, the earlier revision did
    the same.  If an attempt of the newer [attemptFetch] returns, the job
    of the earlier revision, started when the count request has been
    answered and given the same replies, returns too and shows the same
    member list, after the same number of requests and with the error
    cell as it was. *)
Theorem revisions_agree_on_success (fuel : nat) (srv : Server)
    (groupId : string) (w w' : World) :
  attempt_try fuel srv groupId w = (Ret true, w') ->
  exists wl,
    Legacy.fetchAllMembers fuel srv groupId (issue (EvGet groupId 0 1) w)
    = (Ret tt, wl) /\
    allMembers (ui wl) = allMembers (ui w') /\
    sent wl = sent w' /\
    error (ui wl) = error (ui w').
Proof.
  intros Hrun.
  pose proof (attempt_try_delivers _ _ _ _ _ _ Hrun) as [_ [_ Herr]].
  revert Hrun. run_attempt.
  destruct (group_members srv (sent w) groupId 0 1) as [initialResponse|err];
    cbn [fst snd]; [|discriminate].
  destruct (success initialResponse); cbn [negb]; [|discriminate].
  destruct (while_hasMore fuel srv groupId _ _ _) as [[v|e|] wl0] eqn:Hloop;
    try discriminate.
  intros H. inversion H; subst w'. clear H.
  destruct (legacy_matches_loop _ _ _ _ _ _
              (with_ui (set_loadingMembers true) (issue (EvGet groupId 0 1) w))
              _ _ Hloop eq_refl) as [wl' [Hl [Hs Hui]]].
  run_legacy. rewrite Hl. eexists. split; [reflexivity|].
  cbn [with_ui ui sent allMembers set_allMembers set_loadingMembers error].
  split; [reflexivity|]. split; [exact Hs|].
  rewrite Hui. cbn in Herr |- *. symmetry. exact Herr.
Qed.

(** [short_pages]: both revisions show the thirty members. *)
Lemma revisions_agree_on_success_witness :
  exists w',
    attempt_try 4 short_pages "-1001" (mounted "") = (Ret true, w') /\
    exists wl,
      Legacy.fetchAllMembers 4 short_pages "-1001"
        (issue (EvGet "-1001" 0 1) (mounted "")) = (Ret tt, wl) /\
      allMembers (ui wl) = allMembers (ui w') /\
      List.length (allMembers (ui wl)) = 30%nat.
Proof.
  eexists. split; [vm_compute; reflexivity|].
  destruct (revisions_agree_on_success 4 short_pages "-1001" (mounted "") _
              ltac:(vm_compute; reflexivity)) as [wl [Hrun [Hm _]]].
  exists wl. split; [exact Hrun|]. split; [exact Hm|].
  rewrite Hm. vm_compute. reflexivity.
Defined.

(* ------------------------------------------------------------------ *)
(** ** The file name and the CSV *)
(* ------------------------------------------------------------------ *)

Ltac classes :=
  unfold separator, unwanted, Utf16.is_word, Utf16.is_space, Utf16.hyphen,
    is_alnum in *;
  repeat match goal with
         | H : _ = false |- _ => apply not_true_iff_false in H
         | |- _ = false => apply not_true_iff_false; intro
         end;
  rewrite ?negb_true_iff, ?orb_true_iff, ?andb_true_iff, ?N.leb_le, ?N.eqb_eq,
    ?negb_true_iff, ?N.eqb_neq in *.

(** A word character is neither white space nor a hyphen. *)
Lemma word_not_separator c :
  Utf16.is_word c = true -> separator c = false.
Proof.
  intros H. apply not_true_iff_false. intros H2. classes. lia.
Qed.

Lemma word_not_space c : Utf16.is_word c = true -> Utf16.is_space c = false.
Proof.
  intros H. apply word_not_separator in H. unfold separator in H.
  apply orb_false_iff in H. tauto.
Qed.

(** What is left after the replacement of the runs. *)
Lemma replace_runs_Forall (Q : N -> Prop) class by_ :
  Forall Q by_ ->
  forall s in_run,
    Forall (fun c => class c = false -> Q c) s ->
    Forall Q (Utf16.replace_runs class by_ in_run s).
Proof.
  intros Hby. induction s as [|c s IH]; intros in_run Hs; [constructor|].
  inversion Hs as [|c' s' Hc Hs']; subst. simpl.
  destruct (class c) eqn:Hcl.
  - destruct in_run; [apply IH, Hs'|].
    apply Forall_app. split; [exact Hby | apply IH, Hs'].
  - constructor; [apply Hc; reflexivity | apply IH, Hs'].
Qed.

Lemma replace_runs_none class by_ : forall s in_run,
  Forall (fun c => class c = false) s ->
  Utf16.replace_runs class by_ in_run s = s.
Proof.
  induction s as [|c s IH]; intros in_run Hs; [reflexivity|].
  inversion Hs as [|c' s' Hc Hs']; subst. simpl. rewrite Hc, IH by exact Hs'.
  reflexivity.
Qed.


(** [trim] leaves a string without white space alone. *)
Lemma trim_start_none s :
  Forall (fun c => Utf16.is_space c = false) s -> Utf16.trim_start s = s.
Proof.
  intros Hs. destruct s as [|c s]; [reflexivity|].
  inversion Hs; subst. simpl. rewrite H1. reflexivity.
Qed.

Lemma trim_none s :
  Forall (fun c => Utf16.is_space c = false) s -> Utf16.trim s = s.
Proof.
  intros Hs. unfold Utf16.trim. rewrite (trim_start_none s Hs).
  rewrite trim_start_none by (apply Forall_rev, Hs). apply rev_involutive.
Qed.

Lemma remove_Forall class s :
  Forall (fun c => class c = false) (Utf16.remove class s).
Proof.
  unfold Utf16.remove. apply Forall_forall. intros c Hc.
  apply filter_In in Hc. destruct Hc as [_ Hc].
  apply negb_true_iff in Hc. exact Hc.
Qed.

Lemma remove_none class s :
  Forall (fun c => class c = false) s -> Utf16.remove class s = s.
Proof.
  unfold Utf16.remove. induction 1 as [|c s Hc Hs IH]; [reflexivity|].
  simpl. rewrite Hc, IH. reflexivity.
Qed.

(** The name with the unwanted characters removed and the runs replaced
    is made of word characters. *)
Lemma replaced_words name :
  Forall (fun c => Utf16.is_word c = true)
    (Utf16.replace_runs separator (Utf16.lit "_") false
       (Utf16.remove unwanted name)).
Proof.
  apply replace_runs_Forall.
  - repeat constructor.
  - eapply Forall_impl; [|apply remove_Forall].
    cbv beta. unfold separator, unwanted. intros c Hc Hsep.
    apply negb_false_iff in Hc.
    destruct (Utf16.is_word c); [reflexivity|].
    rewrite orb_comm in Hsep. cbn [orb] in Hc. congruence.
Qed.

(** [sanitizeFilename] without its [trim]. *)
Lemma sanitizeFilename_unfold name :
  sanitizeFilename name
  = Utf16.or_else
      (Utf16.replace_runs separator (Utf16.lit "_") false
         (Utf16.remove unwanted name))
      (Utf16.lit "group").
Proof.
  unfold sanitizeFilename. rewrite trim_none; [reflexivity|].
  eapply Forall_impl; [|apply replaced_words].
  intros c Hc. apply word_not_space, Hc.
Qed.

Lemma sanitizeFilename_words name :
  sanitizeFilename name <> [] /\
  Forall (fun c => Utf16.is_word c = true) (sanitizeFilename name).
Proof.
  rewrite sanitizeFilename_unfold.
  pose proof (replaced_words name) as Hw.
  destruct (Utf16.replace_runs _ _ _ _) as [|c s]; cbn [Utf16.or_else].
  - split; [discriminate|]. repeat constructor.
  - split; [discriminate | exact Hw].
Qed.

Lemma sanitizeFilename_fixed s :
  s <> [] -> Forall (fun c => Utf16.is_word c = true) s ->
  sanitizeFilename s = s.
Proof.
  intros Hne Hw. rewrite sanitizeFilename_unfold.
  rewrite remove_none.
  - rewrite replace_runs_none.
    + destruct s; [congruence | reflexivity].
    + eapply Forall_impl; [|exact Hw]. intros c. apply word_not_separator.
  - eapply Forall_impl; [|exact Hw]. unfold unwanted. intros c Hc.
    rewrite Hc. reflexivity.
Qed.

(** X10: the file name that [sanitizeFilename] returns is never empty and
    is made of the characters [A-Za-z0-9_] only: no white space, hyphen,
    dot, slash or character outside ASCII is left in it, whatever the
    name of the group. *)
Theorem sanitizeFilename_safe (name : Utf16.str) :
  sanitizeFilename name <> [] /\
  Forall (fun c => Utf16.is_word c = true) (sanitizeFilename name) /\
  Forall (fun c => (c < 128)%N /\ Utf16.is_space c = false
                   /\ c <> Utf16.hyphen /\ c <> 46%N /\ c <> 47%N
                   /\ c <> 92%N)
    (sanitizeFilename name).
Proof.
  destruct (sanitizeFilename_words name) as [Hne Hw].
  split; [exact Hne|]. split; [exact Hw|].
  eapply Forall_impl; [|exact Hw]. cbv beta. intros c Hc.
  pose proof (word_not_space c Hc) as Hs.
  split; [|split; [exact Hs|]]; clear Hs; classes; lia.
Qed.

(** X11: [sanitizeFilename] is idempotent: a name it has returned is
    returned as it is. *)
Theorem sanitizeFilename_idempotent (name : Utf16.str) :
  sanitizeFilename (sanitizeFilename name) = sanitizeFilename name.
Proof.
  destruct (sanitizeFilename_words name) as [Hne Hw].
  apply sanitizeFilename_fixed; assumption.
Qed.

Lemma replace_runs_all class by_ : forall s,
  Forall (fun c => class c = true) s ->
  Utf16.replace_runs class by_ true s = [].
Proof.
  induction 1 as [|c s Hc Hs IH]; [reflexivity|]. simpl. rewrite Hc. exact IH.
Qed.

Lemma remove_all class s :
  Forall (fun c => class c = true) s -> Utf16.remove class s = [].
Proof.
  unfold Utf16.remove. induction 1 as [|c s Hc Hs IH]; [reflexivity|].
  simpl. rewrite Hc. exact IH.
Qed.

Lemma remove_Exists class s :
  Exists (fun c => class c = false) s -> Utf16.remove class s <> [].
Proof.
  unfold Utf16.remove. induction 1 as [c s Hc|c s Hs IH]; simpl.
  - rewrite Hc. discriminate.
  - destruct (class c); [exact IH | discriminate].
Qed.

(** X12: the fall-back name and the name of a blank title.  A name
    without any word character, white space or hyphen, the empty name
    among them, becomes "group".  A name without word characters that
    holds white space or a hyphen does not: its runs are replaced before
    [trim] sees them, and it becomes "_". *)
Theorem sanitizeFilename_blank (name : Utf16.str) :
  (Forall (fun c => unwanted c = true) name ->
   sanitizeFilename name = Utf16.lit "group") /\
  (Forall (fun c => Utf16.is_word c = false) name ->
   Exists (fun c => separator c = true) name ->
   sanitizeFilename name = Utf16.lit "_").
Proof.
  rewrite sanitizeFilename_unfold. split.
  - intros Hall. rewrite remove_all by exact Hall. reflexivity.
  - intros Hnw Hsep.
    assert (Hs1 : Forall (fun c => separator c = true)
                    (Utf16.remove unwanted name)).
    { apply Forall_forall. intros c Hc. unfold Utf16.remove in Hc.
      apply filter_In in Hc. destruct Hc as [Hin Hc].
      rewrite Forall_forall in Hnw. specialize (Hnw c Hin).
      unfold unwanted, separator in *.
      destruct (Utf16.is_word c), (Utf16.is_space c), (c =? Utf16.hyphen)%N;
        simpl in *; congruence. }
    assert (Hne : Utf16.remove unwanted name <> []).
    { apply remove_Exists. eapply Exists_impl; [|exact Hsep].
      cbv beta. unfold unwanted, separator. intros c Hc.
      destruct (Utf16.is_word c), (Utf16.is_space c), (c =? Utf16.hyphen)%N;
        simpl in *; congruence. }
    destruct (Utf16.remove unwanted name) as [|c s]; [congruence|].
    inversion Hs1 as [|c' s' Hc Hs]; subst. cbn [Utf16.replace_runs].
    rewrite Hc, replace_runs_all by exact Hs. reflexivity.
Qed.





(** Splitting what was joined. *)
Lemma free_of_app c s t :
  Csv.free_of c (s ++ t) = Csv.free_of c s && Csv.free_of c t.
Proof.
  induction s as [|a s IH]; [reflexivity|]. simpl. rewrite IH.
  apply andb_assoc.
Qed.

Lemma split_free sep s : Csv.free_of sep s = true -> Csv.split sep s = [s].
Proof.
  induction s as [|a s IH]; [reflexivity|]. simpl. intros H.
  apply andb_true_iff in H. destruct H as [Ha Hs].
  apply negb_true_iff in Ha. rewrite Ha, IH by exact Hs. reflexivity.
Qed.

Lemma split_app sep s rest :
  Csv.free_of sep s = true ->
  Csv.split sep (s ++ String sep rest) = s :: Csv.split sep rest.
Proof.
  induction s as [|a s IH]; simpl; intros H.
  - rewrite Ascii.eqb_refl. reflexivity.
  - apply andb_true_iff in H. destruct H as [Ha Hs].
    apply negb_true_iff in Ha. rewrite Ha, IH by exact Hs. reflexivity.
Qed.

Lemma split_concat sep : forall fields,
  fields <> [] ->
  forallb (Csv.free_of sep) fields = true ->
  Csv.split sep (String.concat (String sep EmptyString) fields) = fields.
Proof.
  induction fields as [|f fields IH]; [congruence|]. intros _ Hfree.
  cbn [forallb] in Hfree. apply andb_true_iff in Hfree.
  destruct Hfree as [Hf Hrest].
  destruct fields as [|g fields]; [apply split_free, Hf|].
  change (String.concat (String sep EmptyString) (f :: g :: fields))
    with (f ++ String sep (String.concat (String sep EmptyString) (g :: fields)))%string.
  rewrite split_app by exact Hf. rewrite IH; [reflexivity|discriminate|exact Hrest].
Qed.

(** What the columns are free of. *)
Lemma replace_commas_free s : Csv.free_of "," (Csv.replace_commas s) = true.
Proof.
  induction s as [|a s IH]; [reflexivity|]. simpl. rewrite IH.
  destruct (Ascii.eqb a ",") eqn:Ha; [reflexivity|]. rewrite Ha. reflexivity.
Qed.

Lemma replace_commas_lines s :
  Csv.free_of Csv.lf (Csv.replace_commas s) = Csv.free_of Csv.lf s.
Proof.
  induction s as [|a s IH]; [reflexivity|]. simpl. rewrite IH.
  destruct (Ascii.eqb a ",") eqn:Ha; [|reflexivity].
  apply Ascii.eqb_eq in Ha. subst a. reflexivity.
Qed.

Lemma digits_free c d :
  c = ","%char \/ c = Csv.lf ->
  Csv.free_of c (NilEmpty.string_of_uint d) = true.
Proof.
  intros Hc. induction d; simpl; rewrite ?IHd;
    destruct Hc as [-> | ->]; reflexivity.
Qed.

Lemma number_toString_free c n :
  c = ","%char \/ c = Csv.lf -> Csv.free_of c (Csv.number_toString n) = true.
Proof.
  intros Hc. unfold Csv.number_toString, NilZero.string_of_int.
  assert (Hu : forall d, Csv.free_of c (NilZero.string_of_uint d) = true).
  { intros d. unfold NilZero.string_of_uint.
    destruct d; try apply (digits_free c _ Hc).
    destruct Hc as [-> | ->]; reflexivity. }
  destruct (Z.to_int _) as [d|d]; [apply Hu|].
  simpl. rewrite Hu. destruct Hc as [-> | ->]; reflexivity.
Qed.

Lemma yes_no_free c b :
  c = ","%char \/ c = Csv.lf -> Csv.free_of c (Csv.yes_no b) = true.
Proof. intros [-> | ->]; destruct b as [[|]|]; reflexivity. Qed.

(** The row of a member splits into its fields, and holds no line feed
    when its text columns hold none. *)
Lemma row_fields member :
  Csv.free_of "," (Js.or_str (username member) "") = true ->
  Csv.split "," (String.concat "," (Csv.fields member)) = Csv.fields member.
Proof.
  intros Hu. apply split_concat; [discriminate|].
  unfold Csv.fields. cbn [forallb].
  rewrite Hu, !replace_commas_free, !yes_no_free, number_toString_free by auto.
  reflexivity.
Qed.

Lemma concat_free c sep : forall fields,
  Csv.free_of c sep = true ->
  forallb (Csv.free_of c) fields = true ->
  Csv.free_of c (String.concat sep fields) = true.
Proof.
  intros fields Hsep. induction fields as [|f fields IH]; [reflexivity|].
  cbn [forallb]. intros H. apply andb_true_iff in H. destruct H as [Hf Hrest].
  destruct fields as [|g fields]; [exact Hf|].
  change (String.concat sep (f :: g :: fields))
    with (f ++ sep ++ String.concat sep (g :: fields))%string.
  rewrite !free_of_app, Hf, Hsep, IH by exact Hrest. reflexivity.
Qed.

Lemma row_line member :
  forallb (Csv.free_of Csv.lf) (Csv.texts member) = true ->
  Csv.free_of Csv.lf (String.concat "," (Csv.fields member)) = true.
Proof.
  unfold Csv.texts. cbn [forallb]. rewrite !andb_true_iff.
  intros [Hu [Hf [Hl [Ha _]]]].
  apply concat_free; [reflexivity|]. unfold Csv.fields. cbn [forallb].
  rewrite Hu, !replace_commas_lines, Hf, Hl, Ha, !yes_no_free,
    number_toString_free by auto.
  reflexivity.
Qed.

(** X14: the CSV can be read back.  When no user name holds a comma and
    no text column holds a line feed, splitting [csvContent] at the line
    feeds and every line at the commas gives the header and, for each
    member in order, the eight fields of its row: the id in decimal, the
    user name as it is, the names and the admin title with their commas
    turned into spaces, and Yes or No for the flags.  Nothing is quoted
    or escaped. *)
Theorem csv_reads_back (members : list MemberInfo) :
  forallb Csv.plain members = true ->
  map (Csv.split ",") (Csv.split Csv.lf (Csv.csvContent members))
  = Csv.headers :: map Csv.fields members.
Proof.
  intros Hplain. unfold Csv.csvContent, Csv.LF.
  rewrite split_concat.
  - cbn [map]. f_equal.
    rewrite map_map. induction members as [|m ms IH]; [reflexivity|].
    cbn [forallb map] in *. apply andb_true_iff in Hplain.
    destruct Hplain as [Hm Hms]. unfold Csv.plain in Hm.
    apply andb_true_iff in Hm. destruct Hm as [Hu _].
    rewrite (row_fields m Hu), IH by exact Hms. reflexivity.
  - discriminate.
  - cbn [forallb]. apply andb_true_iff. split; [reflexivity|].
    rewrite forallb_forall. intros row Hrow. apply in_map_iff in Hrow.
    destruct Hrow as [m [<- Hin]].
    rewrite forallb_forall in Hplain. specialize (Hplain m Hin).
    unfold Csv.plain in Hplain. apply andb_true_iff in Hplain.
    apply row_line, Hplain.
Qed.

(** The row of "Smith, John": eight fields, the comma of the name gone. *)
Lemma csv_reads_back_witness :
  map (Csv.split ",") (Csv.split Csv.lf (Csv.csvContent [Csv.smith]))
  = [Csv.headers;
     ["5000000001"; "jsmith"; "Smith  John"; ""; "No"; "Yes"; "owner";
      "Yes"]%string].
Proof.
  rewrite (csv_reads_back [Csv.smith] ltac:(vm_compute; reflexivity)).
  vm_compute. reflexivity.
Defined.

(* ------------------------------------------------------------------ *)
(** ** The status page, the theme and the session *)
(* ------------------------------------------------------------------ *)

(** One refresh of the status page. *)
Lemma fetchStatus_cells reply s :
  TokenPoolStatus.loading (TokenPoolStatus.fetchStatus reply s) = false /\
  TokenPoolStatus.pool (TokenPoolStatus.fetchStatus reply s)
  = TokenPoolStatus.last_report [reply] (TokenPoolStatus.pool s) /\
  TokenPoolStatus.error (TokenPoolStatus.fetchStatus reply s)
  = match reply with
    | Resolved _ => None
    | Rejected err =>
        Some (Js.or_str (response_error err)
                "Failed to fetch token pool status")
    end.
Proof. destruct reply; repeat split. Qed.

(** X15: the status page never loses a report.  After any series of
    refreshes, the report on the page is the body of the last reply that
    was resolved (the one it had before, if none was), whether or not
    later refreshes failed; the error is that of the last refresh alone,
    a later success clears it; and while a refresh is on its way the
    loader is shown only if no report has been received yet. *)
Theorem status_page_keeps_report (replies : list (Reply TokenPoolStatus.PoolStatus))
    (last : Reply TokenPoolStatus.PoolStatus) (s : TokenPoolStatus.State) :
  let s' := TokenPoolStatus.refreshes (replies ++ [last]) s in
  TokenPoolStatus.loading s' = false /\
  TokenPoolStatus.shows_report s'
  = TokenPoolStatus.last_report (replies ++ [last]) (TokenPoolStatus.pool s) /\
  TokenPoolStatus.error s'
  = match last with
    | Resolved _ => None
    | Rejected err =>
        Some (Js.or_str (response_error err)
                "Failed to fetch token pool status")
    end /\
  (TokenPoolStatus.shows_loader (TokenPoolStatus.fetchStatus_sent s') = true
   <-> TokenPoolStatus.last_report (replies ++ [last]) (TokenPoolStatus.pool s)
       = None).
Proof.
  cbv zeta. unfold TokenPoolStatus.refreshes, TokenPoolStatus.last_report,
    TokenPoolStatus.shows_report.
  rewrite !fold_left_app. cbn [fold_left].
  assert (Hpool : forall rs s0,
            TokenPoolStatus.pool
              (fold_left (fun s1 reply => TokenPoolStatus.fetchStatus reply s1)
                 rs s0)
            = fold_left
                (fun report reply =>
                   match reply with
                   | Resolved body => Some body
                   | Rejected _ => report
                   end) rs (TokenPoolStatus.pool s0)).
  { induction rs as [|r rs IH]; intros s0; [reflexivity|].
    cbn [fold_left]. rewrite IH. destruct r; reflexivity. }
  destruct (fetchStatus_cells last
              (fold_left (fun s1 reply => TokenPoolStatus.fetchStatus reply s1)
                 replies s)) as [Hl [Hp He]].
  split; [exact Hl|]. split; [rewrite Hp, Hpool; reflexivity|].
  split; [exact He|].
  unfold TokenPoolStatus.shows_loader, TokenPoolStatus.fetchStatus_sent.
  cbn [TokenPoolStatus.loading TokenPoolStatus.pool andb].
  rewrite Hp, Hpool. cbn [TokenPoolStatus.last_report fold_left].
  destruct last as [body|err]; [split; discriminate|].
  destruct (fold_left _ replies (TokenPoolStatus.pool s));
    split; intros H; try discriminate; reflexivity.
Qed.

(** Once toggled, the item of [localStorage] says what the theme is. *)
Lemma handle_keeps_saved s e :
  App.theme s = Some (if App.isDark s then "dark" else "light")%string ->
  App.theme (App.handle s e)
  = Some (if App.isDark (App.handle s e) then "dark" else "light")%string.
Proof.
  intros H. destruct e as [|matches]; [reflexivity|].
  unfold App.handle, App.handleChange.
  destruct (App.isDark s) eqn:Hd; rewrite H; cbn; rewrite Hd; exact H.
Qed.

Lemma run_keeps_saved : forall events s,
  App.theme s = Some (if App.isDark s then "dark" else "light")%string ->
  App.theme (App.run events s)
  = Some (if App.isDark (App.run events s) then "dark" else "light")%string.
Proof.
  induction events as [|e events IH]; intros s H; [exact H|].
  apply IH, handle_keeps_saved, H.
Qed.

Lemma theme_saved_after_toggle : forall events s,
  existsb App.is_toggle events = true ->
  App.theme (App.run events s)
  = Some (if App.isDark (App.run events s) then "dark" else "light")%string.
Proof.
  induction events as [|e events IH]; intros s H; [discriminate|].
  destruct e as [|matches].
  - apply (run_keeps_saved events (App.toggleTheme s)). reflexivity.
  - apply (IH (App.handleChange matches s)). exact H.
Qed.

(** X16: the theme survives a reload.  Once the user has toggled the
    theme, at any later time, whatever the system preference has done
    since, mounting the application again from what [localStorage] holds
    gives the state the application is in, whatever the system
    preference is then. *)
Theorem theme_survives_reload (events : list App.Event) (s : App.State)
    (matches : bool) :
  existsb App.is_toggle events = true ->
  App.mount (App.theme (App.run events s)) matches = App.run events s.
Proof.
  intros H. pose proof (theme_saved_after_toggle events s H) as Hsaved.
  destruct (App.run events s) as [dark item]. cbn in Hsaved. subst item.
  destruct dark; reflexivity.
Qed.

(** Dark by the system, toggled to light, the system goes dark again: a
    reload shows light. *)
Lemma theme_survives_reload_witness :
  App.mount
    (App.theme (App.run [App.Toggle; App.SystemChange true]
                  (App.mount None true))) true
  = {| App.isDark := false; App.theme := Some "light"%string |}.
Proof.
  rewrite (theme_survives_reload [App.Toggle; App.SystemChange true]
             (App.mount None true) true eq_refl).
  reflexivity.
Defined.

(** X17: until the user chooses, the system does.  As long as the theme
    has not been toggled: if [localStorage] holds no theme (or an empty
    one), the theme is the system preference reported last; if it holds
    one, the system preference is never followed, and the theme is dark
    exactly when the item is the string "dark". *)
Theorem theme_follows_system (events : list App.Event)
    (savedTheme : option string) (matches : bool) :
  existsb App.is_toggle events = false ->
  App.isDark (App.run events (App.mount savedTheme matches))
  = (if App.truthy savedTheme
     then match savedTheme with
          | Some item => (item =? "dark")%string
          | None => false
          end
     else App.last_preference events matches) /\
  App.theme (App.run events (App.mount savedTheme matches)) = savedTheme.
Proof.
  assert (Hrun : forall evs s,
            existsb App.is_toggle evs = false ->
            App.theme (App.run evs s) = App.theme s /\
            App.isDark (App.run evs s)
            = if App.truthy (App.theme s) then App.isDark s
              else App.last_preference evs (App.isDark s)).
  { induction evs as [|e evs IH]; intros s H.
    - split; [reflexivity|]. destruct (App.truthy _); reflexivity.
    - destruct e as [|m]; [discriminate|]. cbn in H.
      destruct (IH (App.handleChange m s) H) as [Ht Hd].
      cbn [App.run fold_left App.handle App.last_preference].
      unfold App.run in Ht, Hd. rewrite Ht, Hd.
      unfold App.handleChange.
      destruct (App.truthy (App.theme s)) eqn:Htr; cbn [negb].
      + rewrite Htr. split; reflexivity.
      + cbn [App.theme App.isDark]. rewrite Htr. split; reflexivity. }
  intros H. destruct (Hrun events (App.mount savedTheme matches) H) as [Ht Hd].
  split; [|exact Ht]. rewrite Hd. cbn [App.mount App.theme App.isDark].
  unfold App.initial_isDark, App.truthy.
  destruct savedTheme as [item|]; [|reflexivity].
  destruct (item =? "")%string; reflexivity.
Qed.

(** Nothing saved: light, dark, light by the system gives light.  The
    item "blue" saved: light, whatever the system says. *)
Lemma theme_follows_system_witness :
  App.isDark (App.run [App.SystemChange false; App.SystemChange true;
                       App.SystemChange false] (App.mount None true))
  = false /\
  App.isDark (App.run [App.SystemChange true]
                (App.mount (Some "blue"%string) true)) = false.
Proof.
  split.
  - exact (proj1 (theme_follows_system
                    [App.SystemChange false; App.SystemChange true;
                     App.SystemChange false] None true eq_refl)).
  - reflexivity.
Defined.

(** The user shown is the one a server gave for the token stored. *)
Lemma vouched_more asked more s :
  Auth.vouched asked s -> Auth.vouched (asked ++ more) s.
Proof.
  unfold Auth.vouched. destruct (Auth.currentUser s) as [user|]; [|auto].
  intros [bearer [srv [Ht [Hin Hme]]]]. exists bearer, srv.
  repeat split; auto. apply in_or_app. auto.
Qed.

Lemma vouched_same asked s s' :
  Auth.token s' = Auth.token s -> Auth.currentUser s' = Auth.currentUser s ->
  Auth.vouched asked s -> Auth.vouched asked s'.
Proof. unfold Auth.vouched. intros -> ->. auto. Qed.

Lemma fetchUserInfo_vouched asked srv bearer s :
  Auth.token s = Some bearer -> In srv asked ->
  Auth.vouched asked (Auth.fetchUserInfo srv bearer s).
Proof.
  intros Ht Hin. unfold Auth.fetchUserInfo, Auth.vouched.
  destruct (Auth.users_me srv bearer) as [user|err] eqn:Hme; cbn; [|exact I].
  exists bearer, srv. auto.
Qed.

Lemma handle_vouched asked s e :
  Auth.vouched asked s ->
  Auth.vouched (asked ++ Auth.servers [e]) (Auth.handle s e).
Proof.
  intros Hs. destruct e as [srv|srv name pass|]; cbn [Auth.handle].
  - unfold Auth.on_mount.
    destruct (Auth.token s) as [t|] eqn:Ht; [|apply vouched_more, Hs].
    destruct (negb (t =? "")%string); [|apply vouched_more, Hs].
    apply fetchUserInfo_vouched; [exact Ht|].
    apply in_or_app. right. left. reflexivity.
  - unfold Auth.handleLogin. cbn [Auth.username Auth.password].
    destruct (Auth.post_token srv name pass) as [access_token|err].
    + match goal with
      | |- context [Auth.fetchUserInfo srv access_token ?s1] =>
          pose proof (fetchUserInfo_vouched (asked ++ Auth.servers [Auth.Login srv name pass])
                        srv access_token s1 eq_refl
                        ltac:(apply in_or_app; right; left; reflexivity)) as H;
          eapply vouched_same; [| |exact H]; reflexivity
      end.
    + apply vouched_more. eapply vouched_same; [| |exact Hs]; reflexivity.
  - exact I.
Qed.

Lemma run_vouched : forall events asked s,
  Auth.vouched asked s ->
  Auth.vouched (asked ++ Auth.servers events) (Auth.run events s).
Proof.
  induction events as [|e events IH]; intros asked s Hs.
  - cbn. rewrite app_nil_r. exact Hs.
  - cbn [Auth.run fold_left].
    replace (Auth.servers (e :: events))
      with (Auth.servers [e] ++ Auth.servers events)
      by (unfold Auth.servers; cbn [flat_map]; rewrite app_nil_r; reflexivity).
    rewrite app_assoc. apply IH, handle_vouched, Hs.
Qed.

(** X18: nobody is shown as signed in without a token to show for it.
    Whatever the user does (sign in, sign out, reload) and whatever the
    servers answer, when the page shows a user, [localStorage] holds a
    token and this user is the answer that one of the servers asked gave
    for this very token. *)
Theorem session_is_vouched (events : list Auth.Event) (item : option string) :
  Auth.vouched (Auth.servers events) (Auth.run events (Auth.opened item)).
Proof. apply (run_vouched events [] (Auth.opened item)). exact I. Qed.

(** X19: signing in can fail without a word.  When the server accepts the
    name and the password but then rejects the token it has just given,
    [handleLogin] closes the dialog, clears the fields and the error, and
    leaves the user signed out with no token stored: nothing on the page
    says that signing in did not work. *)
Theorem login_fails_silently (srv : Auth.Server) (s : Auth.State)
    (access_token : string) (err : Exn) :
  Auth.post_token srv (Auth.username s) (Auth.password s)
  = Resolved access_token ->
  Auth.users_me srv access_token = Rejected err ->
  Auth.handleLogin srv s = Auth.opened None.
Proof.
  intros Hpost Hme. unfold Auth.handleLogin, Auth.fetchUserInfo.
  rewrite Hpost, Hme. reflexivity.
Qed.

(** [forgetful] takes the password and forgets the token. *)
Lemma login_fails_silently_witness :
  Auth.run [Auth.Login Auth.forgetful "alice" "secret"] (Auth.opened None)
  = Auth.opened None.
Proof.
  exact (login_fails_silently Auth.forgetful
           {| Auth.token := None; Auth.currentUser := None;
              Auth.error := None; Auth.loginModalOpened := true;
              Auth.username := "alice"; Auth.password := "secret" |}
           "t0k3n"
           {| response := Some (Some "Could not validate credentials"%string);
              request := true;
              message := "Request failed with status code 401" |}
           eq_refl eq_refl).
Defined.
